(** * The correction engine of [the-shit] (src/main.cpp)

    A shallow embedding of the rule catalogue, the rule dispatcher and the
    fuzzy command-name matcher, together with the properties the
    specification states about them, followed by the callers of the
    engine: the history reader ([get_last_command]), the subprocess runner
    ([execute_command]), the [Settings] singleton and [main] with its retry
    loop. The diagnostic output on [std::cerr] under the debug setting is
    left out.

    Conventions of the embedding:
    - [std::string] is [string]: a sequence of 8-bit characters ([ascii]);
    - [std::vector<T>] is [list T];
    - [std::string::npos] is [None] in the result of the search functions;
    - an operation whose behaviour is undefined or that throws (an index
      outside a vector, [back()] of an empty vector, [substr] or [replace]
      past the end) yields [None] in the error monad [M];
    - the process-wide [CommandCache] is threaded through [M] as state;
    - what the process reads from its environment (the search path and
      the file system) is a [World] value; what [main] and its helpers
      observe besides (environment variables, the history file, the child
      processes) is a [Host] value;
    - [std::sort] is any function with the postcondition of the C++
      standard (the class [StdSort]); it is not assumed to be stable.

    The file has two parts: the definitions (the program, then the notions
    used to state its properties), and the theorems. *)

From Stdlib Require Import Bool Arith ZArith Lia List Ascii String.
From Stdlib Require Import Permutation Sorted.
From Equations Require Import Equations.
Import ListNotations.

Open Scope list_scope.
Open Scope string_scope.

(* ===================================================================== *)
(** * What the process observes of its environment *)
(* ===================================================================== *)

(** [d_type] of a directory entry, as far as the program tells the values
    apart. *)
Inductive d_type_t := DT_REG | DT_LNK | DT_UNKNOWN | DT_DIR | DT_OTHER.

Record dirent := mkDirent {
  d_name : string;
  d_type : d_type_t
}.

(** The two facts the program reads from a successful [stat]. *)
Record stat_t := mkStat {
  S_ISDIR : bool;   (* S_ISDIR(st_mode) *)
  S_IXUSR : bool    (* st_mode & S_IXUSR *)
}.

Record World := mkWorld {
  getenv_PATH : option string;                (* std::getenv("PATH") *)
  sys_stat : string -> option stat_t;         (* None: stat fails *)
  sys_opendir : string -> option (list dirent) (* entries in readdir order *)
}.

(* ===================================================================== *)
(** * Characters and strings *)
(* ===================================================================== *)

Module utils.

(** [::tolower] in the "C" locale (the program never calls [setlocale]):
    the upper-case letters 'A'..'Z' are moved to 'a'..'z'. *)
Definition tolower (c : ascii) : ascii :=
  let n := nat_of_ascii c in
  if ((65 <=? n) && (n <=? 90))%nat then ascii_of_nat (n + 32) else c.

(** [utils::to_lower]: [std::transform] of every character by [::tolower]. *)
Fixpoint to_lower (s : string) : string :=
  match s with
  | EmptyString => EmptyString
  | String c rest => String (tolower c) (to_lower rest)
  end.

(** [std::string::find(substr)] from position 0: the least index at which
    [substr] occurs, [None] for [npos]. *)
Fixpoint find (str substr : string) : option nat :=
  if String.prefix substr str then Some 0
  else match str with
       | EmptyString => None
       | String _ rest => option_map S (find rest substr)
       end.

(** [std::string::find(char)]. *)
Fixpoint find_char (str : string) (ch : ascii) : option nat :=
  match str with
  | EmptyString => None
  | String c rest =>
      if Ascii.eqb c ch then Some 0 else option_map S (find_char rest ch)
  end.

(** [std::string::rfind(char)]: the greatest index holding [ch]. *)
Fixpoint rfind_char (str : string) (ch : ascii) : option nat :=
  match str with
  | EmptyString => None
  | String c rest =>
      match rfind_char rest ch with
      | Some k => Some (S k)
      | None => if Ascii.eqb c ch then Some 0 else None
      end
  end.

(** [utils::contains]: [str.find(substr) != npos]. *)
Definition contains (str substr : string) : bool :=
  match find str substr with
  | Some _ => true
  | None => false
  end.

(** [utils::starts_with]: [str.find(prefix) == 0]. *)
Definition starts_with (str prefix : string) : bool :=
  match find str prefix with
  | Some 0 => true
  | _ => false
  end.

(** [utils::ends_with]: the size test, then the comparison of the last
    [suffix.size()] characters with [suffix]. *)
Definition ends_with (str suffix : string) : bool :=
  (String.length suffix <=? String.length str)%nat &&
  String.eqb
    (String.substring (String.length str - String.length suffix)
       (String.length suffix) str)
    suffix.

(** [std::getline(iss, part, delim)] on the unread characters [iss] of a
    string stream: the characters before the first [delim] and what is left
    after that [delim] (which is extracted and dropped). *)
Fixpoint getline_extract (iss : string) (delim : ascii) : string * string :=
  match iss with
  | EmptyString => (EmptyString, EmptyString)
  | String c rest =>
      if Ascii.eqb c delim then (EmptyString, rest)
      else let pr := getline_extract rest delim in
           (String c (fst pr), snd pr)
  end.

(** The stream converts to [false] exactly when nothing at all could be
    extracted, that is when no unread character is left. *)
Definition getline (iss : string) (delim : ascii) : option (string * string) :=
  match iss with
  | EmptyString => None
  | String _ _ => Some (getline_extract iss delim)
  end.

(** [part.empty()]. *)
Definition empty (s : string) : bool :=
  match s with
  | EmptyString => true
  | String _ _ => false
  end.

(** A loop [while (std::getline(iss, part, delim)) acc = body(acc, part);]
    over a string stream; every iteration consumes at least one character
    of the stream, which is why the loop ends. *)
Equations? while_getline {A : Type} (body : A -> string -> A)
  (iss : string) (delim : ascii) (acc : A) : A by wf (String.length iss) lt :=
  while_getline body EmptyString delim acc := acc;
  while_getline body (String c rest) delim acc :=
    while_getline body (snd (getline_extract (String c rest) delim)) delim
      (body acc (fst (getline_extract (String c rest) delim))).
Proof.
  clear. revert c. induction rest as [|d rest IH]; intros c; simpl.
  - destruct (Ascii.eqb c delim); simpl; lia.
  - destruct (Ascii.eqb c delim); simpl; [lia|].
    specialize (IH d). simpl in IH. lia.
Qed.

(** The body of the loop of [utils::split]:
    [if (!part.empty()) parts.push_back(part);]. *)
Definition push_nonempty (parts : list string) (part : string) : list string :=
  if empty part then parts else (parts ++ [part])%list.

(** [utils::split(str, delim)]. *)
Definition split (str : string) (delim : ascii) : list string :=
  while_getline push_nonempty str delim [].

(** The characters of [s] from position [pos] on. *)
Fixpoint drop (pos : nat) (s : string) : string :=
  match pos, s with
  | 0, _ => s
  | S _, EmptyString => EmptyString
  | S p, String _ rest => drop p rest
  end.

(** [s.substr(pos)]: throws [std::out_of_range] when [pos > s.size()]. *)
Definition substr (s : string) (pos : nat) : option string :=
  if (pos <=? String.length s)%nat then Some (drop pos s) else None.

(** [s.substr(pos, n)]: at most [n] characters from [pos]; throws when
    [pos > s.size()]. *)
Definition substr_n (s : string) (pos n : nat) : option string :=
  if (pos <=? String.length s)%nat then Some (String.substring pos n s)
  else None.

(** [s.replace(pos, len, str)]: throws when [pos > s.size()]; [len] is
    clipped to the end of the string. *)
Definition replace (s : string) (pos len : nat) (str : string)
  : option string :=
  if (pos <=? String.length s)%nat
  then Some (String.substring 0 pos s ++ str ++ drop (pos + len) s)
  else None.

(** [s[pos]] of a [std::string]: the character at [pos], the terminating
    null character when [pos == s.size()], undefined beyond. *)
Definition string_at (s : string) (pos : nat) : option ascii :=
  match String.get pos s with
  | Some c => Some c
  | None => if (pos =? String.length s)%nat then Some Ascii.zero else None
  end.

(** [v[i]] of a [std::vector]: undefined when [i >= v.size()]. *)
Definition vector_at {A : Type} (v : list A) (i : nat) : option A :=
  nth_error v i.

(** [v.back()] of a [std::vector]: undefined when [v] is empty. *)
Fixpoint vector_back {A : Type} (v : list A) : option A :=
  match v with
  | [] => None
  | [x] => Some x
  | _ :: rest => vector_back rest
  end.

(** [utils::file_exists]: [stat(path) == 0]. *)
Definition file_exists (w : World) (path : string) : bool :=
  match sys_stat w path with
  | Some _ => true
  | None => false
  end.

(** [utils::is_directory]: [stat(path) == 0 && S_ISDIR(st_mode)]. *)
Definition is_directory (w : World) (path : string) : bool :=
  match sys_stat w path with
  | Some st => S_ISDIR st
  | None => false
  end.

End utils.

(* ===================================================================== *)
(** * Command *)
(* ===================================================================== *)

Record Command := mkCommand {
  script : string;
  output : string;
  script_parts : list string
}.

(** The only constructor of [Command]: [script_parts = utils::split(s)],
    with the default delimiter [' ']. *)
Definition Command_ctor (s o : string) : Command :=
  mkCommand s o (utils.split s " "%char).

(* ===================================================================== *)
(** * The state and error monad of the engine *)
(* ===================================================================== *)

(** A computation over a state [S] that may fail: [None] stands for an
    uncaught exception or for undefined behaviour. *)
Definition M (S A : Type) : Type := S -> option (A * S).

Definition ret {S A : Type} (a : A) : M S A := fun s => Some (a, s).

Definition bind {S A B : Type} (m : M S A) (k : A -> M S B) : M S B :=
  fun s => match m s with
           | Some (a, s') => k a s'
           | None => None
           end.

(** A fallible pure step (an indexing, a [substr]). *)
Definition lift {S A : Type} (o : option A) : M S A :=
  fun s => match o with
           | Some a => Some (a, s)
           | None => None
           end.

Declare Scope engine_scope.
Delimit Scope engine_scope with engine.
Notation "x <- m ;; k" := (bind m (fun x => k))
  (at level 61, m at next level, right associativity) : engine_scope.
Notation "'check' b 'orelse' r ;; k" := (if b then k else ret r)
  (at level 61, b at next level, r at next level, right associativity)
  : engine_scope.
Open Scope engine_scope.

(* ===================================================================== *)
(** * std::sort *)
(* ===================================================================== *)

(** The requirement of the C++ standard on a comparison passed to
    [std::sort]: a strict weak ordering (irreflexive, transitive, and with
    a transitive "not less than"). *)
Definition strict_weak_order {A : Type} (comp : A -> A -> bool) : Prop :=
  (forall x, comp x x = false) /\
  (forall x y z, comp x y = true -> comp y z = true -> comp x z = true) /\
  (forall x y z, comp x y = false -> comp y z = false -> comp x z = false).

(** [sorted_by comp l]: no element of [l] is less than an element before
    it, the postcondition of [std::sort]. *)
Definition sorted_by {A : Type} (comp : A -> A -> bool) (l : list A) : Prop :=
  StronglySorted (fun a b => comp b a = false) l.

(** An implementation of [std::sort] as the standard specifies it: the
    result holds the same elements, in non-descending order for [comp].
    The standard promises nothing about the relative order of equivalent
    elements ([std::sort] is not [std::stable_sort]), so nothing here
    does. *)
Class StdSort := {
  std_sort : forall {A : Type}, (A -> A -> bool) -> list A -> list A;
  std_sort_permutation :
    forall {A : Type} (comp : A -> A -> bool) (l : list A),
      strict_weak_order comp -> Permutation l (std_sort comp l);
  std_sort_sorted :
    forall {A : Type} (comp : A -> A -> bool) (l : list A),
      strict_weak_order comp -> sorted_by comp (std_sort comp l)
}.

(** Two sorting functions: insertion sort, which keeps equivalent
    elements in their original order, and insertion sort of the reversed
    sequence, which reverses them. *)
Fixpoint insert_sorted {A : Type} (comp : A -> A -> bool) (x : A) (l : list A)
  : list A :=
  match l with
  | [] => [x]
  | y :: rest =>
      if comp y x then y :: insert_sorted comp x rest else x :: y :: rest
  end.

Definition insertion_sort {A : Type} (comp : A -> A -> bool) (l : list A)
  : list A :=
  fold_right (insert_sorted comp) [] l.

Definition reversing_sort {A : Type} (comp : A -> A -> bool) (l : list A)
  : list A :=
  insertion_sort comp (rev l).

(* ===================================================================== *)
(** * The [std::sort] of GNU libstdc++ *)
(* ===================================================================== *)

(** One implementation the program is commonly built with, transcribed
    from [bits/stl_algo.h] of libstdc++ 12: an introsort (median-of-three
    partitions down to ranges of at most 16 elements) followed by an
    insertion sort. A range is a list, an iterator is an index into it.
    The loops without a bound of their own run on fuel that the length of
    the range covers. *)
Module libstdcxx.

Section Sort.

Context {A : Type}.
Variable comp : A -> A -> bool.

(** [*i = x]. *)
Definition store (v : list A) (i : nat) (x : A) : list A :=
  (firstn i v ++ x :: skipn (S i) v)%list.

(** [comp(i, j)] on two iterators of the sequence. *)
Definition less (v : list A) (i j : nat) : bool :=
  match nth_error v i, nth_error v j with
  | Some x, Some y => comp x y
  | _, _ => false
  end.

(** [std::iter_swap(i, j)]. *)
Definition iter_swap (v : list A) (i j : nat) : list A :=
  match nth_error v i, nth_error v j with
  | Some x, Some y => store (store v i y) j x
  | _, _ => v
  end.

(** [__move_median_to_first(result, a, b, c)]. *)
Definition move_median_to_first (v : list A) (result a b c : nat) : list A :=
  if less v a b then
    if less v b c then iter_swap v result b
    else if less v a c then iter_swap v result c
    else iter_swap v result a
  else if less v a c then iter_swap v result a
  else if less v b c then iter_swap v result c
  else iter_swap v result b.

(** [while (comp(first, pivot)) ++first;]. *)
Fixpoint advance (fuel : nat) (v : list A) (first pivot : nat) : nat :=
  match fuel with
  | 0 => first
  | S fuel' =>
      if less v first pivot then advance fuel' v (S first) pivot else first
  end.

(** [while (comp(pivot, last)) --last;]. *)
Fixpoint retreat (fuel : nat) (v : list A) (pivot last : nat) : nat :=
  match fuel with
  | 0 => last
  | S fuel' =>
      if less v pivot last then retreat fuel' v pivot (last - 1) else last
  end.

(** [__unguarded_partition(first, last, pivot)]: the sequence after the
    swaps, and the cut. *)
Fixpoint unguarded_partition (fuel : nat) (v : list A) (first last pivot : nat)
  : list A * nat :=
  match fuel with
  | 0 => (v, first)
  | S fuel' =>
      let first := advance (List.length v) v first pivot in
      let last := last - 1 in
      let last := retreat (List.length v) v pivot last in
      if negb (first <? last)%nat then (v, first)
      else unguarded_partition fuel' (iter_swap v first last)
             (S first) last pivot
  end.

(** [__unguarded_partition_pivot(first, last)]. *)
Definition unguarded_partition_pivot (v : list A) (first last : nat)
  : list A * nat :=
  let mid := first + (last - first) / 2 in
  let v := move_median_to_first v first (first + 1) mid (last - 1) in
  unguarded_partition (List.length v) v (first + 1) last first.

(** [__introsort_loop(first, last, depth_limit)]; [None] stands for the
    heap sort taken when the depth limit is used up. *)
Fixpoint introsort_loop (fuel : nat) (v : list A) (first last depth : nat)
  : option (list A) :=
  match fuel with
  | 0 => None
  | S fuel' =>
      if (16 <? last - first)%nat then
        match depth with
        | 0 => None
        | S depth' =>
            let (v1, cut) := unguarded_partition_pivot v first last in
            match introsort_loop fuel' v1 cut last depth' with
            | Some v2 => introsort_loop fuel' v2 first cut depth'
            | None => None
            end
        end
      else Some v
  end.

(** [__unguarded_linear_insert(last)], with [val] taken out first. *)
Fixpoint linear_insert (fuel : nat) (v : list A) (val : A) (last : nat)
  : list A :=
  match fuel with
  | 0 => store v last val
  | S fuel' =>
      match nth_error v (last - 1) with
      | Some next =>
          if (0 <? last)%nat && comp val next
          then linear_insert fuel' (store v last next) val (last - 1)
          else store v last val
      | None => store v last val
      end
  end.

Definition unguarded_linear_insert (v : list A) (last : nat) : list A :=
  match nth_error v last with
  | Some val => linear_insert (List.length v) v val last
  | None => v
  end.

(** The body of the loop of [__insertion_sort(first, last)] at [i]. *)
Definition insertion_step (first : nat) (v : list A) (i : nat) : list A :=
  if less v i first then
    match nth_error v i with
    | Some val =>
        (firstn first v ++ val :: firstn (i - first) (skipn first v)
           ++ skipn (S i) v)%list
    | None => v
    end
  else unguarded_linear_insert v i.

(** [__insertion_sort(first, last)]. *)
Definition insertion_sort (v : list A) (first last : nat) : list A :=
  if (first =? last)%nat then v
  else fold_left (insertion_step first)
         (seq (first + 1) (last - (first + 1))) v.

(** [__unguarded_insertion_sort(first, last)]. *)
Definition unguarded_insertion_sort (v : list A) (first last : nat) : list A :=
  fold_left unguarded_linear_insert (seq first (last - first)) v.

(** [__final_insertion_sort(first, last)]. *)
Definition final_insertion_sort (v : list A) (first last : nat) : list A :=
  if (16 <? last - first)%nat then
    unguarded_insertion_sort (insertion_sort v first (first + 16))
      (first + 16) last
  else insertion_sort v first last.

(** [std::sort(begin, end, comp)]. *)
Definition sort (v : list A) : option (list A) :=
  match v with
  | [] => Some v
  | _ =>
      match introsort_loop (List.length v) v 0 (List.length v)
              (Nat.log2 (List.length v) * 2) with
      | Some v' => Some (final_insertion_sort v' 0 (List.length v'))
      | None => None
      end
  end.

End Sort.

End libstdcxx.

(** The [std::sort] of libstdc++ as a sorting function on lists: it is run
    on handles to the elements (their positions; the program itself sorts
    a vector of [std::unique_ptr] with a comparison that dereferences
    them), and its outcome is put to the test of the postcondition of
    [std::sort]. Insertion sort answers should the test fail or the depth
    limit of the introsort be used up. *)
Definition handle_less {A : Type} (comp : A -> A -> bool) (v : list A)
  (i j : nat) : bool :=
  match nth_error v i, nth_error v j with
  | Some x, Some y => comp x y
  | _, _ => false
  end.

Definition deref {A : Type} (v : list A) (handles : list nat) : list A :=
  flat_map (fun i => match nth_error v i with
                     | Some x => [x]
                     | None => []
                     end) handles.

(** [handles] holds every position below [n], once. *)
Definition covers (n : nat) (handles : list nat) : bool :=
  (List.length handles =? n)%nat &&
  forallb (fun i => existsb (Nat.eqb i) handles) (seq 0 n).

(** No element is less than an element before it. *)
Fixpoint sorted_b {A : Type} (comp : A -> A -> bool) (l : list A) : bool :=
  match l with
  | [] => true
  | x :: rest => forallb (fun y => negb (comp y x)) rest && sorted_b comp rest
  end.

Definition gnu_sort {A : Type} (comp : A -> A -> bool) (v : list A) : list A :=
  match libstdcxx.sort (handle_less comp v) (seq 0 (List.length v)) with
  | Some handles =>
      if covers (List.length v) handles && sorted_b comp (deref v handles)
      then deref v handles
      else insertion_sort comp v
  | None => insertion_sort comp v
  end.

(* ===================================================================== *)
(** * namespace fuzzy *)
(* ===================================================================== *)

Module fuzzy.

(** The conversion of a [size_t] to [int] (32 bits, two's complement), as
    in [dp[i][0] = i]. *)
Definition to_int (n : nat) : Z :=
  let z := (Z.of_nat n mod 2 ^ 32)%Z in
  if (z <? 2 ^ 31)%Z then z else (z - 2 ^ 32)%Z.

(** [std::vector<std::vector<int>> dp(len1 + 1, std::vector<int>(len2 + 1))]:
    a table of [int], all zero at first. The loops below only touch rows
    [0..len1] and columns [0..len2], which are the allocated ones. *)
Definition table : Type := nat -> nat -> Z.

Definition new_table : table := fun _ _ => 0%Z.

(** [dp[i][j] = v]. *)
Definition set_cell (dp : table) (i j : nat) (v : Z) : table :=
  fun i' j' => if ((i' =? i) && (j' =? j))%nat then v else dp i' j'.

(** [s[k]] for [k < s.size()], as read by the inner loop. *)
Definition char_at (s : string) (k : nat) : ascii :=
  match String.get k s with
  | Some c => c
  | None => Ascii.zero
  end.

(** [std::min({a, b, c})]. *)
Definition min3 (a b c : Z) : Z := Z.min a (Z.min b c).

(** The body of the inner loop, for the cell [(i, j)] with [1 <= i, j]. *)
Definition fill_cell (s1 s2 : string) (i : nat) (dp : table) (j : nat)
  : table :=
  if Ascii.eqb (char_at s1 (i - 1)) (char_at s2 (j - 1))
  then set_cell dp i j (dp (i - 1) (j - 1))
  else set_cell dp i j
         (Z.add 1 (min3 (dp (i - 1) j) (dp i (j - 1)) (dp (i - 1) (j - 1)))).

(** [fuzzy::levenshtein_distance]: the two border loops, the nested loops
    over [1..len1] and [1..len2], and the read of [dp[len1][len2]]. The sum
    [1 + min] is an exact integer sum: it stays below [2^31] for the strings
    a process can hold next to their table. *)
Definition levenshtein_distance (s1 s2 : string) : Z :=
  let len1 := String.length s1 in
  let len2 := String.length s2 in
  let dp := new_table in
  let dp := fold_left (fun dp i => set_cell dp i 0 (to_int i))
                      (seq 0 (len1 + 1)) dp in
  let dp := fold_left (fun dp j => set_cell dp 0 j (to_int j))
                      (seq 0 (len2 + 1)) dp in
  let dp := fold_left
              (fun dp i => fold_left (fill_cell s1 s2 i) (seq 1 len2) dp)
              (seq 1 len1) dp in
  dp len1 len2.

(** The body of the [readdir] loop of [get_system_commands]; the state is
    the vector [commands] and the set [seen]. *)
Definition scan_entry (w : World) (path : string)
  (acc : list string * list string) (entry : dirent)
  : list string * list string :=
  let filename := d_name entry in
  if Ascii.eqb (char_at filename 0) "."%char then acc
  else
    match d_type entry with
    | DT_REG | DT_LNK | DT_UNKNOWN =>
        let full_path := path ++ "/" ++ filename in
        match sys_stat w full_path with
        | Some st =>
            if S_IXUSR st then
              if existsb (String.eqb filename) (snd acc) then acc
              else ((fst acc ++ [filename])%list, filename :: snd acc)
            else acc
        | None => acc
        end
    | _ => acc
    end.

(** The body of the loop over the directories of [PATH]. *)
Definition scan_directory (w : World) (acc : list string * list string)
  (path : string) : list string * list string :=
  if negb (utils.is_directory w path) then acc
  else
    match sys_opendir w path with
    | None => acc
    | Some entries => fold_left (scan_entry w path) entries acc
    end.

(** [fuzzy::get_system_commands]. *)
Definition get_system_commands (w : World) : list string :=
  match getenv_PATH w with
  | None => []
  | Some path_str =>
      fst (utils.while_getline (scan_directory w) path_str ":"%char ([], []))
  end.

Record CommandMatch := mkCommandMatch {
  command : string;
  distance : Z
}.

(** [fuzzy::compare_matches]. *)
Definition compare_matches (a b : CommandMatch) : bool :=
  (distance a <? distance b)%Z.

(** [fuzzy::CommandCache], the object behind [get_command_cache()]; it
    lives as long as the process. *)
Record CommandCache := mkCommandCache {
  cached_commands : list string;
  initialized : bool
}.

(** The cache of a process that has not looked up a command yet. *)
Definition fresh_cache : CommandCache := mkCommandCache [] false.

(** [CommandCache::get_commands] (the diagnostic line written to
    [std::cerr] under the debug setting is left out). *)
Definition get_commands (w : World) : M CommandCache (list string) :=
  fun cache =>
    if initialized cache then Some (cached_commands cache, cache)
    else
      let cmds := get_system_commands w in
      Some (cmds, mkCommandCache cmds true).

(** The body of the loop of [find_similar_commands]. *)
Definition collect_match (input : string) (max_distance : Z)
  (matches : list CommandMatch) (cmd : string) : list CommandMatch :=
  let dist := levenshtein_distance input cmd in
  if (dist <=? max_distance)%Z
  then (matches ++ [mkCommandMatch cmd dist])%list
  else matches.

(** [fuzzy::find_similar_commands(input, max_distance)]. *)
Definition find_similar_commands {sort_impl : StdSort} (w : World)
  (input : string) (max_distance : Z) : M CommandCache (list CommandMatch) :=
  commands <- get_commands w ;;
  let matches := fold_left (collect_match input max_distance) commands [] in
  ret (std_sort compare_matches matches).

(** The default argument [max_distance = 2]. *)
Definition default_max_distance : Z := 2.

End fuzzy.

(* ===================================================================== *)
(** * std::regex, as far as the two patterns of the program need it *)
(* ===================================================================== *)

Module regex.

(** The pieces the two patterns are made of: a literal character, a greedy
    [class+], and a capture group around a greedy [class+]. *)
Inductive atom :=
| Lit (c : ascii)
| Plus (cls : ascii -> bool)
| GroupPlus (cls : ascii -> bool).

Definition literal (s : string) : list atom :=
  map Lit (list_ascii_of_string s).

(** The length of the longest prefix of [s] made of [cls] characters. *)
Fixpoint run_length (cls : ascii -> bool) (s : string) : nat :=
  match s with
  | EmptyString => 0
  | String c rest => if cls c then S (run_length cls rest) else 0
  end.

(** A backtracking match of the pattern at the start of [s]: the number of
    characters matched and the captured groups. A [class+] first takes the
    longest run and gives characters back one at a time. *)
Fixpoint match_here (p : list atom) (s : string) : option (nat * list string) :=
  match p with
  | [] => Some (0, [])
  | Lit c :: p' =>
      match s with
      | String d rest =>
          if Ascii.eqb c d then
            match match_here p' rest with
            | Some (n, groups) => Some (S n, groups)
            | None => None
            end
          else None
      | EmptyString => None
      end
  | Plus cls :: p' =>
      (fix try (k : nat) : option (nat * list string) :=
         match k with
         | 0 => None
         | S k' =>
             match match_here p' (utils.drop k s) with
             | Some (n, groups) => Some (k + n, groups)
             | None => try k'
             end
         end) (run_length cls s)
  | GroupPlus cls :: p' =>
      (fix try (k : nat) : option (nat * list string) :=
         match k with
         | 0 => None
         | S k' =>
             match match_here p' (utils.drop k s) with
             | Some (n, groups) =>
                 Some (k + n, String.substring 0 k s :: groups)
             | None => try k'
             end
         end) (run_length cls s)
  end.

(** [std::regex_search(s, match, re)]: the leftmost match; the result is
    the sequence of sub-matches ([match[0]] is the whole match, the groups
    follow), [None] when the search fails. *)
Fixpoint regex_search (p : list atom) (s : string) : option (list string) :=
  match match_here p s with
  | Some (n, groups) => Some (String.substring 0 n s :: groups)
  | None =>
      match s with
      | EmptyString => None
      | String _ rest => regex_search p rest
      end
  end.

Definition in_range (lo hi : nat) (c : ascii) : bool :=
  let n := nat_of_ascii c in ((lo <=? n) && (n <=? hi))%nat.

(** [[a-zA-Z0-9_-]]. *)
Definition branch_class (c : ascii) : bool :=
  in_range 97 122 c || in_range 65 90 c || in_range 48 57 c ||
  Ascii.eqb c "_"%char || Ascii.eqb c "-"%char.

(** [[a-z]]. *)
Definition lower_class (c : ascii) : bool := in_range 97 122 c.

(** [\s]: space, and the control characters 9..13. *)
Definition space_class (c : ascii) : bool :=
  Ascii.eqb c " "%char || in_range 9 13 c.

(** ["git push --set-upstream origin ([a-zA-Z0-9_-]+)"]. *)
Definition branch_regex : list atom :=
  (literal "git push --set-upstream origin " ++ [GroupPlus branch_class])%list.

(** ["The most similar command is\\s+([a-z]+)"]. *)
Definition did_you_mean : list atom :=
  (literal "The most similar command is"
     ++ [Plus space_class; GroupPlus lower_class])%list.

End regex.

(* ===================================================================== *)
(** * Rule *)
(* ===================================================================== *)

(** The interface [class Rule]; [S] is the state its methods run over. *)
Record Rule (S : Type) := mkRule {
  get_name : string;
  match_ : Command -> M S bool;
  get_new_command : Command -> M S (list string);
  get_priority : Z;
  is_enabled_by_default : bool;
  requires_output : bool
}.
Arguments mkRule {S}.
Arguments get_name {S}.
Arguments match_ {S}.
Arguments get_new_command {S}.
Arguments get_priority {S}.
Arguments is_enabled_by_default {S}.
Arguments requires_output {S}.

(** The macro [RULE_CLASS(name)]: a rule with the defaults of the base
    class (priority 1000, enabled, no output required). *)
Definition RULE_CLASS {S : Type} (name : string)
  (m : Command -> M S bool) (g : Command -> M S (list string)) : Rule S :=
  mkRule name m g 1000%Z true false.

(** [fixed += " " + parts[i]] for [i] from [from] to the last part. *)
Definition append_parts (fixed : string) (parts : list string) (from : nat)
  : string :=
  fold_left (fun acc part => acc ++ " " ++ part) (skipn from parts) fixed.

(** A [std::map<std::string, std::string>] built from an initializer list
    with distinct keys; [map_find] gives [count] (is it [Some]) and
    [operator[]] (the value) on a present key. *)
Fixpoint map_find (m : list (string * string)) (key : string) : option string :=
  match m with
  | [] => None
  | (k, v) :: rest => if String.eqb k key then Some v else map_find rest key
  end.

Definition map_count (m : list (string * string)) (key : string) : bool :=
  match map_find m key with
  | Some _ => true
  | None => false
  end.

(** [vec.empty()]. *)
Definition vempty {A : Type} (v : list A) : bool :=
  match v with
  | [] => true
  | _ :: _ => false
  end.

(* ===================================================================== *)
(** * The rule catalogue *)
(* ===================================================================== *)

(** The state the built-in rules run over, and the types of their two
    methods. *)
Definition State : Type := fuzzy.CommandCache.
Definition Pred : Type := Command -> M State bool.
Definition Correction : Type := Command -> M State (list string).

Section Rules.

Context {sort_impl : StdSort}.
Variable w : World.

Import utils.

Definition SudoRule_match : Pred := fun cmd =>
  let lower := to_lower (output cmd) in
  ret (contains lower "permission denied" ||
       contains lower "Permission denied" ||
       contains lower "EACCES" ||
       contains (output cmd) "unless you are root").
Definition SudoRule_get_new_command : Correction := fun cmd =>
  ret ["sudo " ++ script cmd].
Definition SudoRule : Rule State :=
  RULE_CLASS "SudoRule" SudoRule_match SudoRule_get_new_command.

Definition GitPushRule_match : Pred := fun cmd =>
  ret (starts_with (script cmd) "git push" &&
       contains (output cmd) "has no upstream branch").
Definition GitPushRule_get_new_command : Correction := fun cmd =>
  match regex.regex_search regex.branch_regex (output cmd) with
  | Some m =>
      if (1 <? List.length m)%nat
      then ret ["git push --set-upstream origin " ++ nth 1 m ""]
      else ret ["git push --set-upstream origin master"]
  | None => ret ["git push --set-upstream origin master"]
  end.
Definition GitPushRule : Rule State :=
  RULE_CLASS "GitPushRule" GitPushRule_match GitPushRule_get_new_command.

Definition NoCommandRule_match : Pred := fun cmd =>
  ret (contains (output cmd) "command not found" ||
       contains (output cmd) "No command").
Definition NoCommandRule_typos : list (string * string) :=
  [("puthon", "python"); ("pytohn", "python"); ("gti", "git");
   ("vom", "vim"); ("claer", "clear"); ("cd..", "cd ..");
   ("sl", "ls"); ("grpe", "grep"); ("pyton", "python")].
Definition NoCommandRule_get_new_command : Correction := fun cmd =>
  check negb (vempty (script_parts cmd)) orelse [script cmd] ;;
  p0 <- lift (vector_at (script_parts cmd) 0) ;;
  match map_find NoCommandRule_typos p0 with
  | Some fixed => ret [append_parts fixed (script_parts cmd) 1]
  | None => ret [script cmd]
  end.
Definition NoCommandRule : Rule State :=
  RULE_CLASS "NoCommandRule"
    NoCommandRule_match
    NoCommandRule_get_new_command.

Definition GitNotCommandRule_match : Pred := fun cmd =>
  ret (starts_with (script cmd) "git" &&
       contains (output cmd) "is not a git command").
Definition GitNotCommandRule_get_new_command : Correction := fun cmd =>
  match regex.regex_search regex.did_you_mean (output cmd) with
  | Some m =>
      if (1 <? List.length m)%nat
      then ret [append_parts ("git " ++ nth 1 m "") (script_parts cmd) 2]
      else ret [script cmd]
  | None => ret [script cmd]
  end.
Definition GitNotCommandRule : Rule State :=
  RULE_CLASS "GitNotCommandRule"
    GitNotCommandRule_match
    GitNotCommandRule_get_new_command.

Definition GitNotRepositoryRule_match : Pred := fun cmd =>
  ret (starts_with (script cmd) "git" &&
       contains (output cmd)
         "fatal: not a git repository (or any of the parent directories):").
Definition GitNotRepositoryRule_get_new_command : Correction := fun cmd =>
  ret ["git create"].
Definition GitNotRepositoryRule : Rule State :=
  RULE_CLASS "GitNotRepositoryRule"
    GitNotRepositoryRule_match
    GitNotRepositoryRule_get_new_command.

Definition CdMkdirRule_match : Pred := fun cmd =>
  ret (starts_with (script cmd) "cd " &&
       (contains (output cmd) "No such file or directory" ||
        contains (output cmd) "cannot access")).
Definition CdMkdirRule_get_new_command : Correction := fun cmd =>
  check (2 <=? List.length (script_parts cmd))%nat orelse [script cmd] ;;
  p1 <- lift (vector_at (script_parts cmd) 1) ;;
  ret ["mkdir -p " ++ p1 ++ " && cd " ++ p1].
Definition CdMkdirRule : Rule State :=
  RULE_CLASS "CdMkdirRule" CdMkdirRule_match CdMkdirRule_get_new_command.

Definition CdParentRule_match : Pred := fun cmd =>
  ret (String.eqb (script cmd) "cd..").
Definition CdParentRule_get_new_command : Correction := fun cmd =>
  ret ["cd .."].
Definition CdParentRule : Rule State :=
  RULE_CLASS "CdParentRule" CdParentRule_match CdParentRule_get_new_command.

Definition CdCsRule_match : Pred := fun cmd =>
  ret (starts_with (script cmd) "cs ").
Definition CdCsRule_get_new_command : Correction := fun cmd =>
  rest <- lift (substr (script cmd) 3) ;;
  ret ["cd " ++ rest].
Definition CdCsRule : Rule State :=
  RULE_CLASS "CdCsRule" CdCsRule_match CdCsRule_get_new_command.

Definition CatDirRule_match : Pred := fun cmd =>
  ret (starts_with (script cmd) "cat " &&
       (contains (output cmd) "Is a directory" ||
        contains (output cmd) "is a directory")).
Definition CatDirRule_get_new_command : Correction := fun cmd =>
  rest <- lift (substr (script cmd) 4) ;;
  ret ["ls " ++ rest].
Definition CatDirRule : Rule State :=
  RULE_CLASS "CatDirRule" CatDirRule_match CatDirRule_get_new_command.

Definition ChmodXRule_match : Pred := fun cmd =>
  check contains (output cmd) "Permission denied" orelse false ;;
  check (1 <=? List.length (script_parts cmd))%nat orelse false ;;
  p0 <- lift (vector_at (script_parts cmd) 0) ;;
  c0 <- lift (string_at p0 0) ;;
  check Ascii.eqb c0 "."%char orelse false ;;
  p0' <- lift (vector_at (script_parts cmd) 0) ;;
  c1 <- lift (string_at p0' 1) ;;
  ret (Ascii.eqb c1 "/"%char).
Definition ChmodXRule_get_new_command : Correction := fun cmd =>
  p0 <- lift (vector_at (script_parts cmd) 0) ;;
  ret ["chmod +x " ++ p0 ++ " && " ++ script cmd].
Definition ChmodXRule : Rule State :=
  RULE_CLASS "ChmodXRule" ChmodXRule_match ChmodXRule_get_new_command.

Definition CpOmittingDirectoryRule_match : Pred := fun cmd =>
  ret (starts_with (script cmd) "cp " &&
       contains (output cmd) "omitting directory").
Definition CpOmittingDirectoryRule_get_new_command : Correction := fun cmd =>
  rest <- lift (substr (script cmd) 3) ;;
  ret ["cp -r " ++ rest].
Definition CpOmittingDirectoryRule : Rule State :=
  RULE_CLASS "CpOmittingDirectoryRule"
    CpOmittingDirectoryRule_match
    CpOmittingDirectoryRule_get_new_command.

Definition DryRule_match : Pred := fun cmd =>
  if (List.length (script_parts cmd) <? 2)%nat then ret false
  else
    p0 <- lift (vector_at (script_parts cmd) 0) ;;
    p1 <- lift (vector_at (script_parts cmd) 1) ;;
    ret (String.eqb p0 p1).
Definition DryRule_get_new_command : Correction := fun cmd =>
  p0 <- lift (vector_at (script_parts cmd) 0) ;;
  ret [append_parts p0 (script_parts cmd) 2].
Definition DryRule : Rule State :=
  RULE_CLASS "DryRule" DryRule_match DryRule_get_new_command.

Definition GitAddRule_match : Pred := fun cmd =>
  ret (starts_with (script cmd) "git add" &&
       contains (output cmd) "did not match any file").
Definition GitAddRule_get_new_command : Correction := fun cmd =>
  ret ["git add -A"].
Definition GitAddRule : Rule State :=
  RULE_CLASS "GitAddRule" GitAddRule_match GitAddRule_get_new_command.

Definition GitAddForceRule_match : Pred := fun cmd =>
  ret (starts_with (script cmd) "git add" &&
       (contains (output cmd) ".gitignore" ||
        contains (output cmd) "ignored")).
Definition GitAddForceRule_get_new_command : Correction := fun cmd =>
  ret [script cmd ++ " --force"].
Definition GitAddForceRule : Rule State :=
  RULE_CLASS "GitAddForceRule"
    GitAddForceRule_match
    GitAddForceRule_get_new_command.

Definition GitBranchDeleteRule_match : Pred := fun cmd =>
  ret (contains (script cmd) "git branch -d" &&
       contains (output cmd) "not fully merged").
(** With [find] returning [npos], [substr(0, npos)] is the whole script and
    [npos + 2] wraps around to 1. *)
Definition GitBranchDeleteRule_get_new_command : Correction := fun cmd =>
  match find (script cmd) "-d" with
  | Some pos =>
      before <- lift (substr_n (script cmd) 0 pos) ;;
      after <- lift (substr (script cmd) (pos + 2)) ;;
      ret [before ++ "-D" ++ after]
  | None =>
      after <- lift (substr (script cmd) 1) ;;
      ret [script cmd ++ "-D" ++ after]
  end.
Definition GitBranchDeleteRule : Rule State :=
  RULE_CLASS "GitBranchDeleteRule"
    GitBranchDeleteRule_match
    GitBranchDeleteRule_get_new_command.

Definition GitCommitAddRule_match : Pred := fun cmd =>
  ret (starts_with (script cmd) "git commit" &&
       contains (output cmd) "no changes added to commit").
Definition GitCommitAddRule_get_new_command : Correction := fun cmd =>
  base <- lift (substr_n (script cmd) 0 10) ;;
  rest <- (if (10 <? String.length (script cmd))%nat
           then lift (substr (script cmd) 10) else ret "") ;;
  ret ["git commit -a" ++ rest; "git commit -p" ++ rest].
Definition GitCommitAddRule : Rule State :=
  RULE_CLASS "GitCommitAddRule"
    GitCommitAddRule_match
    GitCommitAddRule_get_new_command.

Definition GitCommitAmendRule_match : Pred := fun cmd =>
  ret (starts_with (script cmd) "git commit" &&
       negb (contains (script cmd) "--amend")).
Definition GitCommitAmendRule_get_new_command : Correction := fun cmd =>
  ret [script cmd ++ " --amend"].
Definition GitCommitAmendRule : Rule State :=
  RULE_CLASS "GitCommitAmendRule"
    GitCommitAmendRule_match
    GitCommitAmendRule_get_new_command.

Definition GitPullRule_match : Pred := fun cmd =>
  ret (starts_with (script cmd) "git pull" &&
       contains (output cmd) "no tracking information").
Definition GitPullRule_get_new_command : Correction := fun cmd =>
  ret ["git branch --set-upstream-to=origin/master master && git pull"].
Definition GitPullRule : Rule State :=
  RULE_CLASS "GitPullRule" GitPullRule_match GitPullRule_get_new_command.

Definition GitTwoDashesRule_match : Pred := fun cmd =>
  ret (starts_with (script cmd) "git " &&
       (contains (script cmd) " -amend" ||
        contains (script cmd) " -continue" ||
        contains (script cmd) " -abort")).
Definition GitTwoDashesRule_get_new_command : Correction := fun cmd =>
  let fixed := script cmd in
  match find fixed " -amend" with
  | Some pos => r <- lift (replace fixed pos 7 " --amend") ;; ret [r]
  | None =>
      match find fixed " -continue" with
      | Some pos => r <- lift (replace fixed pos 10 " --continue") ;; ret [r]
      | None =>
          match find fixed " -abort" with
          | Some pos => r <- lift (replace fixed pos 7 " --abort") ;; ret [r]
          | None => ret [fixed]
          end
      end
  end.
Definition GitTwoDashesRule : Rule State :=
  RULE_CLASS "GitTwoDashesRule"
    GitTwoDashesRule_match
    GitTwoDashesRule_get_new_command.

Definition GrepRecursiveRule_match : Pred := fun cmd =>
  ret (starts_with (script cmd) "grep " &&
       contains (output cmd) "Is a directory").
Definition GrepRecursiveRule_get_new_command : Correction := fun cmd =>
  rest <- lift (substr (script cmd) 5) ;;
  ret ["grep -r " ++ rest].
Definition GrepRecursiveRule : Rule State :=
  RULE_CLASS "GrepRecursiveRule"
    GrepRecursiveRule_match
    GrepRecursiveRule_get_new_command.

Definition HasExistsScriptRule_match : Pred := fun cmd =>
  check contains (output cmd) "command not found" orelse false ;;
  check negb (vempty (script_parts cmd)) orelse false ;;
  p0 <- lift (vector_at (script_parts cmd) 0) ;;
  ret (file_exists w p0).
Definition HasExistsScriptRule_get_new_command : Correction := fun cmd =>
  ret ["./" ++ script cmd].
Definition HasExistsScriptRule : Rule State :=
  RULE_CLASS "HasExistsScriptRule"
    HasExistsScriptRule_match
    HasExistsScriptRule_get_new_command.

Definition LsAllRule_match : Pred := fun cmd =>
  ret (String.eqb (script cmd) "ls" && empty (output cmd)).
Definition LsAllRule_get_new_command : Correction := fun cmd => ret ["ls -A"].
Definition LsAllRule : Rule State :=
  RULE_CLASS "LsAllRule" LsAllRule_match LsAllRule_get_new_command.

Definition LsLahRule_match : Pred := fun cmd =>
  ret (String.eqb (script cmd) "ls" && negb (empty (output cmd))).
Definition LsLahRule_get_new_command : Correction := fun cmd => ret ["ls -lah"].
Definition LsLahRule : Rule State :=
  RULE_CLASS "LsLahRule" LsLahRule_match LsLahRule_get_new_command.

Definition MkdirPRule_match : Pred := fun cmd =>
  ret (starts_with (script cmd) "mkdir " &&
       contains (output cmd) "No such file or directory").
Definition MkdirPRule_get_new_command : Correction := fun cmd =>
  rest <- lift (substr (script cmd) 6) ;;
  ret ["mkdir -p " ++ rest].
Definition MkdirPRule : Rule State :=
  RULE_CLASS "MkdirPRule" MkdirPRule_match MkdirPRule_get_new_command.

Definition RmDirRule_match : Pred := fun cmd =>
  ret (starts_with (script cmd) "rm " &&
       (contains (output cmd) "is a directory" ||
        contains (output cmd) "Is a directory")).
Definition RmDirRule_get_new_command : Correction := fun cmd =>
  rest <- lift (substr (script cmd) 3) ;;
  ret ["rm -rf " ++ rest].
Definition RmDirRule : Rule State :=
  RULE_CLASS "RmDirRule" RmDirRule_match RmDirRule_get_new_command.

Definition SlLsRule_match : Pred := fun cmd =>
  ret (String.eqb (script cmd) "sl" || starts_with (script cmd) "sl ").
Definition SlLsRule_get_new_command : Correction := fun cmd =>
  rest <- lift (substr (script cmd) 2) ;;
  ret ["ls" ++ rest].
Definition SlLsRule : Rule State :=
  RULE_CLASS "SlLsRule" SlLsRule_match SlLsRule_get_new_command.

Definition PythonCommandRule_match : Pred := fun cmd =>
  check contains (output cmd) "Permission denied" orelse false ;;
  check negb (vempty (script_parts cmd)) orelse false ;;
  p0 <- lift (vector_at (script_parts cmd) 0) ;;
  ret (ends_with p0 ".py").
Definition PythonCommandRule_get_new_command : Correction := fun cmd =>
  ret ["python " ++ script cmd].
Definition PythonCommandRule : Rule State :=
  RULE_CLASS "PythonCommandRule"
    PythonCommandRule_match
    PythonCommandRule_get_new_command.

Definition PythonExecuteRule_match : Pred := fun cmd =>
  ret (starts_with (script cmd) "python " &&
       contains (output cmd) "No such file" &&
       negb (ends_with (script cmd) ".py")).
Definition PythonExecuteRule_get_new_command : Correction := fun cmd =>
  ret [script cmd ++ ".py"].
Definition PythonExecuteRule : Rule State :=
  RULE_CLASS "PythonExecuteRule"
    PythonExecuteRule_match
    PythonExecuteRule_get_new_command.

Definition JavaRule_match : Pred := fun cmd =>
  check starts_with (script cmd) "java " orelse false ;;
  last <- lift (vector_back (script_parts cmd)) ;;
  ret (ends_with last ".java").
(** [fixed.length() - 5] is a [size_t]: below 5 it wraps around to a count
    larger than the string, and [substr(0, count)] is then the whole
    string. *)
Definition JavaRule_get_new_command : Correction := fun cmd =>
  let fixed := script cmd in
  fixed' <- (if (5 <=? String.length fixed)%nat
             then lift (substr_n fixed 0 (String.length fixed - 5))
             else lift (substr_n fixed 0 (String.length fixed))) ;;
  ret [fixed'].
Definition JavaRule : Rule State :=
  RULE_CLASS "JavaRule" JavaRule_match JavaRule_get_new_command.

Definition JavacRule_match : Pred := fun cmd =>
  ret (starts_with (script cmd) "javac " &&
       contains (output cmd) "No such file" &&
       negb (ends_with (script cmd) ".java")).
Definition JavacRule_get_new_command : Correction := fun cmd =>
  ret [script cmd ++ ".java"].
Definition JavacRule : Rule State :=
  RULE_CLASS "JavacRule" JavacRule_match JavacRule_get_new_command.

Definition GoRunRule_match : Pred := fun cmd =>
  ret (starts_with (script cmd) "go run " &&
       negb (ends_with (script cmd) ".go")).
Definition GoRunRule_get_new_command : Correction := fun cmd =>
  ret [script cmd ++ ".go"].
Definition GoRunRule : Rule State :=
  RULE_CLASS "GoRunRule" GoRunRule_match GoRunRule_get_new_command.

Definition CargoRule_match : Pred := fun cmd =>
  ret (String.eqb (script cmd) "cargo").
Definition CargoRule_get_new_command : Correction := fun cmd =>
  ret ["cargo build"].
Definition CargoRule : Rule State :=
  RULE_CLASS "CargoRule" CargoRule_match CargoRule_get_new_command.

(** The shape shared by the docker, npm and pip rules: the second token is
    looked up in a table of known slips. *)
Definition second_token_fix (tool : string) (table : list (string * string))
  : Correction := fun cmd =>
  check (1 <? List.length (script_parts cmd))%nat orelse [script cmd] ;;
  p1 <- lift (vector_at (script_parts cmd) 1) ;;
  match map_find table p1 with
  | Some fixed => ret [tool ++ fixed]
  | None => ret [script cmd]
  end.

Definition DockerNotCommandRule_match : Pred := fun cmd =>
  ret (starts_with (script cmd) "docker " &&
       contains (output cmd) "is not a docker command").
Definition DockerNotCommandRule_get_new_command : Correction :=
  second_token_fix "docker " [("tags", "images"); ("tag", "image")].
Definition DockerNotCommandRule : Rule State :=
  RULE_CLASS "DockerNotCommandRule"
    DockerNotCommandRule_match
    DockerNotCommandRule_get_new_command.

Definition NpmWrongCommandRule_match : Pred := fun cmd =>
  ret (starts_with (script cmd) "npm " &&
       contains (output cmd) "Unknown command").
Definition NpmWrongCommandRule_get_new_command : Correction :=
  second_token_fix "npm "
    [("urgrade", "upgrade"); ("isntall", "install");
     ("instal", "install"); ("intsall", "install")].
Definition NpmWrongCommandRule : Rule State :=
  RULE_CLASS "NpmWrongCommandRule"
    NpmWrongCommandRule_match
    NpmWrongCommandRule_get_new_command.

Definition PipUnknownCommandRule_match : Pred := fun cmd =>
  ret (starts_with (script cmd) "pip " &&
       contains (output cmd) "unknown command").
Definition PipUnknownCommandRule_get_new_command : Correction :=
  second_token_fix "pip "
    [("instatl", "install"); ("instal", "install");
     ("isntall", "install"); ("unisntall", "uninstall")].
Definition PipUnknownCommandRule : Rule State :=
  RULE_CLASS "PipUnknownCommandRule"
    PipUnknownCommandRule_match
    PipUnknownCommandRule_get_new_command.

Definition GitCloneGitCloneRule_match : Pred := fun cmd =>
  ret (starts_with (script cmd) "git clone git clone").
Definition GitCloneGitCloneRule_get_new_command : Correction := fun cmd =>
  rest <- lift (substr (script cmd) 10) ;;
  ret [rest].
Definition GitCloneGitCloneRule : Rule State :=
  RULE_CLASS "GitCloneGitCloneRule"
    GitCloneGitCloneRule_match
    GitCloneGitCloneRule_get_new_command.

Definition WrongHyphenBeforeSubcommandRule_match : Pred := fun cmd =>
  check contains (output cmd) "command not found" orelse false ;;
  check (0 <? List.length (script_parts cmd))%nat orelse false ;;
  p0 <- lift (vector_at (script_parts cmd) 0) ;;
  ret (contains p0 "-").
Definition WrongHyphenBeforeSubcommandRule_get_new_command : Correction :=
  fun cmd =>
  let fixed := script cmd in
  match find_char fixed "-"%char with
  | Some pos => r <- lift (replace fixed pos 1 " ") ;; ret [r]
  | None => ret [fixed]
  end.
Definition WrongHyphenBeforeSubcommandRule : Rule State :=
  RULE_CLASS "WrongHyphenBeforeSubcommandRule"
    WrongHyphenBeforeSubcommandRule_match
    WrongHyphenBeforeSubcommandRule_get_new_command.

Definition MissingSpaceBeforeSubcommandRule_match : Pred := fun cmd =>
  ret (contains (output cmd) "command not found" &&
       (starts_with (script cmd) "npm" ||
        starts_with (script cmd) "git" ||
        starts_with (script cmd) "apt")).
Definition MissingSpaceBeforeSubcommandRule_get_new_command : Correction :=
  fun cmd =>
  if starts_with (script cmd) "npminstall" then
    rest <- lift (substr (script cmd) 10) ;; ret ["npm install" ++ rest]
  else if starts_with (script cmd) "gitcommit" then
    rest <- lift (substr (script cmd) 9) ;; ret ["git commit" ++ rest]
  else if starts_with (script cmd) "aptinstall" then
    rest <- lift (substr (script cmd) 10) ;; ret ["apt install" ++ rest]
  else ret [script cmd].
Definition MissingSpaceBeforeSubcommandRule : Rule State :=
  RULE_CLASS "MissingSpaceBeforeSubcommandRule"
    MissingSpaceBeforeSubcommandRule_match
    MissingSpaceBeforeSubcommandRule_get_new_command.

Definition RemoveShellPromptLiteralRule_match : Pred := fun cmd =>
  ret (starts_with (script cmd) "$ ").
Definition RemoveShellPromptLiteralRule_get_new_command : Correction :=
  fun cmd =>
  rest <- lift (substr (script cmd) 2) ;;
  ret [rest].
Definition RemoveShellPromptLiteralRule : Rule State :=
  RULE_CLASS "RemoveShellPromptLiteralRule"
    RemoveShellPromptLiteralRule_match
    RemoveShellPromptLiteralRule_get_new_command.

Definition TouchRule_match : Pred := fun cmd =>
  ret (starts_with (script cmd) "touch " &&
       contains (output cmd) "No such file or directory").
Definition TouchRule_get_new_command : Correction := fun cmd =>
  path <- lift (substr (script cmd) 6) ;;
  match rfind_char path "/"%char with
  | Some last_slash =>
      dir <- lift (substr_n path 0 last_slash) ;;
      ret ["mkdir -p " ++ dir ++ " && touch " ++ path]
  | None => ret [script cmd]
  end.
Definition TouchRule : Rule State :=
  RULE_CLASS "TouchRule" TouchRule_match TouchRule_get_new_command.

Definition UnsudoRule_match : Pred := fun cmd =>
  ret (starts_with (script cmd) "sudo " &&
       (contains (output cmd) "must not be run as root" ||
        contains (output cmd) "don't run this as root")).
Definition UnsudoRule_get_new_command : Correction := fun cmd =>
  rest <- lift (substr (script cmd) 5) ;;
  ret [rest].
Definition UnsudoRule : Rule State :=
  RULE_CLASS "UnsudoRule" UnsudoRule_match UnsudoRule_get_new_command.

Definition LnSOrderRule_match : Pred := fun cmd =>
  ret (starts_with (script cmd) "ln -s" &&
       contains (output cmd) "No such file or directory").
Definition LnSOrderRule_get_new_command : Correction := fun cmd =>
  check (4 <=? List.length (script_parts cmd))%nat orelse [script cmd] ;;
  p3 <- lift (vector_at (script_parts cmd) 3) ;;
  p2 <- lift (vector_at (script_parts cmd) 2) ;;
  ret ["ln -s " ++ p3 ++ " " ++ p2].
Definition LnSOrderRule : Rule State :=
  RULE_CLASS "LnSOrderRule" LnSOrderRule_match LnSOrderRule_get_new_command.

Definition Cpp11Rule_match : Pred := fun cmd =>
  ret ((starts_with (script cmd) "g++ " ||
        starts_with (script cmd) "clang++ ") &&
       negb (contains (script cmd) "-std=") &&
       (contains (output cmd) "C++11" || contains (output cmd) "c++11")).
Definition Cpp11Rule_get_new_command : Correction := fun cmd =>
  ret [script cmd ++ " -std=c++11"].
Definition Cpp11Rule : Rule State :=
  RULE_CLASS "Cpp11Rule" Cpp11Rule_match Cpp11Rule_get_new_command.

Definition GitMainMasterRule_match : Pred := fun cmd =>
  ret ((contains (script cmd) "master" &&
        contains (output cmd) "did you mean 'main'") ||
       (contains (script cmd) "main" &&
        contains (output cmd) "did you mean 'master'")).
(** [replace(npos, ...)] throws [std::out_of_range]. *)
Definition GitMainMasterRule_get_new_command : Correction := fun cmd =>
  let fixed := script cmd in
  if contains (script cmd) "master" then
    pos <- lift (find fixed "master") ;;
    r <- lift (replace fixed pos 6 "main") ;;
    ret [r]
  else
    pos <- lift (find fixed "main") ;;
    r <- lift (replace fixed pos 4 "master") ;;
    ret [r].
Definition GitMainMasterRule : Rule State :=
  RULE_CLASS "GitMainMasterRule"
    GitMainMasterRule_match
    GitMainMasterRule_get_new_command.

(** The fuzzy rule; its predicate looks for names within the default
    distance, its correction for names within distance 3. *)
Definition FuzzyCommandRule_match : Pred := fun cmd =>
  check contains (output cmd) "command not found" orelse false ;;
  check negb (vempty (script_parts cmd)) orelse false ;;
  p0 <- lift (vector_at (script_parts cmd) 0) ;;
  matches <- fuzzy.find_similar_commands w p0 fuzzy.default_max_distance ;;
  ret (negb (vempty matches)).
Definition FuzzyCommandRule_get_new_command : Correction := fun cmd =>
  check negb (vempty (script_parts cmd)) orelse [] ;;
  p0 <- lift (vector_at (script_parts cmd) 0) ;;
  matches <- fuzzy.find_similar_commands w p0 3%Z ;;
  ret (map (fun m => append_parts (fuzzy.command m) (script_parts cmd) 1)
           (firstn 3 matches)).
Definition FuzzyCommandRule : Rule State :=
  RULE_CLASS "FuzzyCommandRule"
    FuzzyCommandRule_match
    FuzzyCommandRule_get_new_command.

(** The rules in the order in which the constructor of [RuleManager]
    registers them. [GitNotRepositoryRule] is declared but not registered. *)
Definition registered_rules : list (Rule State) :=
  [ SudoRule; FuzzyCommandRule; GitPushRule; NoCommandRule;
    GitNotCommandRule; CdMkdirRule; CdParentRule; CdCsRule; CatDirRule;
    ChmodXRule; CpOmittingDirectoryRule; DryRule; GitAddRule;
    GitAddForceRule; GitBranchDeleteRule; GitCommitAddRule;
    GitCommitAmendRule; GitPullRule; GitTwoDashesRule; GrepRecursiveRule;
    HasExistsScriptRule; LsAllRule; LsLahRule; MkdirPRule; RmDirRule;
    SlLsRule; PythonCommandRule; PythonExecuteRule; JavaRule; JavacRule;
    GoRunRule; CargoRule; DockerNotCommandRule; NpmWrongCommandRule;
    PipUnknownCommandRule; GitCloneGitCloneRule;
    WrongHyphenBeforeSubcommandRule; MissingSpaceBeforeSubcommandRule;
    RemoveShellPromptLiteralRule; TouchRule; UnsudoRule; LnSOrderRule;
    Cpp11Rule; GitMainMasterRule ].

(** Every rule class of the program. *)
Definition declared_rules : list (Rule State) :=
  GitNotRepositoryRule :: registered_rules.

End Rules.

(* ===================================================================== *)
(** * RuleManager *)
(* ===================================================================== *)

Record RuleManager (S : Type) := mkRuleManager {
  rules : list (Rule S)
}.
Arguments mkRuleManager {S}.
Arguments rules {S}.

(** The comparison given to [std::sort] by the constructor. *)
Definition priority_less {S : Type} (a b : Rule S) : bool :=
  (get_priority a <? get_priority b)%Z.

(** [RuleManager::RuleManager]: register, then [std::sort] by priority. *)
Definition RuleManager_ctor {sort_impl : StdSort} (w : World)
  : RuleManager State :=
  mkRuleManager (std_sort priority_less (registered_rules w)).

(** The loop of [RuleManager::get_corrected_commands]. *)
Fixpoint first_match {S : Type} (rs : list (Rule S)) (cmd : Command)
  : M S (list string) :=
  match rs with
  | [] => ret []
  | rule :: rest =>
      matched <- match_ rule cmd ;;
      if matched then get_new_command rule cmd else first_match rest cmd
  end.

(** [RuleManager::get_corrected_commands]. *)
Definition get_corrected_commands {S : Type} (manager : RuleManager S)
  (cmd : Command) : M S (list string) :=
  first_match (rules manager) cmd.

(** An observer of the calls of [get_new_command]: the rule [counting r]
    behaves as [r] on the first component of the state and counts the
    calls of its correction function in the second. *)
Definition counting {S : Type} (r : Rule S) : Rule (S * nat) :=
  mkRule (get_name r)
    (fun cmd st =>
       match match_ r cmd (fst st) with
       | Some (b, s') => Some (b, (s', snd st))
       | None => None
       end)
    (fun cmd st =>
       match get_new_command r cmd (fst st) with
       | Some (l, s') => Some (l, (s', Datatypes.S (snd st)))
       | None => None
       end)
    (get_priority r) (is_enabled_by_default r) (requires_output r).

Definition counting_manager {S : Type} (m : RuleManager S)
  : RuleManager (S * nat) :=
  mkRuleManager (map counting (rules m)).

(* ===================================================================== *)
(** * The callers of the engine: history, subprocesses, [main] *)
(* ===================================================================== *)

(** What the process observes beyond the [World] of the engine. A command
    run by [popen] or [system] may change the file system and the outcome
    of the commands after it: the observations that can change are indexed
    by the number of calls of [popen] and [system] made before them. The
    environment variables are those of the process itself, which the
    program never sets. *)
Record Host := mkHost {
  getenv : string -> option string;            (* std::getenv *)
  sys_ifstream : string -> option string;
    (* the contents of a file opened for reading; None: cannot be opened *)
  world_at : nat -> World;
  sys_popen : nat -> string -> option string;
    (* the bytes the child writes to the pipe; None: popen fails *)
  sys_system : nat -> string -> Z              (* the value of system() *)
}.

(** [s.c_str()] read as a C string: the characters before the first null
    character. *)
Fixpoint c_str (s : string) : string :=
  match s with
  | EmptyString => EmptyString
  | String c rest =>
      if Ascii.eqb c Ascii.zero then EmptyString else String c (c_str rest)
  end.

(** [fgets(buffer, count + 1, pipe)] on the unread bytes of the pipe: at
    most [count] bytes, up to and including the first newline; the bytes
    stored and the bytes left unread. *)
Fixpoint fgets_extract (count : nat) (stream : string) : string * string :=
  match count, stream with
  | 0, _ => (EmptyString, stream)
  | _, EmptyString => (EmptyString, EmptyString)
  | S k, String c rest =>
      if Ascii.eqb c "010"%char then (String c EmptyString, rest)
      else let pr := fgets_extract k rest in (String c (fst pr), snd pr)
  end.

(** The loop [while (fgets(buffer, sizeof(buffer), pipe) != nullptr)
    result += buffer;] for a buffer of [k + 2] bytes: [fgets] stores at
    most [k + 1] bytes and a null character, it returns a null pointer when
    the end of the pipe is met before any byte, and [result += buffer]
    appends the buffer as a C string. *)
Equations? read_pipe (k : nat) (stream result : string) : string
  by wf (String.length stream) lt :=
  read_pipe k EmptyString result := result;
  read_pipe k (String c rest) result :=
    read_pipe k (snd (fgets_extract (S k) (String c rest)))
      (result ++ c_str (fst (fgets_extract (S k) (String c rest)))).
Proof.
  clear. revert c k. induction rest as [|d rest IH]; intros c k; cbn.
  - destruct (Ascii.eqb c "010"); [cbn; lia|].
    destruct k; cbn; lia.
  - destruct (Ascii.eqb c "010"); [cbn; lia|].
    destruct k as [|k]; [cbn; lia|].
    specialize (IH d k). cbn in IH. cbn. lia.
Qed.

(** [execute_command(cmd)], called after [time] calls of [popen] and
    [system]. *)
Definition execute_command (host : Host) (time : nat) (cmd : string)
  : string :=
  match sys_popen host time (c_str (cmd ++ " 2>&1")) with
  | None => EmptyString
  | Some stream => read_pipe 254 stream EmptyString   (* char buffer[256] *)
  end.

(** The set [" \t\n\r"] of the trimming. *)
Definition blanks : string :=
  String " " (String "009" (String "010" (String "013" EmptyString))).

(** Is [c] one of the characters of [set]. *)
Fixpoint char_in (c : ascii) (set : string) : bool :=
  match set with
  | EmptyString => false
  | String d rest => Ascii.eqb c d || char_in c rest
  end.

(** [s.find_first_not_of(set)]. *)
Fixpoint find_first_not_of (s set : string) : option nat :=
  match s with
  | EmptyString => None
  | String c rest =>
      if char_in c set then option_map S (find_first_not_of rest set)
      else Some 0
  end.

(** [s.find_last_not_of(set)]. *)
Fixpoint find_last_not_of (s set : string) : option nat :=
  match s with
  | EmptyString => None
  | String c rest =>
      match find_last_not_of rest set with
      | Some k => Some (S k)
      | None => if char_in c set then None else Some 0
      end
  end.

(** A position as a [size_t]: [npos] is the greatest value. *)
Definition size_t_of (pos : option nat) : Z :=
  match pos with
  | Some k => Z.of_nat k
  | None => (2 ^ 64 - 1)%Z
  end.

(** The body of the loop of [get_last_command] over the lines of the
    history file; the state is [last_line], [None] once an exception has
    been thrown. [end - start + 1] is computed on [size_t]. *)
Definition history_line (is_zsh : bool) (last_line : option string)
  (line : string) : option string :=
  match last_line with
  | None => None
  | Some last =>
      if utils.empty line then Some last
      else
        match (if is_zsh then
                 match utils.rfind_char line ";"%char with
                 | Some semicolon_pos => utils.substr line (semicolon_pos + 1)
                 | None => Some line
                 end
               else Some line) with
        | None => None
        | Some cmd =>
            let start := find_first_not_of cmd blanks in
            let end_ := find_last_not_of cmd blanks in
            match start with
            | Some st =>
                let count :=
                  ((size_t_of end_ - Z.of_nat st + 1) mod 2 ^ 64)%Z in
                match utils.substr_n cmd st (Z.to_nat count) with
                | None => None
                | Some cmd' =>
                    if negb (utils.empty cmd') &&
                       negb (utils.contains cmd' "shit") &&
                       negb (utils.contains cmd' "nano")
                    then Some cmd'
                    else Some last
                end
            | None => Some last
            end
        end
  end.

(** [is_zsh] of [get_last_command]. *)
Definition is_zsh (host : Host) : bool :=
  match getenv host "SHELL" with
  | Some shell => utils.contains shell "zsh"
  | None => false
  end.

(** [get_last_command]; [None] stands for an uncaught exception. *)
Definition get_last_command (host : Host) : option string :=
  match getenv host "HOME" with
  | None => Some EmptyString
  | Some home =>
      let histfile :=
        if is_zsh host then home ++ "/.zsh_history"
        else home ++ "/.bash_history" in
      match sys_ifstream host histfile with
      | None => Some EmptyString
      | Some contents =>
          utils.while_getline (history_line (is_zsh host)) contents
            "010"%char (Some EmptyString)
      end
  end.

(** [class Settings]. *)
Record Settings := mkSettings {
  require_confirmation : bool;
  no_colors : bool;
  debug : bool;
  alter_history : bool;
  wait_command : Z;
  history_limit : Z;
  num_close_matches : Z
}.

(** One of the three settings read by [Settings::load_from_env]: the
    default when the variable is not set, else whether its value is
    [true]. *)
Definition env_flag (host : Host) (name : string) (default : bool) : bool :=
  match getenv host name with
  | Some value => String.eqb value "true"
  | None => default
  end.

(** [Settings::instance()]: the defaults, then [load_from_env]. *)
Definition Settings_instance (host : Host) : Settings :=
  mkSettings
    (env_flag host "THESHIT_REQUIRE_CONFIRMATION" true)
    (env_flag host "THESHIT_NO_COLORS" false)
    (env_flag host "THESHIT_DEBUG" false)
    true 3%Z 9999%Z 3%Z.

(** What [main] does to the outside, in order: text written to
    [std::cout], a character awaited from [std::cin], and the calls of
    [popen] and of [system], each with the number of such calls made
    before it and the command line it is given. *)
Inductive event :=
| Stdout (text : string)
| Stdin_get
| Popen (time : nat) (command : string)
| System (time : nat) (command : string).

(** The outcome of the loop over [argv]. *)
Inductive arguments :=
| Run (yes_mode recursive : bool)
| Exit0 (text : string).

Definition newline : string := String "010"%char EmptyString.

(** The loop over [argv[1..]]. *)
Fixpoint parse_args (args : list string) (yes_mode recursive : bool)
  : arguments :=
  match args with
  | [] => Run yes_mode recursive
  | arg :: rest =>
      if String.eqb arg "--yeah" || String.eqb arg "-y" ||
         String.eqb arg "--hard"
      then parse_args rest true recursive
      else if String.eqb arg "-r" then parse_args rest yes_mode true
      else if String.eqb arg "--alias"
      then Exit0 ("alias shit='eval $(theshit $(fc -ln -1))'" ++ newline)
      else if String.eqb arg "--version"
      then Exit0 ("The Shit v1.0.0 (C++ Edition)" ++ newline)
      else parse_args rest yes_mode recursive
  end.

(** [max_attempts]. *)
Definition max_attempts (recursive : bool) : nat :=
  if recursive then 10 else 1.

(** The escape character of the colour sequences. *)
Definition ESC : string := String "027"%char EmptyString.

(** [" [enter/↑/↓/ctrl+c]\n"]; the two arrows are three bytes each in the
    source file. *)
Definition confirmation_prompt : string :=
  " [enter/"
  ++ String "226"%char (String "134"%char (String "145"%char EmptyString))
  ++ "/"
  ++ String "226"%char (String "134"%char (String "147"%char EmptyString))
  ++ "/ctrl+c]" ++ newline.

(** What one turn of the loop writes before it runs the correction. *)
Definition announce (settings : Settings) (yes_mode : bool)
  (correction : string) : list event :=
  Stdout (if negb (no_colors settings)
          then ESC ++ "[1;32m" ++ correction ++ ESC ++ "[0m"
          else correction)
  :: (if negb yes_mode && require_confirmation settings
      then [Stdout confirmation_prompt; Stdin_get]
      else [Stdout newline]).

(** The loop [while (attempts < max_attempts)] of [main]; [remaining] is
    [max_attempts - attempts]. The state is the command, the command cache
    of the process, the number of calls of [popen] and [system] so far,
    and the events so far. [None] stands for an uncaught exception. *)
Fixpoint retry_loop {sort_impl : StdSort} (host : Host) (settings : Settings)
  (yes_mode recursive : bool) (remaining attempts : nat) (cmd : Command)
  (cache : fuzzy.CommandCache) (time : nat) (trace : list event)
  : option (list event) :=
  match remaining with
  | 0 => Some trace
  | S remaining' =>
      let manager := RuleManager_ctor (world_at host time) in
      match get_corrected_commands manager cmd cache with
      | None => None
      | Some (corrections, cache') =>
          if vempty corrections then
            Some (if (attempts =? 0)%nat
                  then (trace ++ [Stdout ("No shit to fix!" ++ newline)])%list
                  else trace)
          else
            match utils.vector_at corrections 0 with
            | None => None
            | Some correction =>
                let trace :=
                  (trace ++ announce settings yes_mode correction
                         ++ [System time (c_str correction)])%list in
                let result := sys_system host time (c_str correction) in
                if (result =? 0)%Z || negb recursive then Some trace
                else
                  let output := execute_command host (S time) correction in
                  retry_loop host settings yes_mode recursive remaining'
                    (S attempts) (Command_ctor correction output) cache'
                    (S (S time))
                    (trace ++ [Popen (S time)
                                 (c_str (correction ++ " 2>&1")%string)])%list
            end
      end
  end.

(** [main]: the exit status and the events, [None] for an uncaught
    exception. *)
Definition main {sort_impl : StdSort} (host : Host) (argv : list string)
  : option (Z * list event) :=
  match parse_args (tl argv) false false with
  | Exit0 text => Some (0%Z, [Stdout text])
  | Run yes_mode recursive =>
      match get_last_command host with
      | None => None
      | Some last_cmd =>
          if utils.empty last_cmd then Some (1%Z, [])
          else
            let output := execute_command host 0 last_cmd in
            match retry_loop host (Settings_instance host) yes_mode recursive
                    (max_attempts recursive) 0
                    (Command_ctor last_cmd output) fuzzy.fresh_cache 1
                    [Popen 0 (c_str (last_cmd ++ " 2>&1"))] with
            | None => None
            | Some trace => Some (0%Z, trace)
            end
      end
  end.


(* ===================================================================== *)
(** * The specification's reading of tokenization *)
(* ===================================================================== *)

Module spec.

(** The fragments between separators, empty ones included: one more
    fragment than there are separators. *)
Fixpoint fragments (sep : ascii -> bool) (s : string) : list string :=
  match s with
  | EmptyString => [EmptyString]
  | String c rest =>
      if sep c then EmptyString :: fragments sep rest
      else match fragments sep rest with
           | f :: fs => String c f :: fs
           | [] => [String c EmptyString]
           end
  end.

(** "Split with empty fragments removed, order preserved". *)
Definition split_on (sep : ascii -> bool) (s : string) : list string :=
  filter (fun f => negb (utils.empty f)) (fragments sep s).

(** White space: the space and the control characters 9..13 ([isspace]). *)
Definition is_whitespace (c : ascii) : bool :=
  Ascii.eqb c " "%char ||
  let n := nat_of_ascii c in ((9 <=? n) && (n <=? 13))%nat.

(** The tokens as the specification words them: the whitespace-split of
    the script with empty fragments removed. *)
Definition whitespace_split (s : string) : list string :=
  split_on is_whitespace s.

(** The split on the space character alone. *)
Definition space_split (s : string) : list string :=
  split_on (fun c => Ascii.eqb c " "%char) s.

End spec.

(* ===================================================================== *)
(** * Notions used to state the properties *)
(* ===================================================================== *)

(** [defined m s]: the computation [m] run from [s] yields a result. *)
Definition defined {S A : Type} (m : M S A) (s : S) : Prop :=
  exists a s', m s = Some (a, s').


Section DispatchSpec.

Context {S : Type}.

(** [all_miss cmd rs s s']: run in turn from the state [s], the predicate
    of every rule of [rs] answers [false], and the state is [s'] at the
    end. *)
Inductive all_miss (cmd : Command) : list (Rule S) -> S -> S -> Prop :=
| all_miss_nil (s : S) : all_miss cmd [] s s
| all_miss_cons (r : Rule S) (rs : list (Rule S)) (s s' s'' : S) :
    match_ r cmd s = Some (false, s') ->
    all_miss cmd rs s' s'' ->
    all_miss cmd (r :: rs) s s''.

(** The outcome of a scan of [rs]: either a first rule [r] whose predicate
    holds, reached after the rules before it have all missed, or a miss of
    every rule. *)
Inductive scan (cmd : Command) (rs : list (Rule S)) (s : S)
  : option (Rule S) -> S -> Prop :=
| scan_hit (pre post : list (Rule S)) (r : Rule S) (s1 s2 : S) :
    rs = (pre ++ r :: post)%list ->
    all_miss cmd pre s s1 ->
    match_ r cmd s1 = Some (true, s2) ->
    scan cmd rs s (Some r) s2
| scan_none (s' : S) :
    all_miss cmd rs s s' ->
    scan cmd rs s None s'.

(** What the scan hands back: the candidates of the rule that was hit, or
    the empty list; [calls] counts the calls of a correction function. *)
Definition dispatched (cmd : Command) (hit : option (Rule S)) (s : S)
  (result : option (list string * S)) (calls : nat) : Prop :=
  match hit with
  | Some r => result = get_new_command r cmd s /\ calls = 1
  | None => result = Some ([], s) /\ calls = 0
  end.

Definition with_calls (n : nat) (o : option (list string * S))
  : option (list string * (S * nat)) :=
  match o with
  | Some (l, s) => Some (l, (s, n))
  | None => None
  end.

End DispatchSpec.

(** A script with a tab between two words. *)
Definition tabbed_script : string := "a" ++ String "009"%char "b".

(** The output ["readme.md\n"]. *)
Definition readme_output : string := "readme.md" ++ String "010"%char "".


(** The names of the rules in the order of their registration. *)
Definition registration_order : list string :=
  [ "SudoRule"; "FuzzyCommandRule"; "GitPushRule"; "NoCommandRule";
    "GitNotCommandRule"; "CdMkdirRule"; "CdParentRule"; "CdCsRule";
    "CatDirRule"; "ChmodXRule"; "CpOmittingDirectoryRule"; "DryRule";
    "GitAddRule"; "GitAddForceRule"; "GitBranchDeleteRule";
    "GitCommitAddRule"; "GitCommitAmendRule"; "GitPullRule";
    "GitTwoDashesRule"; "GrepRecursiveRule"; "HasExistsScriptRule";
    "LsAllRule"; "LsLahRule"; "MkdirPRule"; "RmDirRule"; "SlLsRule";
    "PythonCommandRule"; "PythonExecuteRule"; "JavaRule"; "JavacRule";
    "GoRunRule"; "CargoRule"; "DockerNotCommandRule"; "NpmWrongCommandRule";
    "PipUnknownCommandRule"; "GitCloneGitCloneRule";
    "WrongHyphenBeforeSubcommandRule"; "MissingSpaceBeforeSubcommandRule";
    "RemoveShellPromptLiteralRule"; "TouchRule"; "UnsudoRule";
    "LnSOrderRule"; "Cpp11Rule"; "GitMainMasterRule" ].

(** What the [std::sort] of GNU libstdc++ makes of the 44 registered
    rules: the partitions of its introsort swap rules of equal priority,
    and [SudoRule] ends up in the 34th place. *)
Definition libstdcxx_order : list string :=
  [ "NpmWrongCommandRule"; "MkdirPRule"; "RmDirRule"; "SlLsRule";
    "PythonCommandRule"; "PythonExecuteRule"; "JavaRule"; "JavacRule";
    "GoRunRule"; "CargoRule"; "DockerNotCommandRule"; "LsLahRule";
    "PipUnknownCommandRule"; "GitCloneGitCloneRule";
    "WrongHyphenBeforeSubcommandRule"; "MissingSpaceBeforeSubcommandRule";
    "RemoveShellPromptLiteralRule"; "TouchRule"; "UnsudoRule";
    "LnSOrderRule"; "Cpp11Rule"; "GitMainMasterRule"; "DryRule";
    "FuzzyCommandRule"; "GitPushRule"; "NoCommandRule"; "GitNotCommandRule";
    "CdMkdirRule"; "CdParentRule"; "CdCsRule"; "CatDirRule"; "ChmodXRule";
    "CpOmittingDirectoryRule"; "SudoRule"; "GitAddRule"; "GitAddForceRule";
    "GitBranchDeleteRule"; "GitCommitAddRule"; "GitCommitAmendRule";
    "GitPullRule"; "GitTwoDashesRule"; "GrepRecursiveRule";
    "HasExistsScriptRule"; "LsAllRule" ].

(** An output that reports the error code alone. *)
Definition eacces_output : string := "Error: EACCES, open '/etc/hosts'".


(** The test [std::regex_search(...) && match.size() > 1] and the group it
    gives access to. *)
Definition captured (re : list regex.atom) (text : string) : option string :=
  match regex.regex_search re text with
  | Some m => if (1 <? List.length m)%nat then Some (nth 1 m "") else None
  | None => None
  end.

Definition push_without_hint : Command :=
  Command_ctor "git push"
    "fatal: The current branch dev has no upstream branch.".

Definition unknown_subcommand : Command :=
  Command_ctor "git sttaus" "git: 'sttaus' is not a git command.".


(** The value [levenshtein_distance s1 s2] gives to the cell [(i, j)] of
    its table, by recursion on the row and, inside a row, on the column. *)
Fixpoint cell (s1 s2 : string) (i : nat) : nat -> Z :=
  match i with
  | 0 => fun j => fuzzy.to_int j
  | S i' =>
      fix row (j : nat) : Z :=
        match j with
        | 0 => fuzzy.to_int (S i')
        | S j' =>
            if Ascii.eqb (fuzzy.char_at s1 i') (fuzzy.char_at s2 j')
            then cell s1 s2 i' j'
            else Z.add 1 (fuzzy.min3 (cell s1 s2 i' (S j')) (row j')
                                     (cell s1 s2 i' j'))
        end
  end.

(** [agrees s1 s2 dp P]: the table [dp] holds the right value in every cell
    of the region [P]. *)
Definition agrees (s1 s2 : string) (dp : fuzzy.table)
  (P : nat -> nat -> Prop) : Prop :=
  forall i j, P i j -> dp i j = cell s1 s2 i j.

(** The cells that are final, in a table of [len1 + 1] rows and [len2 + 1]
    columns, once the rows below [i] are filled and the row [i] is filled
    up to the column [a], excluded. *)
Definition filled (len1 len2 : nat) (i a : nat) (i' j' : nat) : Prop :=
  (i' < i /\ j' <= len2) \/ (j' = 0 /\ i' <= len1) \/ (i' = i /\ j' < a).

(** The names collected so far are distinct and all recorded in [seen]. *)
Definition scan_invariant (acc : list string * list string) : Prop :=
  NoDup (fst acc) /\ forall name, In name (fst acc) -> In name (snd acc).

(** The executable index as a lookup sees it: the cached names, or, at the
    first lookup of the process, the names found on the search path. *)
Definition index_of (w : World) (cache : State) : list string :=
  if fuzzy.initialized cache then fuzzy.cached_commands cache
  else fuzzy.get_system_commands w.

(** The cache after a lookup. *)
Definition loaded (w : World) (cache : State) : State :=
  if fuzzy.initialized cache then cache
  else fuzzy.mkCommandCache (fuzzy.get_system_commands w) true.

(** The indexed names within distance [d] of [input], with their
    distances, in the enumeration order of the index. *)
Definition within (d : Z) (input : string) (index : list string)
  : list fuzzy.CommandMatch :=
  map (fun name =>
         fuzzy.mkCommandMatch name (fuzzy.levenshtein_distance input name))
      (filter (fun name => (fuzzy.levenshtein_distance input name <=? d)%Z)
              index).

(** "The fuzzy rule matches exactly when the output contains
    [command not found], there is a first token, and some indexed name is
    within distance [d] of it." *)
Definition fuzzy_match_iff (d : Z) {sort_impl : StdSort} (w : World)
  (cmd : Command) (cache : State) : Prop :=
  (exists cache', FuzzyCommandRule_match w cmd cache = Some (true, cache'))
  <->
  (utils.contains (output cmd) "command not found" = true /\
   exists first,
     hd_error (script_parts cmd) = Some first /\
     exists name,
       In name (index_of w cache) /\
       (fuzzy.levenshtein_distance first name <= d)%Z).

(** A search path with the one directory [/usr/bin], which holds the
    executable files named in [names]. *)
Definition bin_world (names : list string) : World :=
  mkWorld (Some "/usr/bin")
    (fun path =>
       if String.eqb path "/usr/bin" then Some (mkStat true true)
       else if existsb (fun n => String.eqb path ("/usr/bin/" ++ n)) names
            then Some (mkStat false true)
            else None)
    (fun path =>
       if String.eqb path "/usr/bin"
       then Some (map (fun n => mkDirent n DT_REG) names)
       else None).

(** Seventeen names at distance 1 of [a]. *)
Definition seventeen_names : list string :=
  ["b"; "c"; "d"; "e"; "f"; "g"; "h"; "i"; "j"; "k"; "l"; "m"; "n"; "o";
   "p"; "q"; "r"].

(** The index [lighter], [git] and the failed command [light]. *)
Definition light_world : World := bin_world ["lighter"; "git"].

Definition light_command : Command :=
  Command_ctor "light" "light: command not found".

(** The candidates as the specification words them: the indexed names
    within distance 3 of the first token, in ascending order of distance
    with ties in the enumeration order of the index (a stable sort on the
    distance alone), at most 3 of them, each followed by the remaining
    tokens, joined by single spaces. *)
Definition spec_suggestions (index : list string) (parts : list string)
  : list string :=
  match parts with
  | [] => []
  | first :: rest =>
      map (fun m => String.concat " " (fuzzy.command m :: rest))
          (firstn 3
             (insertion_sort fuzzy.compare_matches (within 3 first index)))
  end.

(** "For every matched command, the correction returns the candidates
    as the specification words them." *)
Definition fuzzy_candidates_as_specified {sort_impl : StdSort} (w : World)
  (cmd : Command) (cache : State) : Prop :=
  forall cache1,
    FuzzyCommandRule_match w cmd cache = Some (true, cache1) ->
    option_map fst (FuzzyCommandRule_get_new_command w cmd cache1)
    = Some (spec_suggestions (index_of w cache) (script_parts cmd)).

(* ===================================================================== *)
(** * Notions for the further properties *)
(* ===================================================================== *)

(** No character of [s] is [ch]. *)
Definition free_of (ch : ascii) (s : string) : Prop :=
  utils.find_char s ch = None.

(** The lengths an [int] holds without wrap-around. *)
Definition fits_int (n : nat) : Prop := (Z.of_nat n < 2 ^ 31)%Z.

(** The strings a loop [while (std::getline(iss, part, delim))] reads, in
    order. *)
Definition getline_parts (iss : string) (delim : ascii) : list string :=
  utils.while_getline (fun acc part => (acc ++ [part])%list) iss delim [].

(** The tests an entry of the directory [path] passes to be taken into the
    index: its name does not begin with a dot, its type is one of
    [DT_REG], [DT_LNK], [DT_UNKNOWN], and [stat] of [path/name] succeeds
    with the owner-execute bit set. *)
Definition listed (w : World) (path : string) (entry : dirent) : bool :=
  negb (Ascii.eqb (fuzzy.char_at (d_name entry) 0) "."%char) &&
  match d_type entry with
  | DT_REG | DT_LNK | DT_UNKNOWN => true
  | _ => false
  end &&
  match sys_stat w (path ++ "/" ++ d_name entry) with
  | Some st => S_IXUSR st
  | None => false
  end.

(** [name] is the name of a listed entry of a directory of the search
    path [path_str]. *)
Definition on_search_path (w : World) (path_str : string) (name : string)
  : Prop :=
  exists path entries entry,
    In path (getline_parts path_str ":"%char) /\
    utils.is_directory w path = true /\
    sys_opendir w path = Some entries /\
    In entry entries /\
    d_name entry = name /\
    listed w path entry = true.

(** [seen] and [commands] hold the same names. *)
Definition seen_agrees (acc : list string * list string) : Prop :=
  forall name, In name (snd acc) <-> In name (fst acc).

(** [answers_nonempty cmd r]: whenever the predicate of [r] holds of [cmd],
    a candidate list that its correction returns is not empty. *)
Definition answers_nonempty {S : Type} (cmd : Command) (r : Rule S) : Prop :=
  forall c c' l c'',
    match_ r cmd c = Some (true, c') ->
    get_new_command r cmd c' = Some (l, c'') ->
    l <> [].


(** The rules that rewrite the beginning of the script: the rule, the
    prefix it takes off the script, and what it puts in its place. *)
Definition prefix_rules : list (Rule State * string * string) :=
  [ (CdCsRule, "cs ", "cd ");
    (CatDirRule, "cat ", "ls ");
    (CpOmittingDirectoryRule, "cp ", "cp -r ");
    (GrepRecursiveRule, "grep ", "grep -r ");
    (MkdirPRule, "mkdir ", "mkdir -p ");
    (RmDirRule, "rm ", "rm -rf ");
    (SlLsRule, "sl", "ls");
    (GitCloneGitCloneRule, "git clone ", "");
    (RemoveShellPromptLiteralRule, "$ ", "");
    (UnsudoRule, "sudo ", "") ].

(** [rewrites_prefix r p q]: whenever [r] matches, the script is [p]
    followed by some [rest], and the one candidate is [q] followed by the
    same [rest]. *)
Definition rewrites_prefix (entry : Rule State * string * string) : Prop :=
  let '(r, p, q) := entry in
  forall cmd c c',
    match_ r cmd c = Some (true, c') ->
    exists rest,
      script cmd = p ++ rest /\
      get_new_command r cmd c' = Some ([q ++ rest], c').

(** A token as [utils::split] on a space produces them: not empty, and
    without a space. *)
Definition token (t : string) : Prop := t <> "" /\ free_of " "%char t.

(** [first_occurrence sub s pre post]: [s] is [pre], then [sub], then
    [post], and [sub] occurs nowhere further to the left. *)
Definition first_occurrence (sub s pre post : string) : Prop :=
  s = pre ++ sub ++ post /\
  forall pre' post',
    s = pre' ++ sub ++ post' -> String.length pre <= String.length pre'.

(** Every character of [s] is in the class [cls]. *)
Fixpoint all_chars (cls : ascii -> bool) (s : string) : bool :=
  match s with
  | EmptyString => true
  | String c rest => cls c && all_chars cls rest
  end.

(** The rules whose candidate they do not match themselves. *)
Definition settled_rules : list (Rule State) :=
  [ GitCommitAmendRule; PythonExecuteRule; JavacRule; GoRunRule; Cpp11Rule;
    LsAllRule; LsLahRule; CargoRule; CdParentRule ].

(** [settles r]: the rule [r] answers [false] on a [Command] constructed
    from one of its own candidates, whatever the output. *)
Definition settles (r : Rule State) : Prop :=
  forall cmd c l c' fixed o c0,
    get_new_command r cmd c = Some (l, c') ->
    In fixed l ->
    match_ r (Command_ctor fixed o) c0 = Some (false, c0).

(** What [get_last_command] lets through: the empty string, or a command
    that holds neither [shit] nor [nano], and no semicolon when the history
    is read as that of zsh. *)
Definition admissible (zsh : bool) (r : string) : Prop :=
  r = EmptyString \/
  (utils.contains r "shit" = false /\
   utils.contains r "nano" = false /\
   (zsh = true -> free_of ";"%char r)).

(** The sizes a [size_t] holds. *)
Definition fits_size_t (n : nat) : Prop := (Z.of_nat n < 2 ^ 64)%Z.

(** The files of the host have sizes that a [size_t] holds. *)
Definition files_fit (host : Host) : Prop :=
  forall path contents,
    sys_ifstream host path = Some contents ->
    fits_size_t (String.length contents).

(** [trimmed r]: [r] is empty, or its first and its last character are
    not characters of [blanks]. *)
Definition trimmed (r : string) : Prop :=
  r = EmptyString \/
  (find_first_not_of r blanks = Some 0 /\
   find_last_not_of r blanks = Some (String.length r - 1)).

(** The commands handed to [system], in order. *)
Fixpoint systems (trace : list event) : list string :=
  match trace with
  | [] => []
  | System _ command :: rest => command :: systems rest
  | _ :: rest => systems rest
  end.

(** Every command of [trace] given to [system] returned a status other
    than 0. *)
Definition all_failed (host : Host) (trace : list event) : Prop :=
  forall t command,
    In (System t command) trace -> sys_system host t command <> 0%Z.

(* ===================================================================== *)
(** * A host for the examples *)
(* ===================================================================== *)

(** A host for the examples: a bash user whose last command was the
    mistyped [gti status]; [/usr/bin] holds [git]; the first child process
    reports the unknown command, the later ones a missing repository;
    every command given to [system] fails with the status 128. *)
Definition example_host : Host :=
  mkHost
    (fun name =>
       if String.eqb name "HOME" then Some "/home/user"
       else if String.eqb name "SHELL" then Some "/bin/bash"
       else None)
    (fun path =>
       if String.eqb path "/home/user/.bash_history"
       then Some ("ls" ++ newline ++ "gti status" ++ newline)
       else None)
    (fun _ => bin_world ["git"])
    (fun time _ =>
       if (time =? 0)%nat then Some ("gti: command not found" ++ newline)
       else Some ("fatal: not a git repository" ++ newline))
    (fun _ _ => 128%Z).

(** What [main] does on [example_host] with the argument [-r], before and
    after its one call of [system]. *)
Definition example_trace_before : list event :=
  [ Popen 0 "gti status 2>&1";
    Stdout (ESC ++ "[1;32m" ++ "git status" ++ ESC ++ "[0m");
    Stdout confirmation_prompt;
    Stdin_get ].

Definition example_trace_after : list event :=
  [ Popen 2 "git status 2>&1" ].


(* ===================================================================== *)
(** * Conforming implementations of [std::sort] *)
(* ===================================================================== *)

Lemma insert_sorted_permutation {A : Type} (comp : A -> A -> bool) x l :
  Permutation (x :: l) (insert_sorted comp x l).
Proof.
  induction l as [|y rest IH]; simpl; [reflexivity|].
  destruct (comp y x); [|reflexivity].
  rewrite perm_swap. apply perm_skip, IH.
Qed.

Lemma insertion_sort_permutation {A : Type} (comp : A -> A -> bool) l :
  Permutation l (insertion_sort comp l).
Proof.
  induction l as [|x rest IH]; simpl; [constructor|].
  rewrite <- insert_sorted_permutation. apply perm_skip, IH.
Qed.

Lemma insert_sorted_sorted {A : Type} (comp : A -> A -> bool) x l :
  strict_weak_order comp -> sorted_by comp l ->
  sorted_by comp (insert_sorted comp x l).
Proof.
  intros (Hirr & Htr & Hneg) Hs. unfold sorted_by in *.
  induction Hs as [|y rest Hs IH Hy]; simpl.
  - repeat constructor.
  - destruct (comp y x) eqn:Hyx.
    + constructor; [exact IH|].
      rewrite <- (insert_sorted_permutation comp x rest).
      constructor; [|exact Hy].
      destruct (comp x y) eqn:Hxy; [|reflexivity].
      rewrite <- (Hirr y). symmetry. now apply (Htr y x y).
    + constructor; [constructor; assumption|].
      constructor; [exact Hyx|].
      rewrite Forall_forall in *. intros z Hz.
      apply (Hneg z y x); [apply Hy, Hz | exact Hyx].
Qed.

Lemma insertion_sort_sorted {A : Type} (comp : A -> A -> bool) l :
  strict_weak_order comp -> sorted_by comp (insertion_sort comp l).
Proof.
  intros Hc. induction l as [|x rest IH]; simpl; [constructor|].
  now apply insert_sorted_sorted.
Qed.

(** Insertion sort is a conforming [std::sort] (and a stable one). *)
Definition stable_std_sort : StdSort.
Proof.
  refine {| std_sort := @insertion_sort |}.
  - intros A comp l _. apply insertion_sort_permutation.
  - intros A comp l Hc. now apply insertion_sort_sorted.
Defined.

(** So is the sort that leaves equivalent elements in reverse order. *)
Definition reversing_std_sort : StdSort.
Proof.
  refine {| std_sort := @reversing_sort |}.
  - intros A comp l _. unfold reversing_sort.
    rewrite <- insertion_sort_permutation. apply Permutation_rev.
  - intros A comp l Hc. now apply insertion_sort_sorted.
Defined.


Lemma deref_positions {A : Type} (pre v : list A) :
  deref (pre ++ v) (seq (List.length pre) (List.length v)) = v.
Proof.
  revert pre. induction v as [|x v IH]; intros pre; [reflexivity|].
  cbn [List.length seq deref flat_map].
  rewrite nth_error_app2, Nat.sub_diag by lia. cbn [nth_error app].
  f_equal.
  specialize (IH (pre ++ [x])%list).
  rewrite <- app_assoc, length_app in IH. cbn [List.length app] in IH.
  rewrite Nat.add_1_r in IH. exact IH.
Qed.

Lemma covers_permutation (n : nat) (handles : list nat) :
  covers n handles = true -> Permutation (seq 0 n) handles.
Proof.
  unfold covers. intros H. apply andb_prop in H. destruct H as [Hlen Hall].
  apply Nat.eqb_eq in Hlen.
  apply NoDup_Permutation_bis.
  - apply seq_NoDup.
  - rewrite length_seq. lia.
  - intros i Hi. rewrite forallb_forall in Hall.
    specialize (Hall i Hi). apply existsb_exists in Hall.
    destruct Hall as (j & Hj & Hij). apply Nat.eqb_eq in Hij. now subst.
Qed.

Lemma sorted_b_sorted_by {A : Type} (comp : A -> A -> bool) (l : list A) :
  sorted_b comp l = true -> sorted_by comp l.
Proof.
  unfold sorted_by. induction l as [|x rest IH]; intros H; [constructor|].
  cbn [sorted_b] in H. apply andb_prop in H. destruct H as [Hx Hrest].
  constructor; [now apply IH|].
  rewrite forallb_forall in Hx. apply Forall_forall. intros y Hy.
  specialize (Hx y Hy). now apply negb_true_iff in Hx.
Qed.

(** [gnu_sort] is a conforming [std::sort]. *)
Definition gnu_std_sort : StdSort.
Proof.
  refine {| std_sort := @gnu_sort |}.
  - intros A comp l Hc. unfold gnu_sort.
    destruct (libstdcxx.sort _ _) as [handles|];
      [|apply insertion_sort_permutation].
    destruct (covers _ handles) eqn:Hcov; cbn [andb];
      [|apply insertion_sort_permutation].
    destruct (sorted_b comp (deref l handles));
      [|apply insertion_sort_permutation].
    rewrite <- (deref_positions [] l) at 1. cbn [app List.length].
    unfold deref. apply Permutation_flat_map.
    now apply covers_permutation.
  - intros A comp l Hc. unfold gnu_sort.
    destruct (libstdcxx.sort _ _) as [handles|];
      [|now apply insertion_sort_sorted].
    destruct (covers _ handles); cbn [andb];
      [|now apply insertion_sort_sorted].
    destruct (sorted_b comp (deref l handles)) eqn:Hs;
      [|now apply insertion_sort_sorted].
    now apply sorted_b_sorted_by.
Defined.

(* ===================================================================== *)
(** * Facts about strings and tokenization *)
(* ===================================================================== *)

Section StringFacts.

Import utils.

Lemma getline_extract_shorter (c : ascii) (rest : string) (delim : ascii) :
  String.length (snd (getline_extract (String c rest) delim))
  < String.length (String c rest).
Proof.
  revert c. induction rest as [|d rest IH]; intros c; simpl.
  - destruct (Ascii.eqb c delim); simpl; lia.
  - destruct (Ascii.eqb c delim); simpl; [lia|].
    specialize (IH d). simpl in IH. lia.
Qed.

Lemma find_eq (str sub : string) :
  find str sub
  = if String.prefix sub str then Some 0
    else match str with
         | EmptyString => None
         | String _ rest => option_map S (find rest sub)
         end.
Proof. destruct str; reflexivity. Qed.

Lemma find_zero_prefix (str sub : string) :
  find str sub = Some 0 <-> String.prefix sub str = true.
Proof.
  rewrite find_eq. destruct (String.prefix sub str).
  - split; reflexivity.
  - split; [|discriminate].
    destruct str as [|c rest]; [discriminate|].
    destruct (find rest sub); discriminate.
Qed.

Lemma starts_with_prefix (str p : string) :
  starts_with str p = true <-> String.prefix p str = true.
Proof.
  rewrite <- find_zero_prefix. unfold starts_with.
  destruct (find str p) as [[|k]|]; split; congruence.
Qed.

Lemma prefix_append (p str : string) :
  String.prefix p str = true -> exists rest, str = p ++ rest.
Proof.
  revert str. induction p as [|c p IH]; intros str H; simpl in *.
  - now exists str.
  - destruct str as [|d str]; [discriminate|]. simpl in H.
    destruct (Ascii.ascii_dec c d) as [->|]; [|discriminate].
    destruct (IH _ H) as [rest ->]. now exists rest.
Qed.

Lemma starts_with_append (str p : string) :
  starts_with str p = true -> exists rest, str = p ++ rest.
Proof. intros H. now apply prefix_append, starts_with_prefix. Qed.

Lemma append_length (a b : string) :
  String.length (a ++ b) = String.length a + String.length b.
Proof. induction a; simpl; congruence. Qed.

Lemma starts_with_length (str p : string) :
  starts_with str p = true -> String.length p <= String.length str.
Proof.
  intros H. destruct (starts_with_append _ _ H) as [rest ->].
  rewrite append_length. lia.
Qed.

(** One [getline] takes the first fragment; the fragments that follow are,
    empty ones apart, the fragments of what is left in the stream. *)
Lemma fragments_getline (d : ascii) (s : string) :
  exists tl,
    spec.fragments (fun c => Ascii.eqb c d) s
      = fst (getline_extract s d) :: tl /\
    filter (fun f => negb (empty f)) tl
      = spec.split_on (fun c => Ascii.eqb c d) (snd (getline_extract s d)).
Proof.
  induction s as [|c rest IH]; simpl.
  - exists []. split; reflexivity.
  - destruct (Ascii.eqb c d).
    + exists (spec.fragments (fun c0 => Ascii.eqb c0 d) rest).
      split; reflexivity.
    + destruct IH as (tl & -> & Htl). exists tl. simpl. split; [reflexivity|].
      exact Htl.
Qed.

Lemma while_getline_split_on (d : ascii) (s : string) (acc : list string) :
  while_getline push_nonempty s d acc
  = (acc ++ spec.split_on (fun c => Ascii.eqb c d) s)%list.
Proof.
  remember (String.length s) as n eqn:Hn.
  revert s acc Hn.
  induction n as [n IH] using lt_wf_ind; intros s acc Hn.
  destruct s as [|c rest]; simp while_getline.
  - cbn. now rewrite app_nil_r.
  - subst n.
    rewrite (IH _ (getline_extract_shorter c rest d) _ _ eq_refl).
    destruct (fragments_getline d (String c rest)) as (tl & Hf & Htl).
    unfold spec.split_on at 2. rewrite Hf. cbn [filter].
    rewrite <- Htl. unfold push_nonempty.
    destruct (empty (fst (getline_extract (String c rest) d))); cbn.
    + reflexivity.
    + now rewrite <- app_assoc.
Qed.

Lemma split_split_on (d : ascii) (s : string) :
  split s d = spec.split_on (fun c => Ascii.eqb c d) s.
Proof. unfold split. now rewrite while_getline_split_on. Qed.

End StringFacts.

(** The loop of [utils::split] tests [std::getline] at each turn. *)
Lemma while_getline_unfold {A : Type} (body : A -> string -> A)
  (iss : string) (delim : ascii) (acc : A) :
  utils.while_getline body iss delim acc
  = match utils.getline iss delim with
    | None => acc
    | Some (part, rest) => utils.while_getline body rest delim (body acc part)
    end.
Proof.
  destruct iss as [|c rest]; simp while_getline; [reflexivity|].
  unfold utils.getline.
  destruct (utils.getline_extract (String c rest) delim) as [part rest'].
  reflexivity.
Qed.

(* --------------------------------------------------------------------- *)
(** ** C3: tokenization *)
(* --------------------------------------------------------------------- *)

(** C3, as stated, fails: the tokens of a [Command] are not the
    whitespace-split of its script. The script [a<TAB>b] is one token for
    the constructor and two fragments for a split on white space. *)
Lemma tokens_not_whitespace_split :
  script_parts (Command_ctor tabbed_script "") = [tabbed_script] /\
  spec.whitespace_split tabbed_script = ["a"; "b"] /\
  script_parts (Command_ctor tabbed_script "")
    <> spec.whitespace_split tabbed_script.
Proof.
  split; [reflexivity|]. split; [reflexivity|]. discriminate.
Qed.

(** C3, amended: for every script [s] and output [o], the tokens of the
    [Command] built from them are the split of [s] on the space character
    alone, empty fragments removed, order preserved (the script and the
    output are stored as given). *)
Theorem Command_tokens_space_split (s o : string) :
  script_parts (Command_ctor s o) = spec.space_split s /\
  script (Command_ctor s o) = s /\
  output (Command_ctor s o) = o.
Proof.
  split; [|split; reflexivity].
  unfold Command_ctor. cbn [script_parts]. apply split_split_on.
Qed.

(* ===================================================================== *)
(** * The predicates of the rules are total *)
(* ===================================================================== *)

Section Totality.

Context {sort_impl : StdSort}.
Variable w : World.

Lemma defined_ret {S A : Type} (a : A) (s : S) : defined (ret a) s.
Proof. now exists a, s. Qed.

Lemma vector_back_defined {A : Type} (v : list A) :
  v <> [] -> exists x, utils.vector_back v = Some x.
Proof.
  induction v as [|x [|y rest] IH]; intros Hv.
  - contradiction.
  - now exists x.
  - destruct IH as [z Hz]; [discriminate|]. now exists z.
Qed.

Lemma string_at_zero_defined (s : string) :
  exists c, utils.string_at s 0 = Some c.
Proof. destruct s as [|c rest]; [now exists Ascii.zero | now exists c]. Qed.

(** [s[1]] is defined as soon as [s] is not empty: it is the second
    character, or the terminating null character of a one-character
    string. *)
Lemma string_at_one_defined (c : ascii) (rest : string) :
  exists c1, utils.string_at (String c rest) 1 = Some c1.
Proof.
  destruct rest as [|d rest]; [now exists Ascii.zero | now exists d].
Qed.

Lemma ChmodXRule_match_total (cmd : Command) (cache : State) :
  defined (ChmodXRule_match cmd) cache.
Proof.
  unfold ChmodXRule_match.
  destruct (utils.contains (output cmd) "Permission denied");
    [|apply defined_ret].
  destruct (script_parts cmd) as [|p0 ps]; [apply defined_ret|].
  unfold bind, lift, utils.vector_at.
  cbn [List.length Nat.leb nth_error].
  destruct p0 as [|c rest]; [apply defined_ret|].
  cbn [utils.string_at String.get].
  destruct (Ascii.eqb c "."%char); [|apply defined_ret].
  destruct (string_at_one_defined c rest) as [c1 Hc1].
  rewrite Hc1. apply defined_ret.
Qed.

Lemma DryRule_match_total (cmd : Command) (cache : State) :
  defined (DryRule_match cmd) cache.
Proof.
  unfold DryRule_match.
  destruct (script_parts cmd) as [|p0 [|p1 ps]]; cbn; apply defined_ret.
Qed.

Lemma HasExistsScriptRule_match_total (cmd : Command) (cache : State) :
  defined (HasExistsScriptRule_match w cmd) cache.
Proof.
  unfold HasExistsScriptRule_match.
  destruct (utils.contains (output cmd) "command not found");
    [|apply defined_ret].
  destruct (script_parts cmd) as [|p0 ps]; cbn; apply defined_ret.
Qed.

Lemma PythonCommandRule_match_total (cmd : Command) (cache : State) :
  defined (PythonCommandRule_match cmd) cache.
Proof.
  unfold PythonCommandRule_match.
  destruct (utils.contains (output cmd) "Permission denied");
    [|apply defined_ret].
  destruct (script_parts cmd) as [|p0 ps]; cbn -[utils.ends_with];
    apply defined_ret.
Qed.

Lemma WrongHyphenBeforeSubcommandRule_match_total (cmd : Command)
  (cache : State) :
  defined (WrongHyphenBeforeSubcommandRule_match cmd) cache.
Proof.
  unfold WrongHyphenBeforeSubcommandRule_match.
  destruct (utils.contains (output cmd) "command not found");
    [|apply defined_ret].
  destruct (script_parts cmd) as [|p0 ps]; cbn -[utils.contains];
    apply defined_ret.
Qed.

(** A script that starts with ["java "] has at least the token ["java"]. *)
Lemma java_script_has_token (s : string) :
  utils.starts_with s "java " = true -> utils.split s " "%char <> [].
Proof.
  intros H. destruct (starts_with_append _ _ H) as [rest ->].
  rewrite split_split_on. unfold spec.split_on. cbn.
  destruct (spec.fragments _ rest); discriminate.
Qed.

(** [JavaRule::match] reads [script_parts.back()] without a test of its
    own; the test of the script prefix before it keeps the vector from
    being empty, for every [Command] the constructor builds. *)
Lemma JavaRule_match_total (s o : string) (cache : State) :
  defined (JavaRule_match (Command_ctor s o)) cache.
Proof.
  unfold JavaRule_match. cbn [script script_parts Command_ctor].
  destruct (utils.starts_with s "java ") eqn:Hs; [|apply defined_ret].
  destruct (vector_back_defined _ (java_script_has_token s Hs)) as [x Hx].
  unfold bind, lift, defined. rewrite Hx. now eexists; eexists.
Qed.

Lemma find_similar_commands_defined (input : string) (d : Z) (cache : State) :
  defined (fuzzy.find_similar_commands w input d) cache.
Proof.
  unfold fuzzy.find_similar_commands, fuzzy.get_commands, bind, defined.
  destruct (fuzzy.initialized cache); eexists; eexists; reflexivity.
Qed.

Lemma FuzzyCommandRule_match_total (cmd : Command) (cache : State) :
  defined (FuzzyCommandRule_match w cmd) cache.
Proof.
  unfold FuzzyCommandRule_match.
  destruct (utils.contains (output cmd) "command not found");
    [|apply defined_ret].
  destruct (script_parts cmd) as [|p0 ps]; [apply defined_ret|].
  destruct (find_similar_commands_defined p0 fuzzy.default_max_distance cache)
    as (ms & cache' & Hms).
  unfold bind, lift, utils.vector_at, defined. cbn [vempty negb nth_error].
  rewrite Hms. now eexists; eexists.
Qed.

End Totality.

(* --------------------------------------------------------------------- *)
(** ** C7: every predicate is total *)
(* --------------------------------------------------------------------- *)

(** The predicate of every rule class yields a boolean on every command
    the constructor builds. *)
Lemma predicates_total {sort_impl : StdSort} (w : World) (s o : string)
  (cache : State) :
  Forall (fun r => defined (match_ r (Command_ctor s o)) cache)
         (declared_rules w).
Proof.
  unfold declared_rules, registered_rules.
  repeat apply Forall_cons; try apply Forall_nil;
    try (apply defined_ret);
    first [ apply ChmodXRule_match_total
          | apply DryRule_match_total
          | apply HasExistsScriptRule_match_total
          | apply PythonCommandRule_match_total
          | apply WrongHyphenBeforeSubcommandRule_match_total
          | apply JavaRule_match_total
          | apply FuzzyCommandRule_match_total ].
Qed.

(** C7: the [match] predicate of every rule class of the program (the 44
    registered ones and [GitNotRepositoryRule]) yields a boolean on every
    [Command], whatever its script and output, those with no token or an
    empty output included: no index outside a vector or a string, and no
    [back()] of an empty vector, is reached. *)
Theorem match_total {sort_impl : StdSort} (w : World) (s o : string)
  (cache : State) :
  Forall (fun r => defined (match_ r (Command_ctor s o)) cache)
         (declared_rules w).
Proof. apply predicates_total. Qed.

(* ===================================================================== *)
(** * A matching rule always produces its candidates *)
(* ===================================================================== *)

Section StringBounds.

Import utils.

Lemma substr_defined (s : string) (pos : nat) :
  pos <= String.length s -> exists r, substr s pos = Some r.
Proof.
  intros H. unfold substr.
  destruct (Nat.leb_spec pos (String.length s)); [eauto | lia].
Qed.

Lemma replace_defined (s : string) (pos len : nat) (str : string) :
  pos <= String.length s -> exists r, replace s pos len str = Some r.
Proof.
  intros H. unfold replace.
  destruct (Nat.leb_spec pos (String.length s)); [eauto | lia].
Qed.

Lemma prefix_length (p s : string) :
  String.prefix p s = true -> String.length p <= String.length s.
Proof.
  intros H. destruct (prefix_append _ _ H) as [rest ->].
  rewrite append_length. lia.
Qed.

(** A successful [find] leaves room for the whole pattern. *)
Lemma find_bound (s sub : string) (pos : nat) :
  find s sub = Some pos -> pos + String.length sub <= String.length s.
Proof.
  revert pos. induction s as [|c rest IH]; intros pos; rewrite find_eq.
  - destruct (String.prefix sub "") eqn:Hp; [|discriminate].
    intros [= <-]. apply (prefix_length _ _ Hp).
  - destruct (String.prefix sub (String c rest)) eqn:Hp.
    + intros [= <-]. apply (prefix_length _ _ Hp).
    + destruct (find rest sub) as [k|]; [|discriminate].
      intros [= <-]. specialize (IH k eq_refl). simpl. lia.
Qed.

Lemma find_char_bound (s : string) (ch : ascii) (pos : nat) :
  find_char s ch = Some pos -> pos < String.length s.
Proof.
  revert pos. induction s as [|c rest IH]; intros pos; simpl.
  - discriminate.
  - destruct (Ascii.eqb c ch).
    + intros [= <-]. lia.
    + destruct (find_char rest ch) as [k|]; [|discriminate].
      intros [= <-]. specialize (IH k eq_refl). lia.
Qed.

Lemma contains_find (s sub : string) :
  contains s sub = true -> exists pos, find s sub = Some pos.
Proof.
  unfold contains. destruct (find s sub) as [pos|]; [eauto | discriminate].
Qed.

Lemma contains_length (s sub : string) :
  contains s sub = true -> String.length sub <= String.length s.
Proof.
  intros H. destruct (contains_find _ _ H) as [pos Hpos].
  apply find_bound in Hpos. lia.
Qed.

End StringBounds.

Section Corrections.

Context {sort_impl : StdSort}.
Variable w : World.

Import utils.

(** A predicate that returns its answer without a fallible step. *)
Ltac pure_hit H :=
  unfold ret in H; injection H as H _;
  repeat match goal with
         | H : _ && _ = true |- _ => apply andb_prop in H; destruct H
         end.

(** [rest <- lift (substr (script cmd) k) ;; ret ...] under a prefix of
    length [k]. *)
Ltac by_substr Hlen :=
  let r := fresh "r" in
  let Hr := fresh "Hr" in
  match goal with
  | |- context [substr ?s ?k] =>
      destruct (substr_defined s k) as [r Hr];
      [ simpl in Hlen; lia
      | unfold bind, lift, defined; rewrite Hr; now eexists; eexists ]
  end.

Lemma prefixed_correction (prefix : string) (k : nat)
  (f : string -> list string) (cmd : Command) (cache : State) :
  starts_with (script cmd) prefix = true ->
  k <= String.length prefix ->
  defined (rest <- lift (substr (script cmd) k) ;; ret (f rest)) cache.
Proof.
  intros Hp Hk. apply starts_with_length in Hp.
  destruct (substr_defined (script cmd) k) as [r Hr]; [lia|].
  unfold bind, lift, defined. rewrite Hr. now eexists; eexists.
Qed.

Lemma second_token_fix_defined tool table (cmd : Command) (cache : State) :
  defined (second_token_fix tool table cmd) cache.
Proof.
  unfold second_token_fix.
  destruct (script_parts cmd) as [|p0 [|p1 ps]];
    try apply defined_ret.
  unfold bind, lift, vector_at. cbn [List.length Nat.ltb Nat.leb nth_error].
  destruct (map_find table p1); apply defined_ret.
Qed.

Lemma FuzzyCommandRule_get_new_command_defined (cmd : Command) (cache : State) :
  defined (FuzzyCommandRule_get_new_command w cmd) cache.
Proof.
  unfold FuzzyCommandRule_get_new_command.
  destruct (script_parts cmd) as [|p0 ps]; [apply defined_ret|].
  destruct (find_similar_commands_defined w p0 3%Z cache)
    as (ms & cache' & Hms).
  unfold bind, lift, vector_at, defined. cbn [vempty negb nth_error].
  rewrite Hms. now eexists; eexists.
Qed.

Lemma GitBranchDeleteRule_correction (cmd : Command) (c c' : State) :
  GitBranchDeleteRule_match cmd c = Some (true, c') ->
  defined (GitBranchDeleteRule_get_new_command cmd) c'.
Proof.
  intros H. unfold GitBranchDeleteRule_match in H. pure_hit H.
  apply contains_length in H. simpl in H.
  unfold GitBranchDeleteRule_get_new_command.
  destruct (find (script cmd) "-d") as [pos|] eqn:Hf.
  - apply find_bound in Hf. simpl in Hf.
    destruct (substr_defined (script cmd) (pos + 2)) as [r Hr]; [lia|].
    unfold bind, lift, defined, substr_n. rewrite Hr.
    change (0 <=? String.length (script cmd))%nat with true.
    now eexists; eexists.
  - destruct (substr_defined (script cmd) 1) as [r Hr]; [lia|].
    unfold bind, lift, defined. rewrite Hr. now eexists; eexists.
Qed.

Lemma GitCommitAddRule_correction (cmd : Command) (c : State) :
  defined (GitCommitAddRule_get_new_command cmd) c.
Proof.
  unfold GitCommitAddRule_get_new_command, bind, lift, substr_n, defined.
  change (0 <=? String.length (script cmd))%nat with true.
  destruct (Nat.ltb_spec 10 (String.length (script cmd))) as [Hl|Hl].
  - destruct (substr_defined (script cmd) 10) as [r Hr]; [lia|].
    rewrite Hr. now eexists; eexists.
  - now eexists; eexists.
Qed.

Lemma GitTwoDashesRule_correction (cmd : Command) (c : State) :
  defined (GitTwoDashesRule_get_new_command cmd) c.
Proof.
  unfold GitTwoDashesRule_get_new_command.
  repeat match goal with
         | |- context [find ?s ?p] =>
             let Hf := fresh "Hf" in
             let r := fresh "r" in
             let Hr := fresh "Hr" in
             destruct (find s p) as [?pos|] eqn:Hf;
             [ apply find_bound in Hf;
               match goal with
               | |- context [replace ?s' ?q ?n ?t] =>
                   destruct (replace_defined s' q n t) as [r Hr]; [lia|];
                   unfold bind, lift, defined; rewrite Hr;
                   now eexists; eexists
               end
             | ]
         end.
  apply defined_ret.
Qed.

Lemma JavaRule_correction (cmd : Command) (c : State) :
  defined (JavaRule_get_new_command cmd) c.
Proof.
  unfold JavaRule_get_new_command, bind, lift, substr_n, defined.
  destruct (5 <=? String.length (script cmd))%nat;
    change (0 <=? String.length (script cmd))%nat with true;
    now eexists; eexists.
Qed.

Lemma WrongHyphenBeforeSubcommandRule_correction (cmd : Command) (c : State) :
  defined (WrongHyphenBeforeSubcommandRule_get_new_command cmd) c.
Proof.
  unfold WrongHyphenBeforeSubcommandRule_get_new_command.
  destruct (find_char (script cmd) "-"%char) as [pos|] eqn:Hf;
    [|apply defined_ret].
  apply find_char_bound in Hf.
  destruct (replace_defined (script cmd) pos 1 " ") as [r Hr]; [lia|].
  unfold bind, lift, defined. rewrite Hr. now eexists; eexists.
Qed.

Lemma MissingSpaceBeforeSubcommandRule_correction (cmd : Command) (c : State) :
  defined (MissingSpaceBeforeSubcommandRule_get_new_command cmd) c.
Proof.
  unfold MissingSpaceBeforeSubcommandRule_get_new_command.
  destruct (starts_with (script cmd) "npminstall") eqn:H1;
    [now apply (prefixed_correction "npminstall")|].
  destruct (starts_with (script cmd) "gitcommit") eqn:H2;
    [now apply (prefixed_correction "gitcommit")|].
  destruct (starts_with (script cmd) "aptinstall") eqn:H3;
    [now apply (prefixed_correction "aptinstall")|].
  apply defined_ret.
Qed.

Lemma TouchRule_correction (cmd : Command) (c c' : State) :
  TouchRule_match cmd c = Some (true, c') ->
  defined (TouchRule_get_new_command cmd) c'.
Proof.
  intros H. unfold TouchRule_match in H. pure_hit H.
  apply starts_with_length in H. simpl in H.
  unfold TouchRule_get_new_command.
  destruct (substr_defined (script cmd) 6) as [path Hp]; [lia|].
  unfold bind, lift, defined, substr_n. rewrite Hp.
  change (0 <=? String.length path)%nat with true.
  destruct (rfind_char path "/"%char); now eexists; eexists.
Qed.

Lemma GitMainMasterRule_correction (cmd : Command) (c c' : State) :
  GitMainMasterRule_match cmd c = Some (true, c') ->
  defined (GitMainMasterRule_get_new_command cmd) c'.
Proof.
  intros H. unfold GitMainMasterRule_match, ret in H. injection H as H _.
  unfold GitMainMasterRule_get_new_command.
  destruct (contains (script cmd) "master") eqn:Hm.
  - destruct (contains_find _ _ Hm) as [pos Hpos].
    pose proof (find_bound _ _ _ Hpos) as Hb.
    destruct (replace_defined (script cmd) pos 6 "main") as [r Hr]; [lia|].
    unfold bind, lift, defined. rewrite Hpos, Hr. now eexists; eexists.
  - cbn [andb orb] in H. apply andb_prop in H. destruct H as [Hn _].
    destruct (contains_find _ _ Hn) as [pos Hpos].
    pose proof (find_bound _ _ _ Hpos) as Hb.
    destruct (replace_defined (script cmd) pos 4 "master") as [r Hr]; [lia|].
    unfold bind, lift, defined. rewrite Hpos, Hr. now eexists; eexists.
Qed.

Lemma SlLsRule_correction (cmd : Command) (c c' : State) :
  SlLsRule_match cmd c = Some (true, c') ->
  defined (SlLsRule_get_new_command cmd) c'.
Proof.
  intros H. unfold SlLsRule_match, ret in H. injection H as H _.
  assert (Hlen : 2 <= String.length (script cmd)).
  { apply orb_prop in H. destruct H as [H|H].
    - apply String.eqb_eq in H. rewrite H. simpl. lia.
    - apply starts_with_length in H. simpl in H. lia. }
  unfold SlLsRule_get_new_command.
  destruct (substr_defined (script cmd) 2) as [r Hr]; [lia|].
  unfold bind, lift, defined. rewrite Hr. now eexists; eexists.
Qed.

Lemma ChmodXRule_correction (cmd : Command) (c c' : State) :
  ChmodXRule_match cmd c = Some (true, c') ->
  defined (ChmodXRule_get_new_command cmd) c'.
Proof.
  unfold ChmodXRule_match, ChmodXRule_get_new_command.
  destruct (contains (output cmd) "Permission denied"); [|discriminate].
  destruct (script_parts cmd) as [|p0 ps]; [discriminate|].
  intros _. unfold bind, lift, vector_at, defined. cbn [nth_error].
  now eexists; eexists.
Qed.

Lemma DryRule_correction (cmd : Command) (c c' : State) :
  DryRule_match cmd c = Some (true, c') ->
  defined (DryRule_get_new_command cmd) c'.
Proof.
  unfold DryRule_match, DryRule_get_new_command.
  destruct (script_parts cmd) as [|p0 ps]; [discriminate|].
  intros _. unfold bind, lift, vector_at, defined. cbn [nth_error].
  now eexists; eexists.
Qed.

Lemma NoCommandRule_correction (cmd : Command) (c : State) :
  defined (NoCommandRule_get_new_command cmd) c.
Proof.
  unfold NoCommandRule_get_new_command.
  destruct (script_parts cmd) as [|p0 ps]; [apply defined_ret|].
  unfold bind, lift, vector_at. cbn [vempty negb nth_error].
  destruct (map_find NoCommandRule_typos p0); apply defined_ret.
Qed.

Lemma CdMkdirRule_correction (cmd : Command) (c : State) :
  defined (CdMkdirRule_get_new_command cmd) c.
Proof.
  unfold CdMkdirRule_get_new_command.
  destruct (script_parts cmd) as [|p0 [|p1 ps]]; apply defined_ret.
Qed.

Lemma LnSOrderRule_correction (cmd : Command) (c : State) :
  defined (LnSOrderRule_get_new_command cmd) c.
Proof.
  unfold LnSOrderRule_get_new_command.
  destruct (script_parts cmd) as [|p0 [|p1 [|p2 [|p3 ps]]]];
    apply defined_ret.
Qed.

Lemma GitPushRule_correction (cmd : Command) (c : State) :
  defined (GitPushRule_get_new_command cmd) c.
Proof.
  unfold GitPushRule_get_new_command.
  destruct (regex.regex_search _ _) as [m|]; [|apply defined_ret].
  destruct (1 <? List.length m)%nat; apply defined_ret.
Qed.

Lemma GitNotCommandRule_correction (cmd : Command) (c : State) :
  defined (GitNotCommandRule_get_new_command cmd) c.
Proof.
  unfold GitNotCommandRule_get_new_command.
  destruct (regex.regex_search _ _) as [m|]; [|apply defined_ret].
  destruct (1 <? List.length m)%nat; apply defined_ret.
Qed.

(** The corrections that cut a fixed prefix off the script. *)
Ltac by_prefix p :=
  let H := fresh "H" in
  intros H; unfold ret in H; injection H as H _;
  repeat match goal with
         | H : _ && _ = true |- _ => apply andb_prop in H; destruct H
         end;
  apply (prefixed_correction p); [assumption | simpl; lia].

(** Every registered rule whose predicate holds of a [Command] yields a
    candidate list for it: no [substr], [replace] or index of a correction
    function is out of range once the predicate has held. *)
Lemma correction_total (cmd : Command) :
  Forall (fun r => forall c c',
            match_ r cmd c = Some (true, c') ->
            defined (get_new_command r cmd) c')
         (registered_rules w).
Proof.
  unfold registered_rules.
  repeat apply Forall_cons; try apply Forall_nil; intros c c';
    cbn [match_ get_new_command RULE_CLASS
         SudoRule FuzzyCommandRule GitPushRule NoCommandRule
         GitNotCommandRule CdMkdirRule CdParentRule CdCsRule CatDirRule
         ChmodXRule CpOmittingDirectoryRule DryRule GitAddRule
         GitAddForceRule GitBranchDeleteRule GitCommitAddRule
         GitCommitAmendRule GitPullRule GitTwoDashesRule GrepRecursiveRule
         HasExistsScriptRule LsAllRule LsLahRule MkdirPRule RmDirRule
         SlLsRule PythonCommandRule PythonExecuteRule JavaRule JavacRule
         GoRunRule CargoRule DockerNotCommandRule NpmWrongCommandRule
         PipUnknownCommandRule GitCloneGitCloneRule
         WrongHyphenBeforeSubcommandRule MissingSpaceBeforeSubcommandRule
         RemoveShellPromptLiteralRule TouchRule UnsudoRule LnSOrderRule
         Cpp11Rule GitMainMasterRule];
    try (intros _; apply defined_ret);
    first
      [ intros _; apply FuzzyCommandRule_get_new_command_defined
      | intros _; apply GitPushRule_correction
      | intros _; apply NoCommandRule_correction
      | intros _; apply GitNotCommandRule_correction
      | intros _; apply CdMkdirRule_correction
      | by_prefix "cs "
      | by_prefix "cat "
      | apply ChmodXRule_correction
      | by_prefix "cp "
      | apply DryRule_correction
      | apply GitBranchDeleteRule_correction
      | intros _; apply GitCommitAddRule_correction
      | intros _; apply GitTwoDashesRule_correction
      | by_prefix "grep "
      | by_prefix "mkdir "
      | by_prefix "rm "
      | apply SlLsRule_correction
      | intros _; apply JavaRule_correction
      | intros _; apply second_token_fix_defined
      | by_prefix "git clone git clone"
      | intros _; apply WrongHyphenBeforeSubcommandRule_correction
      | intros _; apply MissingSpaceBeforeSubcommandRule_correction
      | by_prefix "$ "
      | apply TouchRule_correction
      | by_prefix "sudo "
      | intros _; apply LnSOrderRule_correction
      | apply GitMainMasterRule_correction ].
Qed.

End Corrections.

(* ===================================================================== *)
(** * Dispatch *)
(* ===================================================================== *)

Section Dispatch.

Context {S : Type}.

Lemma first_match_scan (rs : list (Rule S)) (cmd : Command) (s : S) (n : nat) :
  Forall (fun r => forall s0, defined (match_ r cmd) s0) rs ->
  exists hit s' calls,
    scan cmd rs s hit s' /\
    dispatched cmd hit s' (first_match rs cmd s) calls /\
    first_match (map counting rs) cmd (s, n)
      = with_calls (n + calls) (first_match rs cmd s).
Proof.
  intros Htot. revert s.
  induction Htot as [|r rs Hr Hrs IH]; intros s.
  - exists None, s, 0. split; [constructor; constructor|].
    split; [split; reflexivity|]. cbn. now rewrite Nat.add_0_r.
  - destruct (Hr s) as (b & s1 & Hm).
    destruct b.
    + exists (Some r), s1, 1. split; [|split].
      * now apply (scan_hit cmd (r :: rs) s [] rs r s s1);
          [reflexivity | constructor | ].
      * cbn. unfold bind. rewrite Hm. split; reflexivity.
      * cbn. unfold bind. cbn. rewrite Hm. cbn.
        destruct (get_new_command r cmd s1) as [[l s2]|]; cbn;
          [|reflexivity].
        now rewrite Nat.add_1_r.
    + destruct (IH s1) as (hit & s' & calls & Hscan & Hd & Hc).
      exists hit, s', calls.
      assert (Hstep : first_match (r :: rs) cmd s = first_match rs cmd s1).
      { cbn. unfold bind. now rewrite Hm. }
      split; [|split].
      * destruct Hscan as [pre post r' s2 s3 -> Hpre Hhit | s3 Hall].
        -- apply (scan_hit cmd _ s (r :: pre) post r' s2 s3);
             [reflexivity | econstructor; eassumption | assumption].
        -- apply scan_none. econstructor; eassumption.
      * now rewrite Hstep.
      * rewrite Hstep, <- Hc. cbn. unfold bind. cbn. now rewrite Hm.
Qed.

(** When the predicates of [rs] leave the state alone and the only rules
    that hold of [cmd] produce [result], the scan returns [result],
    wherever those rules stand in [rs]. *)
Lemma first_match_only (rs : list (Rule S)) (cmd : Command) (s : S)
  (result : option (list string * S)) :
  Forall (fun r => match_ r cmd s = Some (false, s) \/
                   (match_ r cmd s = Some (true, s) /\
                    get_new_command r cmd s = result)) rs ->
  Exists (fun r => match_ r cmd s = Some (true, s)) rs ->
  first_match rs cmd s = result.
Proof.
  induction 1 as [|r rs Hr Hrs IH]; intros Hex.
  - inversion Hex.
  - cbn. unfold bind. destruct Hr as [Hr|[Hr Hres]]; rewrite Hr.
    + apply IH. inversion Hex as [? ? Hhit|]; [congruence | assumption].
    + exact Hres.
Qed.

Lemma priority_less_strict_weak_order :
  strict_weak_order (@priority_less S).
Proof.
  unfold priority_less. repeat split; intros.
  - apply Z.ltb_irrefl.
  - rewrite Z.ltb_lt in *. lia.
  - rewrite Z.ltb_ge in *. lia.
Qed.

End Dispatch.

(** The registry holds the registered rules, each once. *)
Lemma registry_permutation {sort_impl : StdSort} (w : World) :
  Permutation (registered_rules w) (rules (RuleManager_ctor w)).
Proof.
  apply std_sort_permutation, priority_less_strict_weak_order.
Qed.

(** The registry is in non-descending order of priority. *)
Lemma registry_sorted {sort_impl : StdSort} (w : World) :
  sorted_by priority_less (rules (RuleManager_ctor w)).
Proof.
  apply std_sort_sorted, priority_less_strict_weak_order.
Qed.

(* --------------------------------------------------------------------- *)
(** ** C1: the first matching rule, and only it, is asked for candidates *)
(* --------------------------------------------------------------------- *)

(** C1: for every [Command] (built from any script and output), in any
    state of the command cache, [RuleManager::get_corrected_commands]
    scans the sorted registry and
    - either stops at the first rule whose predicate holds, the rules
      before it having all answered [false], and returns the candidate
      list that this rule's [get_new_command] produces, which is the one
      call of a correction function made;
    - or finds that every rule answers [false] and returns the empty list
      without a call of a correction function. *)
Theorem get_corrected_commands_first_match {sort_impl : StdSort} (w : World)
  (s o : string) (cache : State) :
  let cmd := Command_ctor s o in
  let manager := RuleManager_ctor w in
  exists (hit : option (Rule State)) (cache' : State) (calls : nat)
         (candidates : list string) (cache'' : State),
    scan cmd (rules manager) cache hit cache' /\
    get_corrected_commands manager cmd cache = Some (candidates, cache'') /\
    get_corrected_commands (counting_manager manager) cmd (cache, 0)
      = Some (candidates, (cache'', calls)) /\
    match hit with
    | Some r => get_new_command r cmd cache' = Some (candidates, cache'')
                /\ calls = 1
    | None => candidates = [] /\ cache'' = cache' /\ calls = 0
    end.
Proof.
  intros cmd manager.
  pose proof (registry_permutation w) as Hperm.
  assert (Htot : Forall (fun r => forall s0, defined (match_ r cmd) s0)
                        (rules manager)).
  { apply (Permutation_Forall Hperm).
    apply Forall_forall. intros r Hr c0.
    pose proof (predicates_total w s o c0) as Hall.
    rewrite Forall_forall in Hall. apply Hall. now right. }
  destruct (first_match_scan (rules manager) cmd cache 0 Htot)
    as (hit & cache' & calls & Hscan & Hd & Hc).
  unfold get_corrected_commands, counting_manager. cbn [rules] in *.
  fold manager. rewrite Hc. clear Hc.
  destruct hit as [r|]; destruct Hd as [Hres ->].
  - assert (Hin : In r (registered_rules w)).
    { apply (Permutation_in _ (Permutation_sym Hperm)).
      inversion Hscan as [pre post r' s1 s2 Heq _ _|]; subst.
      fold manager. rewrite Heq. apply in_elt. }
    assert (Hhit : exists c1, match_ r cmd c1 = Some (true, cache')).
    { inversion Hscan; subst; eauto. }
    destruct Hhit as [c1 Hhit].
    pose proof (correction_total w cmd) as Hcor.
    rewrite Forall_forall in Hcor.
    destruct (Hcor r Hin c1 cache' Hhit) as (l & c2 & Hl).
    exists (Some r), cache', 1, l, c2.
    rewrite Hres, Hl. cbn. repeat split; assumption || reflexivity.
  - exists None, cache', 0, [], cache'.
    rewrite Hres. cbn. repeat split; assumption || reflexivity.
Qed.

(* --------------------------------------------------------------------- *)
(** ** C9: the two rules for a bare [ls] *)
(* --------------------------------------------------------------------- *)

Ltac miss_or_hit :=
  first [ left; vm_compute; reflexivity
        | right; split; vm_compute; reflexivity ].

Lemma ls_empty_rules {sort_impl : StdSort} (w : World) (cache : State) :
  Forall (fun r =>
            match_ r (Command_ctor "ls" "") cache = Some (false, cache) \/
            (match_ r (Command_ctor "ls" "") cache = Some (true, cache) /\
             get_new_command r (Command_ctor "ls" "") cache
               = Some (["ls -A"], cache)))
         (registered_rules w).
Proof.
  unfold registered_rules.
  repeat apply Forall_cons; try apply Forall_nil; miss_or_hit.
Qed.

Lemma ls_listing_rules {sort_impl : StdSort} (w : World) (cache : State) :
  Forall (fun r =>
            match_ r (Command_ctor "ls" readme_output) cache
              = Some (false, cache) \/
            (match_ r (Command_ctor "ls" readme_output) cache
               = Some (true, cache) /\
             get_new_command r (Command_ctor "ls" readme_output) cache
               = Some (["ls -lah"], cache)))
         (registered_rules w).
Proof.
  unfold registered_rules.
  repeat apply Forall_cons; try apply Forall_nil; miss_or_hit.
Qed.

(** C9: whatever order [std::sort] leaves the registry in, the dispatch of
    the script [ls] with an empty output returns ["ls -A"] (as its first
    and only candidate), and the dispatch of the script [ls] with the
    output ["readme.md\n"] returns ["ls -lah"]: [LsAllRule] is the only
    rule that holds of the first command, [LsLahRule] the only one that
    holds of the second, so neither shadows the other. *)
Theorem ls_dispatch {sort_impl : StdSort} (w : World) (cache : State) :
  get_corrected_commands (RuleManager_ctor w) (Command_ctor "ls" "") cache
    = Some (["ls -A"], cache) /\
  get_corrected_commands (RuleManager_ctor w)
    (Command_ctor "ls" readme_output) cache
    = Some (["ls -lah"], cache).
Proof.
  pose proof (registry_permutation w) as Hperm.
  unfold get_corrected_commands.
  split; apply first_match_only.
  - apply (Permutation_Forall Hperm), ls_empty_rules.
  - apply Exists_exists. exists LsAllRule. split; [|reflexivity].
    apply (Permutation_in _ Hperm). unfold registered_rules.
    do 21 right. now left.
  - apply (Permutation_Forall Hperm), ls_listing_rules.
  - apply Exists_exists. exists LsLahRule. split; [|reflexivity].
    apply (Permutation_in _ Hperm). unfold registered_rules.
    do 22 right. now left.
Qed.

(* --------------------------------------------------------------------- *)
(** ** C2: the order of the registry *)
(* --------------------------------------------------------------------- *)

Lemma registered_names {sort_impl : StdSort} (w : World) :
  map get_name (registered_rules w) = registration_order.
Proof. reflexivity. Qed.

(** No built-in rule overrides [get_priority]. *)
Lemma registered_priorities {sort_impl : StdSort} (w : World) :
  Forall (fun r => get_priority r = 1000%Z) (registered_rules w).
Proof.
  unfold registered_rules.
  repeat apply Forall_cons; try apply Forall_nil; reflexivity.
Qed.

(** With a sort that happens to keep equivalent elements in place, the
    registry is in registration order. *)
Lemma registry_order_under_stable_sort (w : World) :
  map get_name (rules (@RuleManager_ctor stable_std_sort w))
  = registration_order.
Proof. vm_compute. reflexivity. Qed.

(** C2 at a failing input: [std::sort] is free to permute rules of equal
    priority, and all 44 have priority 1000. With the [std::sort] of GNU
    libstdc++ the registry built by the constructor starts with
    [NpmWrongCommandRule] and has [SudoRule] in the 34th place; with the
    conforming [reversing_std_sort] it is in the reverse of the
    registration order. Neither is the registration order. *)
Theorem registry_order_not_kept (w : World) :
  map get_name (rules (@RuleManager_ctor gnu_std_sort w)) = libstdcxx_order /\
  map get_name (rules (@RuleManager_ctor gnu_std_sort w))
    <> registration_order /\
  map get_name (rules (@RuleManager_ctor reversing_std_sort w))
    = rev registration_order /\
  map get_name (rules (@RuleManager_ctor reversing_std_sort w))
    <> registration_order.
Proof.
  assert (Hgnu : map get_name (rules (@RuleManager_ctor gnu_std_sort w))
                 = libstdcxx_order)
    by (vm_compute; reflexivity).
  assert (Hrev : map get_name (rules (@RuleManager_ctor reversing_std_sort w))
                 = rev registration_order)
    by (vm_compute; reflexivity).
  rewrite Hgnu, Hrev. repeat split; reflexivity || discriminate.
Qed.

Lemma libstdcxx_registry_order {sort_impl : StdSort} (w : World) :
  option_map (map get_name)
    (libstdcxx.sort priority_less (registered_rules w))
    = Some libstdcxx_order /\
  libstdcxx_order <> registration_order /\
  Permutation registration_order libstdcxx_order.
Proof.
  split; [vm_compute; reflexivity|]. split; [discriminate|].
  apply (NoDup_Permutation_bis (l := registration_order)).
  - repeat (constructor; [cbn; intuition discriminate|]). constructor.
  - reflexivity.
  - intros x Hx. cbn in Hx. cbn.
    repeat (destruct Hx as [<-|Hx]; [tauto|]). contradiction.
Qed.

(** The order of the registry shows in what the dispatcher answers. Both
    [SudoRule] and [ChmodXRule] hold of the first command below, both
    [GitCommitAddRule] and [GitCommitAmendRule] of the second. *)
Lemma dispatch_depends_on_tie_order (w : World) (cache : State) :
  let denied := Command_ctor "./run.sh" "bash: ./run.sh: Permission denied" in
  let commit := Command_ctor "git commit" "no changes added to commit" in
  get_corrected_commands (@RuleManager_ctor stable_std_sort w) denied cache
    = Some (["sudo ./run.sh"], cache) /\
  get_corrected_commands (@RuleManager_ctor gnu_std_sort w) denied cache
    = Some (["chmod +x ./run.sh && ./run.sh"], cache) /\
  get_corrected_commands (@RuleManager_ctor stable_std_sort w) commit cache
    = Some (["git commit -a"; "git commit -p"], cache) /\
  get_corrected_commands (@RuleManager_ctor reversing_std_sort w) commit cache
    = Some (["git commit --amend"], cache).
Proof. repeat split; vm_compute; reflexivity. Qed.

(** Both [NoCommandRule] and [MissingSpaceBeforeSubcommandRule] hold of
    this command; the index is empty, so that the fuzzy rule does not. *)
Lemma dispatch_of_glued_subcommand :
  let w := bin_world [] in
  let glued := Command_ctor "gitcommit -m x" "gitcommit: command not found" in
  option_map fst
    (get_corrected_commands (@RuleManager_ctor stable_std_sort w) glued
       fuzzy.fresh_cache)
    = Some ["gitcommit -m x"] /\
  option_map fst
    (get_corrected_commands (@RuleManager_ctor gnu_std_sort w) glued
       fuzzy.fresh_cache)
    = Some ["git commit -m x"].
Proof. split; vm_compute; reflexivity. Qed.

(* --------------------------------------------------------------------- *)
(** ** C6: the elevation rule *)
(* --------------------------------------------------------------------- *)

Section Elevation.

Import utils.

(** No character is mapped to an upper-case letter by [tolower]. *)
Lemma tolower_not_upper (c : ascii) :
  let n := nat_of_ascii (tolower c) in (n <? 65)%nat || (90 <? n)%nat = true.
Proof.
  destruct c as [[] [] [] [] [] [] [] []]; vm_compute; reflexivity.
Qed.

(** A pattern that begins with an upper-case letter does not occur in a
    lower-cased string. *)
Lemma to_lower_hides_upper (s : string) (c : ascii) (sub : string) :
  (let n := nat_of_ascii c in (65 <=? n)%nat && (n <=? 90)%nat = true) ->
  contains (to_lower s) (String c sub) = false.
Proof.
  intros Hc. unfold contains.
  assert (Hf : find (to_lower s) (String c sub) = None);
    [|now rewrite Hf].
  induction s as [|x rest IH]; [reflexivity|].
  cbn [to_lower]. rewrite find_eq. cbn [String.prefix].
  destruct (Ascii.ascii_dec c (tolower x)) as [->|_].
  - pose proof (tolower_not_upper x) as Hx. cbv zeta in Hx, Hc.
    apply andb_prop in Hc. destruct Hc as [H1 H2].
    apply Nat.leb_le in H1, H2.
    apply orb_prop in Hx. destruct Hx as [Hx|Hx]; apply Nat.ltb_lt in Hx; lia.
  - now rewrite IH.
Qed.

(** What [SudoRule::match] computes: two of its four tests look for a
    pattern with an upper-case letter in the lower-cased output and never
    hold. *)
Lemma SudoRule_match_spec (cmd : Command) (cache : State) :
  SudoRule_match cmd cache
  = Some (contains (to_lower (output cmd)) "permission denied" ||
          contains (output cmd) "unless you are root", cache).
Proof.
  unfold SudoRule_match, ret.
  rewrite (to_lower_hides_upper _ "P"%char "ermission denied") by reflexivity.
  rewrite (to_lower_hides_upper _ "E"%char "ACCES") by reflexivity.
  now rewrite !orb_false_r.
Qed.

End Elevation.

(** C6 at a failing input: the output contains ["EACCES"], yet
    [SudoRule::match] answers [false], because it looks for ["EACCES"] in
    the lower-cased copy of the output. The other two triggers work as
    the claim says and the candidate is ["sudo "] before the script. *)
Theorem SudoRule_misses_EACCES (cache : State) :
  utils.contains eacces_output "EACCES" = true /\
  SudoRule_match (Command_ctor "vi /etc/hosts" eacces_output) cache
    = Some (false, cache).
Proof. split; vm_compute; reflexivity. Qed.

(** The part of C6 that holds. *)
Lemma SudoRule_elevates (cmd : Command) (cache : State) :
  utils.contains (utils.to_lower (output cmd)) "permission denied" = true \/
  utils.contains (output cmd) "unless you are root" = true ->
  SudoRule_match cmd cache = Some (true, cache) /\
  SudoRule_get_new_command cmd cache = Some (["sudo " ++ script cmd], cache).
Proof.
  intros H. rewrite SudoRule_match_spec. split; [|reflexivity].
  destruct H as [-> | ->]; [reflexivity | now rewrite orb_true_r].
Qed.

(* --------------------------------------------------------------------- *)
(** ** C10: a failed capture falls back to a fixed rewrite *)
(* --------------------------------------------------------------------- *)

(** C10: when [GitPushRule] holds of a command and the capture of the
    branch name fails, its correction is the one candidate
    ["git push --set-upstream origin master"]; when [GitNotCommandRule]
    holds of a command and the capture of the suggested subcommand fails,
    its correction is the one candidate made of the original script.
    Neither fails. *)
Theorem capture_fallback (cmd : Command) (cache : State) :
  (GitPushRule_match cmd cache = Some (true, cache) ->
   captured regex.branch_regex (output cmd) = None ->
   GitPushRule_get_new_command cmd cache
     = Some (["git push --set-upstream origin master"], cache)) /\
  (GitNotCommandRule_match cmd cache = Some (true, cache) ->
   captured regex.did_you_mean (output cmd) = None ->
   GitNotCommandRule_get_new_command cmd cache = Some ([script cmd], cache)).
Proof.
  unfold captured, GitPushRule_get_new_command,
    GitNotCommandRule_get_new_command.
  split; intros _ H.
  - destruct (regex.regex_search regex.branch_regex (output cmd)) as [m|];
      [|reflexivity].
    destruct (1 <? List.length m)%nat; [discriminate | reflexivity].
  - destruct (regex.regex_search regex.did_you_mean (output cmd)) as [m|];
      [|reflexivity].
    destruct (1 <? List.length m)%nat; [discriminate | reflexivity].
Qed.

Lemma capture_fallback_witness :
  GitPushRule_get_new_command push_without_hint fuzzy.fresh_cache
    = Some (["git push --set-upstream origin master"], fuzzy.fresh_cache) /\
  GitNotCommandRule_get_new_command unknown_subcommand fuzzy.fresh_cache
    = Some (["git sttaus"], fuzzy.fresh_cache).
Proof.
  split.
  - apply (proj1 (capture_fallback push_without_hint fuzzy.fresh_cache));
      vm_compute; reflexivity.
  - apply (proj2 (capture_fallback unknown_subcommand fuzzy.fresh_cache));
      vm_compute; reflexivity.
Defined.

(* ===================================================================== *)
(** * The table of [levenshtein_distance] *)
(* ===================================================================== *)

Section Levenshtein.

Import fuzzy.

Variables s1 s2 : string.

Lemma cell_column_0 (i : nat) : cell s1 s2 i 0 = to_int i.
Proof. destruct i; reflexivity. Qed.

Lemma cell_step (i j : nat) :
  cell s1 s2 (S i) (S j)
  = if Ascii.eqb (char_at s1 i) (char_at s2 j) then cell s1 s2 i j
    else Z.add 1 (min3 (cell s1 s2 i (S j)) (cell s1 s2 (S i) j)
                       (cell s1 s2 i j)).
Proof. reflexivity. Qed.

Let len1 := String.length s1.
Let len2 := String.length s2.

Lemma first_column_loop (n a : nat) (dp : table) (i j : nat) :
  fold_left (fun dp i => set_cell dp i 0 (to_int i)) (seq a n) dp i j
  = if ((j =? 0) && (a <=? i) && (i <? a + n))%nat then to_int i else dp i j.
Proof.
  revert a dp. induction n as [|n IH]; intros a dp; cbn [seq fold_left].
  - destruct (j =? 0)%nat, (Nat.leb_spec a i), (Nat.ltb_spec i (a + 0));
      cbn; reflexivity || lia.
  - rewrite IH. unfold set_cell.
    destruct (Nat.eqb_spec j 0), (Nat.eqb_spec i a), (Nat.leb_spec (S a) i),
      (Nat.ltb_spec i (S a + n)), (Nat.leb_spec a i),
      (Nat.ltb_spec i (a + S n)); cbn; subst; reflexivity || lia.
Qed.

Lemma first_row_loop (n a : nat) (dp : table) (i j : nat) :
  fold_left (fun dp j => set_cell dp 0 j (to_int j)) (seq a n) dp i j
  = if ((i =? 0) && (a <=? j) && (j <? a + n))%nat then to_int j else dp i j.
Proof.
  revert a dp. induction n as [|n IH]; intros a dp; cbn [seq fold_left].
  - destruct (i =? 0)%nat, (Nat.leb_spec a j), (Nat.ltb_spec j (a + 0));
      cbn; reflexivity || lia.
  - rewrite IH. unfold set_cell.
    destruct (Nat.eqb_spec i 0), (Nat.eqb_spec j a), (Nat.leb_spec (S a) j),
      (Nat.ltb_spec j (S a + n)), (Nat.leb_spec a j),
      (Nat.ltb_spec j (a + S n)); cbn; subst; reflexivity || lia.
Qed.

Lemma fill_cell_at (i j : nat) (dp : table) (i' j' : nat) :
  fill_cell s1 s2 i dp j i' j'
  = if ((i' =? i) && (j' =? j))%nat
    then if Ascii.eqb (char_at s1 (i - 1)) (char_at s2 (j - 1))
         then dp (i - 1) (j - 1)
         else Z.add 1 (min3 (dp (i - 1) j) (dp i (j - 1)) (dp (i - 1) (j - 1)))
    else dp i' j'.
Proof.
  unfold fill_cell, set_cell.
  destruct (Ascii.eqb _ _), ((i' =? i) && (j' =? j))%nat; reflexivity.
Qed.

Lemma fill_cell_agrees (i j : nat) (dp : table) :
  1 <= i -> 1 <= j <= len2 ->
  agrees s1 s2 dp (filled len1 len2 i j) ->
  agrees s1 s2 (fill_cell s1 s2 i dp j) (filled len1 len2 i (S j)).
Proof.
  intros Hi Hj Hdp i' j' Hc. rewrite fill_cell_at.
  destruct (Nat.eqb_spec i' i) as [->|Hne]; cbn [andb].
  - destruct (Nat.eqb_spec j' j) as [->|Hnj].
    + destruct i as [|i0]; [lia|]. destruct j as [|j0]; [lia|].
      rewrite cell_step.
      replace (S i0 - 1) with i0 by lia. replace (S j0 - 1) with j0 by lia.
      rewrite (Hdp i0 j0), (Hdp i0 (S j0)), (Hdp (S i0) j0);
        unfold filled; reflexivity || lia.
    + apply Hdp. unfold filled in *. lia.
  - apply Hdp. unfold filled in *. lia.
Qed.

Lemma row_loop (i n a : nat) (dp : table) :
  1 <= i -> 1 <= a -> a + n = S len2 ->
  agrees s1 s2 dp (filled len1 len2 i a) ->
  agrees s1 s2 (fold_left (fill_cell s1 s2 i) (seq a n) dp)
         (filled len1 len2 i (S len2)).
Proof.
  intros Hi. revert a dp.
  induction n as [|n IH]; intros a dp Ha Han Hdp; cbn [seq fold_left].
  - replace (S len2) with a by lia. exact Hdp.
  - apply IH; [lia | lia |].
    apply fill_cell_agrees; [lia | lia | exact Hdp].
Qed.

Lemma rows_loop (n i : nat) (dp : table) :
  1 <= i -> i + n = S len1 ->
  agrees s1 s2 dp (filled len1 len2 i 0) ->
  agrees s1 s2 (fold_left
            (fun dp i => fold_left (fill_cell s1 s2 i) (seq 1 len2) dp)
            (seq i n) dp)
         (filled len1 len2 (S len1) 0).
Proof.
  revert i dp.
  induction n as [|n IH]; intros i dp Hi Hin Hdp; cbn [seq fold_left].
  - replace (S len1) with i by lia. exact Hdp.
  - apply IH; [lia | lia |].
    assert (Hrow : agrees s1 s2 (fold_left (fill_cell s1 s2 i) (seq 1 len2) dp)
                          (filled len1 len2 i (S len2))).
    { apply row_loop; [lia | lia | lia |].
      intros i' j' Hc. apply Hdp. unfold filled in *. lia. }
    intros i' j' Hc. apply Hrow. unfold filled in *. lia.
Qed.

(** The distance returned is the value of the last cell. *)
Lemma levenshtein_distance_cell :
  levenshtein_distance s1 s2 = cell s1 s2 len1 len2.
Proof.
  unfold levenshtein_distance. fold len1 len2.
  apply (rows_loop len1 1); [lia | lia | | unfold filled; lia].
  intros i j Hc.
  rewrite first_row_loop, first_column_loop. unfold new_table.
  destruct (Nat.eqb_spec i 0) as [->|Hi0].
  - destruct (Nat.leb_spec 0 j), (Nat.ltb_spec j (0 + (len2 + 1)));
      cbn; try reflexivity; unfold filled in Hc; lia.
  - cbn [andb].
    destruct (Nat.eqb_spec j 0) as [->|Hj0].
    + rewrite cell_column_0.
      destruct (Nat.leb_spec 0 i), (Nat.ltb_spec i (0 + (len1 + 1)));
        cbn; try reflexivity; unfold filled in Hc; lia.
    + unfold filled in Hc. lia.
Qed.

End Levenshtein.

Lemma min3_swap (a b c : Z) : fuzzy.min3 a b c = fuzzy.min3 b a c.
Proof. unfold fuzzy.min3. lia. Qed.

Lemma cell_transpose (s1 s2 : string) (i j : nat) :
  cell s1 s2 i j = cell s2 s1 j i.
Proof.
  revert j. induction i as [|i IHi]; intros j.
  - now rewrite cell_column_0.
  - induction j as [|j IHj].
    + now rewrite cell_column_0.
    + rewrite !cell_step, Ascii.eqb_sym.
      rewrite IHj, !IHi, min3_swap. reflexivity.
Qed.

Lemma cell_diagonal (s : string) (i : nat) : cell s s i i = 0%Z.
Proof.
  induction i as [|i IH]; [reflexivity|].
  now rewrite cell_step, Ascii.eqb_refl.
Qed.

(* --------------------------------------------------------------------- *)
(** ** C8: the distance is symmetric and vanishes on equal strings *)
(* --------------------------------------------------------------------- *)

(** C8: for all strings [a] and [b],
    [levenshtein_distance a b = levenshtein_distance b a], and
    [levenshtein_distance a a = 0]. *)
Theorem levenshtein_distance_symmetric (a b : string) :
  fuzzy.levenshtein_distance a b = fuzzy.levenshtein_distance b a /\
  fuzzy.levenshtein_distance a a = 0%Z.
Proof.
  rewrite !levenshtein_distance_cell. split.
  - apply cell_transpose.
  - apply cell_diagonal.
Qed.

(* ===================================================================== *)
(** * The fuzzy matcher *)
(* ===================================================================== *)

Section FuzzyFacts.

Context {sort_impl : StdSort}.
Variable w : World.

(** A property kept by the body of a [getline] loop holds at its end. *)
Lemma while_getline_invariant {A : Type} (P : A -> Prop)
  (body : A -> string -> A) (iss : string) (delim : ascii) (acc : A) :
  (forall a part, P a -> P (body a part)) ->
  P acc -> P (utils.while_getline body iss delim acc).
Proof.
  intros Hbody.
  remember (String.length iss) as n eqn:Hn. revert iss acc Hn.
  induction n as [n IH] using lt_wf_ind; intros iss acc Hn Hacc.
  destruct iss as [|c rest]; simp while_getline.
  subst n.
  apply (IH _ (getline_extract_shorter c rest delim) _ _ eq_refl).
  now apply Hbody.
Qed.

Lemma scan_entry_invariant (path : string)
  (acc : list string * list string) (entry : dirent) :
  scan_invariant acc -> scan_invariant (fuzzy.scan_entry w path acc entry).
Proof.
  intros [Hnd Hseen]. unfold fuzzy.scan_entry.
  destruct (Ascii.eqb _ _); [now split|].
  destruct (d_type entry); try now split.
  all: destruct (sys_stat w _) as [st|]; [|now split].
  all: destruct (S_IXUSR st); [|now split].
  all: destruct (existsb _ (snd acc)) eqn:Hex; [now split|].
  all: assert (Hnew : ~ In (d_name entry) (snd acc))
         by (intros Hin;
             assert (Ht : existsb (String.eqb (d_name entry)) (snd acc) = true)
               by (apply existsb_exists; exists (d_name entry);
                   split; [exact Hin | apply String.eqb_refl]);
             congruence).
  all: split; cbn [fst snd].
  all: try (apply NoDup_app; [exact Hnd | repeat constructor; intros [] | ];
            intros x Hx [<-|[]]; apply Hnew, Hseen, Hx).
  all: intros name Hin; apply in_app_or in Hin;
       destruct Hin as [Hin|[<-|[]]]; [right; now apply Hseen | now left].
Qed.

Lemma scan_directory_invariant (acc : list string * list string)
  (path : string) :
  scan_invariant acc -> scan_invariant (fuzzy.scan_directory w acc path).
Proof.
  intros Hacc. unfold fuzzy.scan_directory.
  destruct (negb _); [exact Hacc|].
  destruct (sys_opendir w path) as [entries|]; [|exact Hacc].
  revert acc Hacc. induction entries as [|e entries IH]; intros acc Hacc.
  - exact Hacc.
  - cbn [fold_left]. apply IH. now apply scan_entry_invariant.
Qed.

(** The index built from the search path holds every name once. *)
Lemma get_system_commands_NoDup : NoDup (fuzzy.get_system_commands w).
Proof.
  unfold fuzzy.get_system_commands.
  destruct (getenv_PATH w) as [path_str|]; [|constructor].
  apply (while_getline_invariant scan_invariant).
  - intros a part. apply scan_directory_invariant.
  - split; [constructor | intros name []].
Qed.

Lemma get_commands_index (cache : State) :
  fuzzy.get_commands w cache = Some (index_of w cache, loaded w cache).
Proof.
  unfold fuzzy.get_commands, index_of, loaded.
  now destruct (fuzzy.initialized cache).
Qed.

Lemma index_of_loaded (cache : State) :
  index_of w (loaded w cache) = index_of w cache.
Proof.
  unfold index_of, loaded. now destruct (fuzzy.initialized cache) eqn:Hi;
    cbn; rewrite ?Hi.
Qed.

Lemma loaded_loaded (cache : State) :
  loaded w (loaded w cache) = loaded w cache.
Proof.
  unfold loaded. now destruct (fuzzy.initialized cache) eqn:Hi;
    cbn; rewrite ?Hi.
Qed.

Lemma collect_match_within (input : string) (d : Z) (index : list string)
  (acc : list fuzzy.CommandMatch) :
  fold_left (fuzzy.collect_match input d) index acc
  = (acc ++ within d input index)%list.
Proof.
  revert acc. induction index as [|name rest IH]; intros acc;
    cbn [fold_left].
  - now rewrite app_nil_r.
  - rewrite IH. unfold within, fuzzy.collect_match. cbn [filter].
    destruct (fuzzy.levenshtein_distance input name <=? d)%Z; cbn [map].
    + now rewrite <- app_assoc.
    + reflexivity.
Qed.

Lemma compare_matches_strict_weak_order :
  strict_weak_order fuzzy.compare_matches.
Proof.
  unfold fuzzy.compare_matches. repeat split; intros.
  - apply Z.ltb_irrefl.
  - rewrite Z.ltb_lt in *. lia.
  - rewrite Z.ltb_ge in *. lia.
Qed.

(** [find_similar_commands]: some arrangement, in non-descending order of
    distance, of the indexed names within [d]. *)
Lemma find_similar_commands_spec (input : string) (d : Z) (cache : State) :
  exists ranked,
    fuzzy.find_similar_commands w input d cache
      = Some (ranked, loaded w cache) /\
    Permutation (within d input (index_of w cache)) ranked /\
    sorted_by fuzzy.compare_matches ranked.
Proof.
  unfold fuzzy.find_similar_commands, bind.
  rewrite get_commands_index, collect_match_within. cbn [app].
  eexists. split; [reflexivity|]. split.
  - apply std_sort_permutation, compare_matches_strict_weak_order.
  - apply std_sort_sorted, compare_matches_strict_weak_order.
Qed.

Lemma vempty_permutation {A : Type} (l l' : list A) :
  Permutation l l' -> vempty l' = vempty l.
Proof.
  intros Hp. destruct l as [|x l], l' as [|y l']; try reflexivity.
  - now apply Permutation_nil_cons in Hp.
  - symmetry in Hp. now apply Permutation_nil_cons in Hp.
Qed.

Lemma within_nonempty (d : Z) (input : string) (index : list string) :
  vempty (within d input index) = false <->
  exists name, In name index /\
               (fuzzy.levenshtein_distance input name <= d)%Z.
Proof.
  unfold within. split.
  - destruct (filter _ index) as [|name rest] eqn:Hf; [discriminate|].
    intros _. exists name.
    assert (Hin : In name (filter
              (fun name => (fuzzy.levenshtein_distance input name <=? d)%Z)
              index)) by (rewrite Hf; now left).
    apply filter_In in Hin. destruct Hin as [Hin Hle].
    split; [exact Hin | now apply Z.leb_le].
  - intros (name & Hin & Hle).
    assert (Hf : In name (filter
              (fun name => (fuzzy.levenshtein_distance input name <=? d)%Z)
              index)) by (apply filter_In; split; [|apply Z.leb_le]; easy).
    destruct (filter _ index); [contradiction | reflexivity].
Qed.

Lemma within_monotone (d d' : Z) (input : string) (index : list string) :
  (d <= d')%Z ->
  vempty (within d input index) = false ->
  vempty (within d' input index) = false.
Proof.
  intros Hd. rewrite !within_nonempty. intros (name & Hin & Hle).
  exists name. split; [exact Hin | lia].
Qed.

(** What [FuzzyCommandRule::match] computes. *)
Lemma FuzzyCommandRule_match_spec (cmd : Command) (cache : State) :
  FuzzyCommandRule_match w cmd cache
  = if utils.contains (output cmd) "command not found" then
      match script_parts cmd with
      | [] => Some (false, cache)
      | first :: _ =>
          Some (negb (vempty (within fuzzy.default_max_distance first
                                (index_of w cache))),
                loaded w cache)
      end
    else Some (false, cache).
Proof.
  unfold FuzzyCommandRule_match.
  destruct (utils.contains (output cmd) "command not found"); [|reflexivity].
  destruct (script_parts cmd) as [|first rest]; [reflexivity|].
  destruct (find_similar_commands_spec first fuzzy.default_max_distance cache)
    as (ranked & Hr & Hperm & _).
  unfold bind, lift, utils.vector_at. cbn [vempty negb nth_error].
  rewrite Hr. unfold ret. now rewrite (vempty_permutation _ _ Hperm).
Qed.

Lemma append_assoc (a b c : string) : (a ++ b) ++ c = a ++ (b ++ c).
Proof. induction a as [|x a IH]; cbn; [reflexivity | now rewrite IH]. Qed.

(** The inner loop of the corrections joins the remaining tokens to the
    new first word with single spaces. *)
Lemma append_parts_concat (fixed : string) (parts : list string) (from : nat) :
  append_parts fixed parts from
  = String.concat " " (fixed :: skipn from parts).
Proof.
  unfold append_parts. generalize (skipn from parts) as l. clear parts from.
  intros l. revert fixed. induction l as [|x l IH]; intros fixed.
  - reflexivity.
  - cbn [fold_left]. rewrite IH.
    destruct l as [|y l]; cbn [String.concat].
    + reflexivity.
    + now rewrite !append_assoc.
Qed.

End FuzzyFacts.

(* --------------------------------------------------------------------- *)
(** ** C4: when the fuzzy rule matches *)
(* --------------------------------------------------------------------- *)

(** C4, as stated (distance 3), fails: with the index [lighter] and the
    failed command [ligh], the output says [command not found], there is a
    first token and [lighter] is at distance 3 of it, yet the predicate
    answers [false]. *)
Lemma fuzzy_match_not_within_3 :
  ~ fuzzy_match_iff 3 (sort_impl := stable_std_sort) (bin_world ["lighter"])
      (Command_ctor "ligh" "ligh: command not found") fuzzy.fresh_cache.
Proof.
  intros [_ Hback].
  destruct Hback as [cache' Hm].
  - split; [vm_compute; reflexivity|].
    exists "ligh". split; [vm_compute; reflexivity|].
    exists "lighter". split; [vm_compute; now left|].
    vm_compute. discriminate.
  - vm_compute in Hm. discriminate.
Qed.

(** C4, amended: the fuzzy rule matches a command exactly when the output
    contains [command not found], the token list is not empty, and at
    least one indexed executable name is within edit distance 2 (the
    default [max_distance]) of the first token. *)
Theorem FuzzyCommandRule_match_within_2 {sort_impl : StdSort} (w : World)
  (cmd : Command) (cache : State) :
  fuzzy_match_iff 2 w cmd cache.
Proof.
  unfold fuzzy_match_iff. rewrite FuzzyCommandRule_match_spec.
  destruct (utils.contains (output cmd) "command not found").
  - destruct (script_parts cmd) as [|first rest]; cbn [hd_error].
    + split.
      * intros [cache' Hm]. discriminate.
      * intros (_ & first & Hf & _). discriminate.
    + pose proof (within_nonempty 2 first (index_of w cache)) as Hw.
      change fuzzy.default_max_distance with 2%Z.
      destruct (vempty (within 2 first (index_of w cache))); cbn [negb].
      * split.
        -- intros [cache' Hm]. discriminate.
        -- intros (_ & first' & [= <-] & Hex).
           apply Hw in Hex. discriminate.
      * split.
        -- intros _. split; [reflexivity|].
           exists first. split; [reflexivity|]. now apply Hw.
        -- intros _. now eexists.
  - split.
    + intros [cache' Hm]. discriminate.
    + intros [Hc _]. discriminate.
Qed.

(* --------------------------------------------------------------------- *)
(** ** C5: the candidates of the fuzzy rule *)
(* --------------------------------------------------------------------- *)

Lemma sorted_by_distance (l : list fuzzy.CommandMatch) :
  sorted_by fuzzy.compare_matches l ->
  StronglySorted (fun a b => (fuzzy.distance a <= fuzzy.distance b)%Z) l.
Proof.
  unfold sorted_by, fuzzy.compare_matches.
  induction 1 as [|a l Hl IH Ha]; constructor.
  - exact IH.
  - rewrite Forall_forall in *. intros b Hb.
    specialize (Ha b Hb). now apply Z.ltb_ge in Ha.
Qed.

(** C5, as stated, fails in its tie-break: [std::sort] does not keep names
    of equal distance in the order of the index. With an index of 17
    one-letter names, all at distance 1 of [a], the [std::sort] of GNU
    libstdc++ leaves [j], [r], [q] in front, and the candidates for [a -l]
    are [j -l], [r -l], [q -l], where the specification has [b -l],
    [c -l], [d -l]. *)
Lemma fuzzy_ties_not_in_index_order :
  ~ fuzzy_candidates_as_specified (sort_impl := gnu_std_sort)
      (bin_world seventeen_names)
      (Command_ctor "a -l" "a: command not found") fuzzy.fresh_cache.
Proof.
  intros Hspec.
  specialize (Hspec (loaded (bin_world seventeen_names) fuzzy.fresh_cache)
                    ltac:(vm_compute; reflexivity)).
  vm_compute in Hspec. discriminate.
Qed.

(** The lists of the counterexample. *)
Lemma fuzzy_ties_scrambled :
  let w := bin_world seventeen_names in
  let cmd := Command_ctor "a -l" "a: command not found" in
  index_of w fuzzy.fresh_cache = seventeen_names /\
  spec_suggestions (index_of w fuzzy.fresh_cache) (script_parts cmd)
    = ["b -l"; "c -l"; "d -l"] /\
  FuzzyCommandRule_get_new_command (sort_impl := gnu_std_sort) w cmd
    (loaded w fuzzy.fresh_cache)
    = Some (["j -l"; "r -l"; "q -l"], loaded w fuzzy.fresh_cache).
Proof. repeat split; vm_compute; reflexivity. Qed.

(** The same with two names and a sort that reverses ties. *)
Lemma fuzzy_ties_reversed :
  let w := bin_world ["ab"; "ac"] in
  let cmd := Command_ctor "aa -l" "aa: command not found" in
  index_of w fuzzy.fresh_cache = ["ab"; "ac"] /\
  spec_suggestions (index_of w fuzzy.fresh_cache) (script_parts cmd)
    = ["ab -l"; "ac -l"] /\
  FuzzyCommandRule_get_new_command (sort_impl := reversing_std_sort) w cmd
    (loaded w fuzzy.fresh_cache)
    = Some (["ac -l"; "ab -l"], loaded w fuzzy.fresh_cache).
Proof. repeat split; vm_compute; reflexivity. Qed.

(** With a sort that keeps equivalent elements in place the candidates
    are the specified ones. *)
Lemma fuzzy_candidates_under_stable_sort (w : World) (cmd : Command)
  (cache : State) :
  fuzzy_candidates_as_specified (sort_impl := stable_std_sort) w cmd cache.
Proof.
  intros cache1. rewrite FuzzyCommandRule_match_spec.
  destruct (utils.contains (output cmd) "command not found");
    [|discriminate].
  destruct (script_parts cmd) as [|first rest] eqn:Hparts; [discriminate|].
  intros [= _ <-].
  unfold FuzzyCommandRule_get_new_command, fuzzy.find_similar_commands.
  rewrite Hparts.
  unfold bind, lift, utils.vector_at. cbn [vempty negb nth_error].
  rewrite get_commands_index, collect_match_within, index_of_loaded.
  cbn [app ret option_map fst spec_suggestions std_sort stable_std_sort].
  f_equal. apply map_ext. intros m. now rewrite append_parts_concat.
Qed.

(** C5, amended: for every command the fuzzy rule matches, its correction
    returns at most 3 candidates (and at least one); they are built from
    the first 3 entries of a ranking of the indexed names within edit
    distance 3 of the first token, each such name taken once per
    occurrence in the index, in non-descending order of distance; each
    candidate is the ranked name followed by the original remaining
    tokens, unaltered, joined by single spaces. *)
Theorem FuzzyCommandRule_candidates {sort_impl : StdSort} (w : World)
  (cmd : Command) (cache cache1 : State) :
  FuzzyCommandRule_match w cmd cache = Some (true, cache1) ->
  exists first rest ranked,
    script_parts cmd = first :: rest /\
    Permutation (within 3 first (index_of w cache)) ranked /\
    StronglySorted
      (fun a b => (fuzzy.distance a <= fuzzy.distance b)%Z) ranked /\
    FuzzyCommandRule_get_new_command w cmd cache1
      = Some (map (fun m => String.concat " " (fuzzy.command m :: rest))
                  (firstn 3 ranked), cache1) /\
    1 <= List.length (firstn 3 ranked) <= 3.
Proof.
  rewrite FuzzyCommandRule_match_spec.
  destruct (utils.contains (output cmd) "command not found");
    [|discriminate].
  destruct (script_parts cmd) as [|first rest] eqn:Hparts; [discriminate|].
  intros [= Hne <-].
  apply negb_true_iff in Hne.
  apply (within_monotone fuzzy.default_max_distance 3) in Hne;
    [|unfold fuzzy.default_max_distance; lia].
  destruct (find_similar_commands_spec w first 3 (loaded w cache))
    as (ranked & Hr & Hperm & Hsorted).
  rewrite index_of_loaded in Hperm. rewrite loaded_loaded in Hr.
  exists first, rest, ranked.
  split; [reflexivity|]. split; [exact Hperm|]. split; [|split].
  - now apply sorted_by_distance.
  - unfold FuzzyCommandRule_get_new_command. rewrite Hparts.
    unfold bind, lift, utils.vector_at. cbn [vempty negb nth_error].
    rewrite Hr. unfold ret.
    rewrite (map_ext
               (fun m => append_parts (fuzzy.command m) (first :: rest) 1)
               (fun m => String.concat " " (fuzzy.command m :: rest)));
      [reflexivity|].
    intros m. now rewrite append_parts_concat.
  - rewrite <- (vempty_permutation _ _ Hperm) in Hne.
    destruct ranked as [|a [|b [|c l]]]; cbn in *; try discriminate; lia.
Qed.

(** The rule at work: the index holds [lighter] and [git], the failed
    command is [light]. *)
Lemma FuzzyCommandRule_candidates_witness :
  exists first rest ranked,
    script_parts light_command = first :: rest /\
    Permutation (within 3 first (index_of light_world fuzzy.fresh_cache))
                ranked /\
    StronglySorted
      (fun a b => (fuzzy.distance a <= fuzzy.distance b)%Z) ranked /\
    FuzzyCommandRule_get_new_command (sort_impl := stable_std_sort)
      light_world light_command (loaded light_world fuzzy.fresh_cache)
      = Some (map (fun m => String.concat " " (fuzzy.command m :: rest))
                  (firstn 3 ranked), loaded light_world fuzzy.fresh_cache) /\
    1 <= List.length (firstn 3 ranked) <= 3.
Proof.
  apply (FuzzyCommandRule_candidates (sort_impl := stable_std_sort)
           light_world light_command fuzzy.fresh_cache).
  vm_compute. reflexivity.
Defined.

(* ===================================================================== *)
(** * The end-to-end scenarios of the specification *)
(* ===================================================================== *)

(** The candidates the dispatcher returns, with the registry in
    registration order and the index [lighter]. *)
Example scenario_rm_directory :
  option_map fst
    (get_corrected_commands
       (@RuleManager_ctor stable_std_sort (bin_world ["lighter"]))
       (Command_ctor "rm foo/" "rm: cannot remove 'foo/': Is a directory")
       fuzzy.fresh_cache)
  = Some ["rm -rf foo/"].
Proof. vm_compute. reflexivity. Qed.

Example scenario_gti_status :
  option_map fst
    (get_corrected_commands
       (@RuleManager_ctor stable_std_sort (bin_world ["lighter"]))
       (Command_ctor "gti status" "gti: command not found")
       fuzzy.fresh_cache)
  = Some ["git status"].
Proof. vm_compute. reflexivity. Qed.

Example scenario_cd_missing :
  option_map fst
    (get_corrected_commands
       (@RuleManager_ctor stable_std_sort (bin_world ["lighter"]))
       (Command_ctor "cd foo" "cd: foo: No such file or directory")
       fuzzy.fresh_cache)
  = Some ["mkdir -p foo && cd foo"].
Proof. vm_compute. reflexivity. Qed.

Example scenario_light :
  option_map fst
    (get_corrected_commands
       (@RuleManager_ctor stable_std_sort (bin_world ["lighter"]))
       (Command_ctor "light" "light: command not found")
       fuzzy.fresh_cache)
  = Some ["lighter"].
Proof. vm_compute. reflexivity. Qed.

Example scenario_nothing_to_fix :
  option_map fst
    (get_corrected_commands
       (@RuleManager_ctor stable_std_sort (bin_world ["lighter"]))
       (Command_ctor "frobnicate" "")
       fuzzy.fresh_cache)
  = Some [].
Proof. vm_compute. reflexivity. Qed.

Example tokens_of_spaced_script :
  script_parts (Command_ctor "  git   commit -m  x " "")
  = ["git"; "commit"; "-m"; "x"].
Proof. vm_compute. reflexivity. Qed.

Example distance_kitten_sitting :
  fuzzy.levenshtein_distance "kitten" "sitting" = 3%Z.
Proof. vm_compute. reflexivity. Qed.

(* ===================================================================== *)
(** * More on the string utilities *)
(* ===================================================================== *)

Section MoreStringFacts.

Import utils.

Lemma prefix_of_append (p rest : string) : String.prefix p (p ++ rest) = true.
Proof.
  induction p as [|c p IH]; cbn; [now destruct rest|].
  destruct (Ascii.ascii_dec c c); [exact IH | contradiction].
Qed.

Lemma starts_with_iff (str p : string) :
  starts_with str p = true <-> exists rest, str = p ++ rest.
Proof.
  split.
  - apply starts_with_append.
  - intros [rest ->].
    apply (proj2 (starts_with_prefix _ _)), prefix_of_append.
Qed.

Lemma find_occurrence (str sub : string) (pos : nat) :
  find str sub = Some pos ->
  exists pre post, str = pre ++ sub ++ post /\ String.length pre = pos.
Proof.
  revert pos. induction str as [|c rest IH]; intros pos; rewrite find_eq.
  - destruct (String.prefix sub "") eqn:Hp; [|discriminate].
    intros [= <-]. destruct (prefix_append _ _ Hp) as [post Hpost].
    now exists "", post.
  - destruct (String.prefix sub (String c rest)) eqn:Hp.
    + intros [= <-]. destruct (prefix_append _ _ Hp) as [post Hpost].
      now exists "", post.
    + destruct (find rest sub) as [k|]; [|discriminate].
      intros [= <-]. destruct (IH k eq_refl) as (pre & post & -> & Hlen).
      exists (String c pre), post. split; [reflexivity | cbn; now rewrite Hlen].
Qed.

Lemma find_of_occurrence (pre sub post : string) :
  exists pos, find (pre ++ sub ++ post) sub = Some pos /\
              pos <= String.length pre.
Proof.
  induction pre as [|c pre IH].
  - exists 0. split; [|cbn; lia]. cbn [append].
    apply (proj2 (find_zero_prefix _ _)), prefix_of_append.
  - cbn [append]. rewrite find_eq.
    destruct (String.prefix sub (String c (pre ++ sub ++ post))).
    + exists 0. split; [reflexivity | cbn; lia].
    + destruct IH as (pos & -> & Hle). exists (S pos).
      split; [reflexivity | cbn; lia].
Qed.

Lemma find_least_occurrence (str sub : string) :
  match find str sub with
  | Some pos =>
      (exists pre post, str = pre ++ sub ++ post /\ String.length pre = pos) /\
      (forall pre post, str = pre ++ sub ++ post -> pos <= String.length pre)
  | None => forall pre post, str <> pre ++ sub ++ post
  end.
Proof.
  destruct (find str sub) as [pos|] eqn:Hf.
  - split; [now apply find_occurrence|].
    intros pre post ->.
    destruct (find_of_occurrence pre sub post) as (pos' & Hf' & Hle).
    congruence.
  - intros pre post ->.
    destruct (find_of_occurrence pre sub post) as (pos' & Hf' & _).
    congruence.
Qed.

Lemma contains_iff (str sub : string) :
  contains str sub = true <-> exists pre post, str = pre ++ sub ++ post.
Proof.
  unfold contains. pose proof (find_least_occurrence str sub) as H.
  destruct (find str sub) as [pos|].
  - destruct H as [(pre & post & Heq & _) _]. split; [eauto | reflexivity].
  - split; [discriminate|]. intros (pre & post & Heq). now apply H in Heq.
Qed.

Lemma substring_append_exact (pre suf : string) :
  String.substring (String.length pre) (String.length suf) (pre ++ suf) = suf.
Proof.
  induction pre as [|c pre IH]; cbn.
  - induction suf as [|d suf IH]; cbn; [reflexivity | now rewrite IH].
  - exact IH.
Qed.

Lemma substring_split (n : nat) (s : string) :
  n <= String.length s ->
  String.substring 0 n s ++ String.substring n (String.length s - n) s = s.
Proof.
  revert s. induction n as [|n IH]; intros s Hn.
  - rewrite Nat.sub_0_r.
    assert (H0 : String.substring 0 0 s = "") by now destruct s.
    rewrite H0. cbn [append].
    clear. induction s as [|c s IH]; cbn; [reflexivity | now rewrite IH].
  - destruct s as [|c s]; cbn in Hn; [lia|].
    cbn. f_equal. apply IH. lia.
Qed.

Lemma ends_with_iff (str suffix : string) :
  ends_with str suffix = true <-> exists pre, str = pre ++ suffix.
Proof.
  unfold ends_with. split.
  - intros H. apply andb_prop in H. destruct H as [Hlen Heq].
    apply Nat.leb_le in Hlen. apply String.eqb_eq in Heq.
    set (n := String.length str - String.length suffix).
    exists (String.substring 0 n str).
    transitivity (String.substring 0 n str
                  ++ String.substring n (String.length str - n) str).
    + symmetry. apply substring_split. unfold n. lia.
    + f_equal. replace (String.length str - n) with (String.length suffix)
        by (unfold n; lia).
      exact Heq.
  - intros [pre ->]. rewrite append_length.
    replace (String.length pre + String.length suffix - String.length suffix)
      with (String.length pre) by lia.
    rewrite substring_append_exact, String.eqb_refl.
    apply andb_true_intro. split; [apply Nat.leb_le; lia | reflexivity].
Qed.

End MoreStringFacts.

Section Tokens.

Import utils.

Variable d : ascii.

Let sep := fun c : ascii => Ascii.eqb c d.

Lemma find_char_cons (c : ascii) (s : string) :
  free_of d (String c s) <-> Ascii.eqb c d = false /\ free_of d s.
Proof.
  unfold free_of. cbn. destruct (Ascii.eqb c d).
  - split; [discriminate | intros [? _]; discriminate].
  - destruct (find_char s d); cbn; split; try discriminate; auto.
    intros [_ ?]. discriminate.
Qed.

Lemma fragments_free (s : string) :
  Forall (free_of d) (spec.fragments sep s).
Proof.
  induction s as [|c rest IH]; cbn.
  - repeat constructor.
  - unfold sep at 1. destruct (Ascii.eqb c d) eqn:Hc.
    + constructor; [reflexivity | exact IH].
    + destruct (spec.fragments sep rest) as [|f fs].
      * constructor; [|constructor]. now apply find_char_cons.
      * inversion IH; subst. constructor; [|assumption].
        now apply find_char_cons.
Qed.

Lemma fragments_of_token (t : string) :
  free_of d t -> spec.fragments sep t = [t].
Proof.
  induction t as [|c t IH]; intros Hfree; [reflexivity|].
  apply find_char_cons in Hfree. destruct Hfree as [Hc Hfree].
  cbn. unfold sep at 1. rewrite Hc. now rewrite IH.
Qed.

Lemma fragments_token_then (t rest : string) :
  free_of d t ->
  spec.fragments sep (t ++ String d rest) = t :: spec.fragments sep rest.
Proof.
  induction t as [|c t IH]; intros Hfree.
  - cbn. unfold sep at 1. now rewrite Ascii.eqb_refl.
  - apply find_char_cons in Hfree. destruct Hfree as [Hc Hfree].
    cbn. unfold sep at 1. rewrite Hc. now rewrite IH.
Qed.

Lemma split_on_joined (toks : list string) :
  Forall (fun t => t <> "" /\ free_of d t) toks ->
  spec.split_on sep (String.concat (String d "") toks) = toks.
Proof.
  unfold spec.split_on.
  induction 1 as [|t toks [Hne Hfree] Htoks IH]; [reflexivity|].
  destruct toks as [|t' toks].
  - cbn [String.concat]. rewrite fragments_of_token by assumption.
    cbn. destruct t; [contradiction | reflexivity].
  - change (String.concat (String d "") (t :: t' :: toks))
      with (t ++ String d (String.concat (String d "") (t' :: toks))).
    rewrite fragments_token_then by assumption.
    cbn [filter]. rewrite IH.
    destruct t; [contradiction | reflexivity].
Qed.

Lemma split_tokens_wellformed (s : string) :
  Forall (fun t => t <> "" /\ free_of d t) (split s d).
Proof.
  rewrite split_split_on. unfold spec.split_on.
  apply Forall_forall. intros t Ht. apply filter_In in Ht.
  destruct Ht as [Hin Hne].
  pose proof (fragments_free s) as Hfree. rewrite Forall_forall in Hfree.
  split; [|now apply Hfree].
  intros ->. discriminate.
Qed.

Lemma split_of_joined (toks : list string) :
  Forall (fun t => t <> "" /\ free_of d t) toks ->
  split (String.concat (String d "") toks) d = toks.
Proof. intros H. rewrite split_split_on. now apply split_on_joined. Qed.

End Tokens.

(* ===================================================================== *)
(** * Bounds of the edit distance *)
(* ===================================================================== *)

Section LevenshteinBounds.

Import fuzzy.

Lemma to_int_exact (n : nat) : fits_int n -> to_int n = Z.of_nat n.
Proof.
  unfold fits_int, to_int. intros H. cbv zeta.
  rewrite Z.mod_small by lia.
  destruct (Z.ltb_spec (Z.of_nat n) (2 ^ 31)); lia.
Qed.

Variables s1 s2 : string.

Lemma cell_bounds (i j : nat) :
  fits_int i -> fits_int j ->
  (Z.abs (Z.of_nat i - Z.of_nat j) <= cell s1 s2 i j
   <= Z.max (Z.of_nat i) (Z.of_nat j))%Z.
Proof.
  revert j. induction i as [|i IHi]; intros j Hi Hj.
  - cbn [cell]. rewrite to_int_exact by assumption. lia.
  - assert (Hi' : fits_int i) by (unfold fits_int in *; lia).
    induction j as [|j IHj].
    + rewrite cell_column_0, to_int_exact by assumption. lia.
    + assert (Hj' : fits_int j) by (unfold fits_int in *; lia).
      rewrite cell_step.
      pose proof (IHi j Hi' Hj') as H1.
      pose proof (IHi (S j) Hi' Hj) as H2.
      pose proof (IHj Hj') as H3.
      unfold min3.
      destruct (Ascii.eqb (char_at s1 i) (char_at s2 j)); lia.
Qed.

Lemma cell_zero (i j : nat) :
  fits_int i -> fits_int j ->
  cell s1 s2 i j = 0%Z ->
  i = j /\ forall k, k < i -> char_at s1 k = char_at s2 k.
Proof.
  revert j. induction i as [|i IHi]; intros j Hi Hj H0.
  - pose proof (cell_bounds 0 j Hi Hj) as Hb. rewrite H0 in Hb.
    split; [lia | intros k Hk; lia].
  - assert (Hi' : fits_int i) by (unfold fits_int in *; lia).
    destruct j as [|j].
    + pose proof (cell_bounds (S i) 0 Hi Hj) as Hb. rewrite H0 in Hb. lia.
    + assert (Hj' : fits_int j) by (unfold fits_int in *; lia).
      rewrite cell_step in H0.
      destruct (Ascii.eqb (char_at s1 i) (char_at s2 j)) eqn:Heq.
      * destruct (IHi j Hi' Hj' H0) as [-> Hk].
        apply Ascii.eqb_eq in Heq.
        split; [reflexivity|]. intros k Hlt.
        destruct (Nat.eq_dec k j) as [->|]; [exact Heq | apply Hk; lia].
      * pose proof (cell_bounds i j Hi' Hj') as H1.
        pose proof (cell_bounds i (S j) Hi' Hj) as H2.
        pose proof (cell_bounds (S i) j Hi Hj') as H3.
        unfold min3 in H0. lia.
Qed.

End LevenshteinBounds.

Lemma char_at_cons (c : ascii) (s : string) (k : nat) :
  fuzzy.char_at (String c s) (S k) = fuzzy.char_at s k.
Proof. reflexivity. Qed.

Lemma string_by_chars (a b : string) :
  String.length a = String.length b ->
  (forall k, k < String.length a -> fuzzy.char_at a k = fuzzy.char_at b k) ->
  a = b.
Proof.
  revert b. induction a as [|c a IH]; intros [|c' b] Hlen Hk;
    try discriminate; [reflexivity|].
  f_equal.
  - apply (Hk 0). cbn. lia.
  - apply IH; [cbn in Hlen; lia|].
    intros k Hlt. apply (Hk (S k)). cbn. lia.
Qed.

Lemma levenshtein_distance_bounds (a b : string) :
  fits_int (String.length a) -> fits_int (String.length b) ->
  (Z.abs (Z.of_nat (String.length a) - Z.of_nat (String.length b))
   <= fuzzy.levenshtein_distance a b
   <= Z.max (Z.of_nat (String.length a)) (Z.of_nat (String.length b)))%Z.
Proof.
  intros Ha Hb. rewrite levenshtein_distance_cell. now apply cell_bounds.
Qed.

Lemma levenshtein_distance_zero (a b : string) :
  fits_int (String.length a) -> fits_int (String.length b) ->
  (fuzzy.levenshtein_distance a b = 0%Z <-> a = b).
Proof.
  intros Ha Hb. rewrite levenshtein_distance_cell. split.
  - intros H0. destruct (cell_zero a b _ _ Ha Hb H0) as [Hlen Hk].
    now apply string_by_chars.
  - intros ->. apply cell_diagonal.
Qed.

(* ===================================================================== *)
(** * The contents of the index *)
(* ===================================================================== *)

Section SearchPath.

Variable w : World.

Lemma while_getline_snoc (delim : ascii) (iss : string) (acc : list string) :
  utils.while_getline (fun acc part => (acc ++ [part])%list) iss delim acc
  = (acc ++ getline_parts iss delim)%list.
Proof.
  unfold getline_parts.
  remember (String.length iss) as n eqn:Hn. revert iss acc Hn.
  induction n as [n IH] using lt_wf_ind; intros iss acc Hn.
  destruct iss as [|c rest].
  - rewrite !while_getline_unfold. cbn. now rewrite app_nil_r.
  - rewrite (while_getline_unfold _ (String c rest)).
    rewrite (while_getline_unfold _ (String c rest) delim []).
    cbn [utils.getline].
    destruct (utils.getline_extract (String c rest) delim) as [part rest']
      eqn:He.
    assert (Hlt : String.length rest' < n).
    { subst n. pose proof (getline_extract_shorter c rest delim) as H.
      now rewrite He in H. }
    rewrite (IH _ Hlt rest' (acc ++ [part])%list eq_refl).
    rewrite (IH _ Hlt rest' ([] ++ [part])%list eq_refl).
    cbn [app]. now rewrite <- app_assoc.
Qed.

(** A [getline] loop is a fold over the strings it reads. *)
Lemma while_getline_fold {A : Type} (body : A -> string -> A)
  (delim : ascii) (iss : string) (acc : A) :
  utils.while_getline body iss delim acc
  = fold_left body (getline_parts iss delim) acc.
Proof.
  remember (String.length iss) as n eqn:Hn. revert iss acc Hn.
  induction n as [n IH] using lt_wf_ind; intros iss acc Hn.
  destruct iss as [|c rest].
  - unfold getline_parts. rewrite !while_getline_unfold. reflexivity.
  - unfold getline_parts.
    rewrite (while_getline_unfold _ (String c rest)).
    rewrite (while_getline_unfold _ (String c rest) delim []).
    cbn [utils.getline].
    destruct (utils.getline_extract (String c rest) delim) as [part rest']
      eqn:He.
    assert (Hlt : String.length rest' < n).
    { subst n. pose proof (getline_extract_shorter c rest delim) as H.
      now rewrite He in H. }
    rewrite while_getline_snoc. cbn [app fold_left].
    now apply (IH _ Hlt).
Qed.

Lemma scan_entry_listed (path : string) (acc : list string * list string)
  (entry : dirent) :
  fuzzy.scan_entry w path acc entry
  = if listed w path entry
       && negb (existsb (String.eqb (d_name entry)) (snd acc))
    then ((fst acc ++ [d_name entry])%list, d_name entry :: snd acc)
    else acc.
Proof.
  unfold fuzzy.scan_entry, listed.
  destruct (Ascii.eqb _ _); [reflexivity|]. cbn [negb andb].
  destruct (d_type entry); try reflexivity.
  all: destruct (sys_stat w _) as [st|]; [|reflexivity].
  all: destruct (S_IXUSR st); [|reflexivity].
  all: destruct (existsb _ _); reflexivity.
Qed.

Lemma scan_entries_names (path : string) (entries : list dirent)
  (acc : list string * list string) :
  seen_agrees acc ->
  seen_agrees (fold_left (fuzzy.scan_entry w path) entries acc) /\
  forall name,
    In name (fst (fold_left (fuzzy.scan_entry w path) entries acc)) <->
    In name (fst acc) \/
    exists entry, In entry entries /\ d_name entry = name /\
                  listed w path entry = true.
Proof.
  revert acc. induction entries as [|e entries IH]; intros acc Hacc.
  - cbn. split; [exact Hacc|]. intros name. split; [now left|].
    intros [H|(e & [] & _)]. exact H.
  - cbn [fold_left]. rewrite scan_entry_listed.
    destruct (listed w path e) eqn:Hl; cbn [andb].
    + destruct (existsb (String.eqb (d_name e)) (snd acc)) eqn:Hex;
        cbn [negb].
      * destruct (IH acc Hacc) as [Hinv Hnames]. split; [exact Hinv|].
        intros name. rewrite Hnames. split.
        -- intros [H|(e' & Hin & Hn & Hl')]; [now left|].
           right. exists e'. split; [now right | now split].
        -- intros [H|(e' & [<-|Hin] & Hn & Hl')]; [now left | |].
           ++ left. apply Hacc. apply existsb_exists in Hex.
              destruct Hex as (x & Hx & Heq). apply String.eqb_eq in Heq.
              now subst.
           ++ right. exists e'. now repeat split.
      * assert (Hacc' : seen_agrees
                  ((fst acc ++ [d_name e])%list, d_name e :: snd acc)).
        { intros name. cbn [fst snd]. rewrite in_app_iff. cbn [In].
          specialize (Hacc name). tauto. }
        destruct (IH _ Hacc') as [Hinv Hnames]. split; [exact Hinv|].
        intros name. rewrite Hnames. cbn [fst]. rewrite in_app_iff.
        cbn [In]. split.
        -- intros [[H|[<-|[]]]|(e' & Hin & Hn & Hl')].
           ++ now left.
           ++ right. exists e. split; [now left | now split].
           ++ right. exists e'. split; [now right | now split].
        -- intros [H|(e' & [<-|Hin] & Hn & Hl')].
           ++ now left; left.
           ++ left. right. now left.
           ++ right. exists e'. now repeat split.
    + destruct (IH acc Hacc) as [Hinv Hnames]. split; [exact Hinv|].
      intros name. rewrite Hnames. split.
      * intros [H|(e' & Hin & Hn & Hl')]; [now left|].
        right. exists e'. split; [now right | now split].
      * intros [H|(e' & [<-|Hin] & Hn & Hl')]; [now left | congruence |].
        right. exists e'. now repeat split.
Qed.

Lemma scan_directories_names (paths : list string)
  (acc : list string * list string) :
  seen_agrees acc ->
  forall name,
    In name (fst (fold_left (fuzzy.scan_directory w) paths acc)) <->
    In name (fst acc) \/
    exists path entries entry,
      In path paths /\ utils.is_directory w path = true /\
      sys_opendir w path = Some entries /\ In entry entries /\
      d_name entry = name /\ listed w path entry = true.
Proof.
  revert acc. induction paths as [|p paths IH]; intros acc Hacc name.
  - cbn. split; [now left|]. intros [H|(p & _ & _ & [] & _)]. exact H.
  - cbn [fold_left].
    assert (Hstep :
      seen_agrees (fuzzy.scan_directory w acc p) /\
      forall name,
        In name (fst (fuzzy.scan_directory w acc p)) <->
        In name (fst acc) \/
        (utils.is_directory w p = true /\
         exists entries entry, sys_opendir w p = Some entries /\
           In entry entries /\ d_name entry = name /\
           listed w p entry = true)).
    { unfold fuzzy.scan_directory.
      destruct (utils.is_directory w p); cbn [negb].
      - destruct (sys_opendir w p) as [entries|].
        + destruct (scan_entries_names p entries acc Hacc) as [Hi Hn].
          split; [exact Hi|]. intros n. rewrite Hn. split.
          * intros [H|(e & He & Hd & Hl)]; [now left|].
            right. split; [reflexivity|]. now exists entries, e.
          * intros [H|(_ & es & e & [= <-] & He & Hd & Hl)]; [now left|].
            right. now exists e.
        + split; [exact Hacc|]. intros n. split; [now left|].
          intros [H|(_ & es & e & Ho & _)]; [exact H | discriminate].
      - split; [exact Hacc|]. intros n. split; [now left|].
        intros [H|(Hd & _)]; [exact H | discriminate]. }
    destruct Hstep as [Hinv Hn]. rewrite (IH _ Hinv name), Hn. split.
    + intros [[H|(Hd & es & e & Ho & He & Hname & Hl)]
             |(p' & es & e & Hp & Hrest)].
      * now left.
      * right. exists p, es, e. split; [now left | now repeat split].
      * right. exists p', es, e. split; [now right | exact Hrest].
    + intros [H|(p' & es & e & [<-|Hp] & Hd & Ho & He & Hname & Hl)].
      * now left; left.
      * left. right. split; [exact Hd|]. now exists es, e.
      * right. exists p', es, e. now repeat split.
Qed.

Lemma get_system_commands_exact (name : string) :
  In name (fuzzy.get_system_commands w) <->
  exists path_str,
    getenv_PATH w = Some path_str /\ on_search_path w path_str name.
Proof.
  unfold fuzzy.get_system_commands, on_search_path.
  destruct (getenv_PATH w) as [path_str|].
  - rewrite while_getline_fold.
    rewrite scan_directories_names by (intros n; cbn; tauto).
    cbn [fst In]. split.
    + intros [[]|H]. now exists path_str.
    + intros (ps & [= <-] & H). now right.
  - cbn. split; [intros [] | intros (ps & Hd & _); discriminate].
Qed.

End SearchPath.

Section Cache.

Context {sort_impl : StdSort}.

Lemma index_of_later (w w' : World) (cache : State) :
  index_of w' (loaded w cache) = index_of w cache.
Proof.
  unfold index_of, loaded.
  destruct (fuzzy.initialized cache) eqn:Hi; cbn; now rewrite ?Hi.
Qed.

Lemma loaded_later (w w' : World) (cache : State) :
  loaded w' (loaded w cache) = loaded w cache.
Proof.
  unfold loaded.
  destruct (fuzzy.initialized cache) eqn:Hi; cbn; now rewrite ?Hi.
Qed.

Lemma index_kept (w w' : World) (input input' : string) (d d' : Z)
  (cache : State) :
  exists ranked cache1 ranked',
    fuzzy.find_similar_commands w input d cache = Some (ranked, cache1) /\
    fuzzy.initialized cache1 = true /\
    fuzzy.find_similar_commands w' input' d' cache1 = Some (ranked', cache1) /\
    Permutation (within d' input' (index_of w cache)) ranked'.
Proof.
  destruct (find_similar_commands_spec w input d cache)
    as (ranked & Hr & _ & _).
  destruct (find_similar_commands_spec w' input' d' (loaded w cache))
    as (ranked' & Hr' & Hperm & _).
  rewrite loaded_later in Hr'. rewrite index_of_later in Hperm.
  exists ranked, (loaded w cache), ranked'.
  split; [exact Hr|]. split; [|split; [exact Hr' | exact Hperm]].
  unfold loaded. now destruct (fuzzy.initialized cache) eqn:Hi.
Qed.

End Cache.

(* ===================================================================== *)
(** * Overlapping predicates *)
(* ===================================================================== *)

Section CaseFolding.

Import utils.

Lemma to_lower_append (a b : string) :
  to_lower (a ++ b) = to_lower a ++ to_lower b.
Proof.
  induction a as [|c a IH]; [reflexivity|]. cbn. now rewrite IH.
Qed.

Lemma to_lower_length (s : string) :
  String.length (to_lower s) = String.length s.
Proof.
  induction s as [|c s IH]; [reflexivity|]. cbn. now rewrite IH.
Qed.

Lemma tolower_idempotent (c : ascii) : tolower (tolower c) = tolower c.
Proof.
  destruct c as [[] [] [] [] [] [] [] []]; vm_compute; reflexivity.
Qed.

Lemma to_lower_idempotent (s : string) : to_lower (to_lower s) = to_lower s.
Proof.
  induction s as [|c s IH]; [reflexivity|].
  cbn. now rewrite tolower_idempotent, IH.
Qed.

Lemma contains_to_lower (s sub : string) :
  contains s sub = true -> contains (to_lower s) (to_lower sub) = true.
Proof.
  rewrite !contains_iff. intros (pre & post & ->).
  exists (to_lower pre), (to_lower post). now rewrite !to_lower_append.
Qed.

End CaseFolding.

Section Overlap.

Context {sort_impl : StdSort}.
Variable w : World.

Import utils.

Lemma Permission_denied_elevates (cmd : Command) (c : State) :
  contains (output cmd) "Permission denied" = true ->
  SudoRule_match cmd c = Some (true, c).
Proof.
  intros H. rewrite SudoRule_match_spec.
  apply contains_to_lower in H.
  change (to_lower "Permission denied") with "permission denied" in H.
  now rewrite H.
Qed.

Lemma ChmodXRule_overlap (cmd : Command) (c c' c0 : State) :
  ChmodXRule_match cmd c = Some (true, c') ->
  SudoRule_match cmd c0 = Some (true, c0).
Proof.
  unfold ChmodXRule_match.
  destruct (contains (output cmd) "Permission denied") eqn:H;
    [|discriminate].
  intros _. now apply Permission_denied_elevates.
Qed.

Lemma PythonCommandRule_overlap (cmd : Command) (c c' c0 : State) :
  PythonCommandRule_match cmd c = Some (true, c') ->
  SudoRule_match cmd c0 = Some (true, c0).
Proof.
  unfold PythonCommandRule_match.
  destruct (contains (output cmd) "Permission denied") eqn:H;
    [|discriminate].
  intros _. now apply Permission_denied_elevates.
Qed.

Lemma not_found_no_command (cmd : Command) (c0 : State) :
  contains (output cmd) "command not found" = true ->
  NoCommandRule_match cmd c0 = Some (true, c0).
Proof. intros H. unfold NoCommandRule_match, ret. now rewrite H. Qed.

Lemma HasExistsScriptRule_overlap (cmd : Command) (c c' c0 : State) :
  HasExistsScriptRule_match w cmd c = Some (true, c') ->
  NoCommandRule_match cmd c0 = Some (true, c0).
Proof.
  unfold HasExistsScriptRule_match.
  destruct (contains (output cmd) "command not found") eqn:H;
    [|discriminate].
  intros _. now apply not_found_no_command.
Qed.

Lemma WrongHyphenBeforeSubcommandRule_overlap (cmd : Command)
  (c c' c0 : State) :
  WrongHyphenBeforeSubcommandRule_match cmd c = Some (true, c') ->
  NoCommandRule_match cmd c0 = Some (true, c0).
Proof.
  unfold WrongHyphenBeforeSubcommandRule_match.
  destruct (contains (output cmd) "command not found") eqn:H;
    [|discriminate].
  intros _. now apply not_found_no_command.
Qed.

Lemma MissingSpaceBeforeSubcommandRule_overlap (cmd : Command)
  (c c' c0 : State) :
  MissingSpaceBeforeSubcommandRule_match cmd c = Some (true, c') ->
  NoCommandRule_match cmd c0 = Some (true, c0).
Proof.
  unfold MissingSpaceBeforeSubcommandRule_match, ret.
  intros [= H _]. apply andb_prop in H. destruct H as [H _].
  now apply not_found_no_command.
Qed.

Lemma FuzzyCommandRule_overlap (cmd : Command) (c c' c0 : State) :
  FuzzyCommandRule_match w cmd c = Some (true, c') ->
  NoCommandRule_match cmd c0 = Some (true, c0).
Proof.
  rewrite FuzzyCommandRule_match_spec.
  destruct (contains (output cmd) "command not found") eqn:H;
    [|discriminate].
  intros _. now apply not_found_no_command.
Qed.

Lemma GitCommitAddRule_overlap (cmd : Command) (c c' c0 : State) :
  GitCommitAddRule_match cmd c = Some (true, c') ->
  contains (script cmd) "--amend" = false ->
  GitCommitAmendRule_match cmd c0 = Some (true, c0).
Proof.
  unfold GitCommitAddRule_match, GitCommitAmendRule_match, ret.
  intros [= H _] Ha. apply andb_prop in H. destruct H as [H _].
  now rewrite H, Ha.
Qed.

End Overlap.

(* ===================================================================== *)
(** * Candidates of a matching rule *)
(* ===================================================================== *)

Section Candidates.

Context {sort_impl : StdSort}.
Variable w : World.

Import utils.

(** Take the innermost test of the hypothesis apart. *)
Ltac split_innermost H :=
  match type of H with
  | context [match ?x with _ => _ end] =>
      lazymatch x with
      | context [match _ with _ => _ end] => fail
      | _ => destruct x eqn:?
      end
  end.

Ltac head_of t :=
  lazymatch t with
  | ?f _ => head_of f
  | _ => t
  end.

Ltac one_candidate H :=
  unfold second_token_fix in H;
  unfold bind, lift, ret in H;
  repeat first [ discriminate H
               | progress cbn beta iota in H
               | split_innermost H ];
  try (injection H as <- _; discriminate).

Lemma FuzzyCommandRule_nonempty (cmd : Command) :
  answers_nonempty cmd (FuzzyCommandRule w).
Proof.
  intros c c' l c'' Hm Hg. cbn [match_ get_new_command FuzzyCommandRule
    RULE_CLASS] in Hm, Hg.
  rewrite FuzzyCommandRule_match_spec in Hm.
  destruct (contains (output cmd) "command not found"); [|discriminate].
  destruct (script_parts cmd) as [|first rest] eqn:Hparts; [discriminate|].
  injection Hm as Hne <-. apply negb_true_iff in Hne.
  apply (within_monotone fuzzy.default_max_distance 3) in Hne;
    [|unfold fuzzy.default_max_distance; lia].
  destruct (find_similar_commands_spec w first 3 (loaded w c))
    as (ranked & Hr & Hperm & _).
  rewrite index_of_loaded in Hperm.
  unfold FuzzyCommandRule_get_new_command in Hg. rewrite Hparts in Hg.
  unfold bind, lift, vector_at in Hg. cbn [vempty negb nth_error] in Hg.
  rewrite Hr in Hg. injection Hg as <- _.
  rewrite <- (vempty_permutation _ _ Hperm) in Hne.
  destruct ranked as [|a ranked]; [discriminate|]. discriminate.
Qed.

Lemma corrections_nonempty (cmd : Command) :
  Forall (answers_nonempty cmd) (registered_rules w).
Proof.
  unfold registered_rules.
  repeat apply Forall_cons; try apply Forall_nil;
    try apply FuzzyCommandRule_nonempty.
  all: intros c c' l c'' _ Hg.
  all: match type of Hg with
       | get_new_command ?r _ _ = _ =>
           let h := head_of r in unfold h in Hg
       end.
  all: cbn [get_new_command RULE_CLASS] in Hg.
  all: match type of Hg with
       | ?f _ _ = _ => let h := head_of f in unfold h in Hg
       end.
  all: one_candidate Hg.
Qed.

End Candidates.

Section EmptyAnswer.

Context {S : Type}.

Lemma all_miss_first_match (rs : list (Rule S)) (cmd : Command) (s s' : S) :
  all_miss cmd rs s s' -> first_match rs cmd s = Some ([], s').
Proof.
  induction 1 as [s|r rs s s1 s2 Hm _ IH]; [reflexivity|].
  cbn. unfold bind. now rewrite Hm.
Qed.

Lemma first_match_empty (rs : list (Rule S)) (cmd : Command) (s s' : S) :
  Forall (answers_nonempty cmd) rs ->
  first_match rs cmd s = Some ([], s') ->
  all_miss cmd rs s s'.
Proof.
  intros Hne. revert s. induction Hne as [|r rs Hr _ IH]; intros s.
  - cbn. unfold ret. intros [= <-]. constructor.
  - cbn. unfold bind.
    destruct (match_ r cmd s) as [[[] s1]|] eqn:Hm; [| |discriminate].
    + intros Hg. now destruct (Hr s s1 [] s' Hm Hg).
    + intros Hrest. econstructor; [exact Hm | now apply IH].
Qed.

End EmptyAnswer.


Section Shadow.

Context {S : Type}.



End Shadow.




(* ===================================================================== *)
(** * The shape of the corrections *)
(* ===================================================================== *)

Section Prefixes.

Import utils.

Lemma drop_append (p rest : string) : drop (String.length p) (p ++ rest) = rest.
Proof. induction p as [|c p IH]; [now destruct rest | exact IH]. Qed.

Lemma substr_append (p rest : string) :
  substr (p ++ rest) (String.length p) = Some rest.
Proof.
  unfold substr. rewrite append_length.
  destruct (Nat.leb_spec (String.length p)
              (String.length p + String.length rest)); [|lia].
  now rewrite drop_append.
Qed.

Lemma prefixed_candidate (p x q : string) (cmd : Command) (c : State) :
  starts_with (script cmd) (p ++ x) = true ->
  exists rest,
    script cmd = p ++ rest /\
    (r <- lift (substr (script cmd) (String.length p)) ;; ret [q ++ r]) c
    = Some ([q ++ rest], c).
Proof.
  intros H. apply starts_with_append in H. destruct H as [tail Htail].
  exists (x ++ tail). rewrite Htail, append_assoc. split; [reflexivity|].
  unfold bind, lift. now rewrite substr_append.
Qed.

Ltac hit H :=
  unfold ret in H; injection H as H <-;
  repeat match goal with
         | H : _ && _ = true |- _ => apply andb_prop in H; destruct H
         end.

Lemma prefix_rules_rewrite : Forall rewrites_prefix prefix_rules.
Proof.
  unfold prefix_rules.
  repeat apply Forall_cons; try apply Forall_nil.
  all: intros cmd c c' Hm; cbn [match_ get_new_command RULE_CLASS] in *.
  - hit Hm. apply (prefixed_candidate "cs " "" "cd "), Hm.
  - hit Hm. now apply (prefixed_candidate "cat " "" "ls ").
  - hit Hm. now apply (prefixed_candidate "cp " "" "cp -r ").
  - hit Hm. now apply (prefixed_candidate "grep " "" "grep -r ").
  - hit Hm. now apply (prefixed_candidate "mkdir " "" "mkdir -p ").
  - hit Hm. now apply (prefixed_candidate "rm " "" "rm -rf ").
  - hit Hm. apply orb_prop in Hm. destruct Hm as [Hm|Hm].
    + apply String.eqb_eq in Hm. exists "". split; [exact Hm|].
      cbn [get_new_command SlLsRule RULE_CLASS].
      unfold SlLsRule_get_new_command. now rewrite Hm.
    + now apply (prefixed_candidate "sl" " " "ls").
  - hit Hm. now apply (prefixed_candidate "git clone " "git clone" "").
  - hit Hm. now apply (prefixed_candidate "$ " "" "").
  - hit Hm. now apply (prefixed_candidate "sudo " "" "").
Qed.

End Prefixes.

Section Retokenize.

Import utils.

Let sep := fun c : ascii => Ascii.eqb c " "%char.

Lemma fragments_nonempty (s : string) : spec.fragments sep s <> [].
Proof.
  destruct s as [|c s]; cbn; [discriminate|].
  destruct (sep c); [discriminate|].
  destruct (spec.fragments sep s); discriminate.
Qed.

Lemma fragments_append (a b : string) :
  spec.fragments sep (a ++ String " " b)
  = (spec.fragments sep a ++ spec.fragments sep b)%list.
Proof.
  induction a as [|c a IH]; [reflexivity|].
  cbn [append spec.fragments]. rewrite IH.
  destruct (sep c); [reflexivity|].
  pose proof (fragments_nonempty a) as Hne.
  destruct (spec.fragments sep a) as [|f fs]; [contradiction | reflexivity].
Qed.

Lemma split_append (a b : string) :
  split (a ++ " " ++ b) " " = (split a " " ++ split b " ")%list.
Proof.
  rewrite !split_split_on. unfold spec.split_on.
  change (" " ++ b) with (String " " b).
  fold sep. now rewrite fragments_append, filter_app.
Qed.

(** The tokens of a corrected command built by the loop
    [fixed += " " + parts[i]]: those of [fixed], then the parts. *)
Lemma split_append_parts (fixed : string) (parts : list string) (from : nat) :
  Forall token parts ->
  split (append_parts fixed parts from) " "
  = (split fixed " " ++ skipn from parts)%list.
Proof.
  intros Hparts. rewrite append_parts_concat.
  assert (Hrest : Forall token (skipn from parts)).
  { rewrite Forall_forall in *. intros t Ht. apply Hparts.
    rewrite <- (firstn_skipn from parts). apply in_or_app. now right. }
  destruct (skipn from parts) as [|y l]; cbn [String.concat].
  - now rewrite app_nil_r.
  - rewrite split_append. f_equal.
    now apply (split_of_joined " "%char (y :: l)).
Qed.

Lemma Command_ctor_tokens (s o : string) :
  Forall token (script_parts (Command_ctor s o)).
Proof. apply split_tokens_wellformed. Qed.

Lemma split_token (t : string) : token t -> split t " " = [t].
Proof.
  intros Ht. apply (split_of_joined " "%char [t]). now constructor.
Qed.

Lemma DryRule_retokenized (s o o' : string) (c c' : State) :
  DryRule_match (Command_ctor s o) c = Some (true, c') ->
  exists t rest fixed,
    script_parts (Command_ctor s o) = t :: t :: rest /\
    DryRule_get_new_command (Command_ctor s o) c' = Some ([fixed], c') /\
    script_parts (Command_ctor fixed o') = t :: rest.
Proof.
  pose proof (Command_ctor_tokens s o) as Htok.
  unfold DryRule_match, DryRule_get_new_command.
  destruct (script_parts (Command_ctor s o)) as [|t [|t' rest]] eqn:Hparts;
    try discriminate.
  unfold bind, lift, ret, vector_at. cbn [List.length Nat.ltb Nat.leb nth_error].
  intros [= Heq <-]. apply String.eqb_eq in Heq. subst t'.
  exists t, rest, (append_parts t (t :: t :: rest) 2).
  split; [reflexivity|]. split; [reflexivity|].
  cbn [script_parts Command_ctor].
  rewrite split_append_parts by exact Htok.
  rewrite split_token; [reflexivity|]. now inversion Htok.
Qed.

Lemma NoCommandRule_retokenized (s o o' : string) (c : State) :
  exists fixed,
    NoCommandRule_get_new_command (Command_ctor s o) c = Some ([fixed], c) /\
    script_parts (Command_ctor fixed o')
    = match script_parts (Command_ctor s o) with
      | [] => []
      | first :: rest =>
          match map_find NoCommandRule_typos first with
          | Some word => (split word " " ++ rest)%list
          | None => first :: rest
          end
      end.
Proof.
  pose proof (Command_ctor_tokens s o) as Htok.
  unfold NoCommandRule_get_new_command.
  destruct (script_parts (Command_ctor s o)) as [|first rest] eqn:Hparts.
  - exists s. split; [reflexivity|]. exact Hparts.
  - unfold bind, lift, ret, vector_at. cbn [vempty negb nth_error].
    destruct (map_find NoCommandRule_typos first) as [word|].
    + exists (append_parts word (first :: rest) 1). split; [reflexivity|].
      cbn [script_parts Command_ctor].
      now rewrite split_append_parts.
    + exists s. split; [reflexivity|]. exact Hparts.
Qed.

End Retokenize.

Section Occurrences.

Import utils.

Lemma rfind_char_last (s : string) (ch : ascii) :
  match rfind_char s ch with
  | Some k => exists pre post,
      s = pre ++ String ch post /\ String.length pre = k /\ free_of ch post
  | None => free_of ch s
  end.
Proof.
  unfold free_of. induction s as [|c rest IH]; [reflexivity|].
  cbn [rfind_char find_char].
  destruct (rfind_char rest ch) as [k|].
  - destruct IH as (pre & post & -> & <- & Hfree).
    now exists (String c pre), post.
  - destruct (Ascii.eqb_spec c ch) as [->|Hne].
    + now exists "", rest.
    + now rewrite IH.
Qed.

Lemma substring_prefix (pre post : string) :
  String.substring 0 (String.length pre) (pre ++ post) = pre.
Proof.
  induction pre as [|c pre IH]; cbn.
  - now destruct post.
  - now rewrite IH.
Qed.

Lemma TouchRule_path (cmd : Command) (c c' : State) :
  TouchRule_match cmd c = Some (true, c') ->
  exists path,
    script cmd = "touch " ++ path /\
    ((exists dir base,
        path = dir ++ "/" ++ base /\ free_of "/"%char base /\
        TouchRule_get_new_command cmd c'
        = Some (["mkdir -p " ++ dir ++ " && touch " ++ path], c'))
     \/ (free_of "/"%char path /\
         TouchRule_get_new_command cmd c' = Some ([script cmd], c'))).
Proof.
  unfold TouchRule_match, ret. intros [= Hm <-].
  apply andb_prop in Hm. destruct Hm as [Hm _].
  apply starts_with_append in Hm. destruct Hm as [path Hpath].
  exists path. split; [exact Hpath|].
  unfold TouchRule_get_new_command, bind, lift.
  rewrite Hpath.
  pose proof (substr_append "touch " path) as Hs.
  change (String.length "touch ") with 6 in Hs. rewrite Hs.
  pose proof (rfind_char_last path "/"%char) as Hlast.
  destruct (rfind_char path "/") as [k|].
  - left. destruct Hlast as (dir & base & Heq & Hlen & Hfree).
    exists dir, base. split; [exact Heq|]. split; [exact Hfree|].
    unfold substr_n. cbn [Nat.leb].
    rewrite Heq at 1. rewrite <- Hlen, substring_prefix. reflexivity.
  - right. split; [exact Hlast | reflexivity].
Qed.

Lemma drop_add (n : nat) (pre s : string) :
  drop (String.length pre + n) (pre ++ s) = drop n s.
Proof. induction pre as [|c pre IH]; [reflexivity | exact IH]. Qed.

(** [replace] at an occurrence puts the new text in its place. *)
Lemma replace_occurrence (pre sub post new : string) :
  replace (pre ++ sub ++ post) (String.length pre) (String.length sub) new
  = Some (pre ++ new ++ post).
Proof.
  unfold replace. rewrite append_length.
  destruct (Nat.leb_spec (String.length pre)
              (String.length pre + String.length (sub ++ post))); [|lia].
  now rewrite substring_prefix, drop_add, drop_append.
Qed.

Lemma find_replace (s sub new : string) (pos : nat) :
  find s sub = Some pos ->
  exists pre post,
    s = pre ++ sub ++ post /\ String.length pre = pos /\
    replace s pos (String.length sub) new = Some (pre ++ new ++ post).
Proof.
  intros H. destruct (find_occurrence _ _ _ H) as (pre & post & -> & <-).
  exists pre, post. split; [reflexivity|]. split; [reflexivity|].
  apply replace_occurrence.
Qed.

End Occurrences.

Section FirstOccurrence.

Import utils.

Lemma find_first_occurrence (s sub : string) (pos : nat) :
  find s sub = Some pos ->
  exists pre post, first_occurrence sub s pre post /\ String.length pre = pos.
Proof.
  intros H. pose proof (find_least_occurrence s sub) as Hl.
  rewrite H in Hl. destruct Hl as [(pre & post & Heq & Hlen) Hmin].
  exists pre, post. split; [|exact Hlen]. split; [exact Heq|].
  intros pre' post' Heq'. rewrite Hlen. now apply (Hmin pre' post').
Qed.

Lemma find_then_replace (s sub new : string) (n : nat) (c : State) :
  n = String.length sub ->
  forall pos, find s sub = Some pos ->
  exists pre post,
    first_occurrence sub s pre post /\
    (r <- lift (replace s pos n new) ;; ret [r]) c
    = Some ([pre ++ new ++ post], c).
Proof.
  intros -> pos H.
  destruct (find_first_occurrence _ _ _ H) as (pre & post & Hfirst & <-).
  exists pre, post. split; [exact Hfirst|].
  destruct Hfirst as [Heq _]. unfold bind, lift.
  rewrite Heq at 1. now rewrite replace_occurrence.
Qed.

Lemma GitTwoDashesRule_first_flag (cmd : Command) (c c' : State) :
  GitTwoDashesRule_match cmd c = Some (true, c') ->
  exists flag pre post,
    In flag ["amend"; "continue"; "abort"] /\
    first_occurrence (" -" ++ flag) (script cmd) pre post /\
    GitTwoDashesRule_get_new_command cmd c'
    = Some ([pre ++ " --" ++ flag ++ post], c').
Proof.
  unfold GitTwoDashesRule_match, ret. intros [= Hm <-].
  apply andb_prop in Hm. destruct Hm as [_ Hm].
  unfold GitTwoDashesRule_get_new_command. unfold contains in Hm.
  destruct (find (script cmd) " -amend") as [pos|] eqn:H1.
  { destruct (find_then_replace (script cmd) " -amend" " --amend" 7 c eq_refl _ H1)
      as (pre & post & Hf & Hr).
    exists "amend", pre, post. cbn. tauto. }
  destruct (find (script cmd) " -continue") as [pos|] eqn:H2.
  { destruct (find_then_replace (script cmd) " -continue" " --continue" 10 c eq_refl _ H2)
      as (pre & post & Hf & Hr).
    exists "continue", pre, post. cbn. tauto. }
  destruct (find (script cmd) " -abort") as [pos|] eqn:H3; [|discriminate].
  destruct (find_then_replace (script cmd) " -abort" " --abort" 7 c eq_refl _ H3)
    as (pre & post & Hf & Hr).
  exists "abort", pre, post. cbn. tauto.
Qed.

Lemma GitMainMasterRule_first_name (cmd : Command) (c c' : State) :
  GitMainMasterRule_match cmd c = Some (true, c') ->
  exists old new pre post,
    ((old = "master" /\ new = "main") \/
     (old = "main" /\ new = "master" /\
      contains (script cmd) "master" = false)) /\
    first_occurrence old (script cmd) pre post /\
    GitMainMasterRule_get_new_command cmd c' = Some ([pre ++ new ++ post], c').
Proof.
  unfold GitMainMasterRule_match, ret. intros [= Hm <-].
  unfold GitMainMasterRule_get_new_command.
  destruct (contains (script cmd) "master") eqn:Hmaster.
  - destruct (contains_find _ _ Hmaster) as [pos Hpos].
    destruct (find_then_replace (script cmd) "master" "main" 6 c eq_refl _ Hpos)
      as (pre & post & Hf & Hr).
    exists "master", "main", pre, post. split; [now left|].
    split; [exact Hf|]. unfold bind, lift in *. now rewrite Hpos.
  - cbn [andb orb] in Hm. apply andb_prop in Hm. destruct Hm as [Hmain _].
    destruct (contains_find _ _ Hmain) as [pos Hpos].
    destruct (find_then_replace (script cmd) "main" "master" 4 c eq_refl _ Hpos)
      as (pre & post & Hf & Hr).
    exists "main", "master", pre, post. split; [now right|].
    split; [exact Hf|]. unfold bind, lift in *. now rewrite Hpos.
Qed.

Lemma GitBranchDeleteRule_first_flag (cmd : Command) (c c' : State) :
  GitBranchDeleteRule_match cmd c = Some (true, c') ->
  exists pre post,
    first_occurrence "-d" (script cmd) pre post /\
    GitBranchDeleteRule_get_new_command cmd c'
    = Some ([pre ++ "-D" ++ post], c').
Proof.
  unfold GitBranchDeleteRule_match, ret. intros [= Hm <-].
  apply andb_prop in Hm. destruct Hm as [Hm _].
  assert (Hd : contains (script cmd) "-d" = true).
  { apply contains_iff. apply contains_iff in Hm.
    destruct Hm as (pre & post & ->).
    exists (pre ++ "git branch "), post.
    now rewrite !append_assoc. }
  destruct (contains_find _ _ Hd) as [pos Hpos].
  destruct (find_first_occurrence _ _ _ Hpos) as (pre & post & Hf & Hlen).
  exists pre, post. split; [exact Hf|].
  unfold GitBranchDeleteRule_get_new_command. rewrite Hpos.
  destruct Hf as [Heq _]. unfold bind, lift, substr_n, substr.
  cbn [Nat.leb]. rewrite Heq, <- Hlen.
  rewrite substring_prefix.
  rewrite !append_length.
  destruct (Nat.leb_spec (String.length pre + 2)
              (String.length pre
               + (String.length "-d" + String.length post)));
    [|cbn [String.length] in *; lia].
  rewrite drop_add. reflexivity.
Qed.

End FirstOccurrence.

(* ===================================================================== *)
(** * The captures of the two patterns *)
(* ===================================================================== *)

Section Captures.

Import utils regex.

Lemma match_here_literal (l : string) (p : list atom) (s : string)
  (n : nat) (groups : list string) :
  match_here (literal l ++ p)%list s = Some (n, groups) ->
  exists s' n',
    s = l ++ s' /\ match_here p s' = Some (n', groups) /\
    n = String.length l + n'.
Proof.
  revert s n. induction l as [|c l IH]; intros s n.
  - intros H. now exists s, n.
  - change (literal (String c l) ++ p)%list
      with (Lit c :: (literal l ++ p))%list.
    cbn [match_here]. destruct s as [|d rest]; [discriminate|].
    destruct (Ascii.eqb_spec c d) as [<-|_]; [|discriminate].
    destruct (match_here (literal l ++ p) rest) as [[n0 g0]|] eqn:Hrest;
      [|discriminate].
    intros [= <- <-]. destruct (IH _ _ Hrest) as (s' & n' & -> & Hp & ->).
    now exists s', n'.
Qed.

Lemma run_length_chars (cls : ascii -> bool) (s : string) (k : nat) :
  k <= run_length cls s ->
  all_chars cls (String.substring 0 k s) = true /\
  String.length (String.substring 0 k s) = k /\
  s = String.substring 0 k s ++ drop k s.
Proof.
  revert k. induction s as [|c s IH]; intros k; cbn.
  - intros Hk. assert (k = 0) by lia. subst. now cbn.
  - destruct (cls c) eqn:Hc.
    + destruct k as [|k]; [now cbn|]. intros Hk.
      destruct (IH k) as (Ha & Hl & Hs); [lia|].
      cbn. rewrite Hc, Ha, Hl. repeat split. now rewrite <- Hs.
    + intros Hk. assert (k = 0) by lia. subst. now cbn.
Qed.

Lemma match_here_group (cls : ascii -> bool) (s : string) (n : nat)
  (groups : list string) :
  match_here [GroupPlus cls] s = Some (n, groups) ->
  exists word,
    groups = [word] /\ word <> "" /\ all_chars cls word = true /\
    exists rest, s = word ++ rest.
Proof.
  cbn [match_here].
  destruct (run_length cls s) as [|k] eqn:Hrun; [discriminate|].
  intros [= _ <-].
  destruct (run_length_chars cls s (S k)) as (Ha & Hl & Hs); [lia|].
  exists (String.substring 0 (S k) s). split; [reflexivity|].
  split; [|split; [exact Ha | now exists (drop (S k) s)]].
  intros He. rewrite He in Hl. discriminate.
Qed.

(** The retries of a greedy [class+]: the continuation [f] succeeded after
    some number of characters between 1 and the length of the run. *)
Lemma plus_retries (f : nat -> option (nat * list string)) (k0 n : nat)
  (groups : list string) :
  (fix try (k : nat) : option (nat * list string) :=
     match k with
     | 0 => None
     | S k' =>
         match f k with
         | Some (n, groups) => Some (k + n, groups)
         | None => try k'
         end
     end) k0 = Some (n, groups) ->
  exists k n', 1 <= k <= k0 /\ f k = Some (n', groups) /\ n = k + n'.
Proof.
  induction k0 as [|k0 IH]; [discriminate|].
  destruct (f (S k0)) as [[n0 g0]|] eqn:Hf.
  - intros [= <- <-]. exists (S k0), n0. repeat split; [lia | lia | exact Hf].
  - intros H. destruct (IH H) as (k & n' & Hk & Hfk & ->).
    exists k, n'. repeat split; [lia | lia | exact Hfk].
Qed.

Lemma match_here_plus_group (ws cls : ascii -> bool) (s : string) (n : nat)
  (groups : list string) :
  match_here [Plus ws; GroupPlus cls] s = Some (n, groups) ->
  exists blank word,
    groups = [word] /\ blank <> "" /\ all_chars ws blank = true /\
    word <> "" /\ all_chars cls word = true /\
    exists rest, s = blank ++ word ++ rest.
Proof.
  intros H.
  apply (plus_retries (fun k => match_here [GroupPlus cls] (drop k s))
           (run_length ws s)) in H.
  destruct H as (k & n' & Hk & Hg & _).
  destruct (match_here_group _ _ _ _ Hg) as (word & -> & Hne & Ha & rest & Hr).
  destruct (run_length_chars ws s k) as (Hb & Hl & Hs); [lia|].
  exists (String.substring 0 k s), word.
  split; [reflexivity|]. split.
  { intros He. rewrite He in Hl. cbn in Hl. lia. }
  split; [exact Hb|]. split; [exact Hne|]. split; [exact Ha|].
  exists rest. now rewrite <- Hr.
Qed.

Lemma regex_search_suffix (p : list atom) (s : string) (m : list string) :
  regex_search p s = Some m ->
  exists pre s' n groups,
    s = pre ++ s' /\ match_here p s' = Some (n, groups) /\
    m = String.substring 0 n s' :: groups.
Proof.
  revert m. induction s as [|c s IH]; intros m; cbn [regex_search].
  - destruct (match_here p "") as [[n g]|] eqn:Hm; [|discriminate].
    intros [= <-]. now exists "", "", n, g.
  - destruct (match_here p (String c s)) as [[n g]|] eqn:Hm.
    + intros [= <-]. now exists "", (String c s), n, g.
    + intros H. destruct (IH _ H) as (pre & s' & n & g & -> & Hp & ->).
      now exists (String c pre), s', n, g.
Qed.

Lemma GitPushRule_captured_branch (cmd : Command) (c : State) :
  exists branch,
    GitPushRule_get_new_command cmd c
    = Some (["git push --set-upstream origin " ++ branch], c) /\
    (branch = "master" \/
     (branch <> "" /\ all_chars branch_class branch = true /\
      contains (output cmd) ("git push --set-upstream origin " ++ branch)
      = true)).
Proof.
  unfold GitPushRule_get_new_command.
  destruct (regex_search branch_regex (output cmd)) as [m|] eqn:Hs.
  2:{ exists "master". split; [reflexivity | now left]. }
  destruct (regex_search_suffix _ _ _ Hs) as (pre & s' & n & g & Ho & Hm & ->).
  unfold branch_regex in Hm.
  destruct (match_here_literal _ _ _ _ _ Hm) as (s2 & n' & -> & Hg & ->).
  destruct (match_here_group _ _ _ _ Hg) as (word & -> & Hne & Ha & rest & ->).
  exists word. split; [reflexivity|]. right.
  split; [exact Hne|]. split; [exact Ha|].
  apply contains_iff. exists pre, rest. rewrite Ho.
  now rewrite !append_assoc.
Qed.

Lemma GitNotCommandRule_captured_word (cmd : Command) (c : State) :
  exists fixed,
    GitNotCommandRule_get_new_command cmd c = Some ([fixed], c) /\
    (fixed = script cmd \/
     exists blank word,
       blank <> "" /\ all_chars space_class blank = true /\
       word <> "" /\ all_chars lower_class word = true /\
       contains (output cmd) ("The most similar command is" ++ blank ++ word)
       = true /\
       fixed = append_parts ("git " ++ word) (script_parts cmd) 2).
Proof.
  unfold GitNotCommandRule_get_new_command.
  destruct (regex_search did_you_mean (output cmd)) as [m|] eqn:Hs.
  2:{ exists (script cmd). split; [reflexivity | now left]. }
  destruct (regex_search_suffix _ _ _ Hs) as (pre & s' & n & g & Ho & Hm & ->).
  unfold did_you_mean in Hm.
  destruct (match_here_literal _ _ _ _ _ Hm) as (s2 & n' & -> & Hg & ->).
  destruct (match_here_plus_group _ _ _ _ _ Hg)
    as (blank & word & -> & Hb & Hab & Hw & Haw & rest & ->).
  exists (append_parts ("git " ++ word) (script_parts cmd) 2).
  split; [reflexivity|]. right. exists blank, word.
  repeat (split; [assumption|]). split; [|reflexivity].
  apply contains_iff. exists pre, rest. rewrite Ho.
  now rewrite !append_assoc.
Qed.

End Captures.

(* ===================================================================== *)
(** * Pipes *)
(* ===================================================================== *)

Section Pipe.

Lemma fgets_extract_append (count : nat) (stream : string) :
  fst (fgets_extract count stream) ++ snd (fgets_extract count stream)
  = stream.
Proof.
  revert stream. induction count as [|k IH]; intros stream.
  - now destruct stream.
  - destruct stream as [|c rest]; [reflexivity|]. cbn.
    destruct (Ascii.eqb c "010"); [reflexivity|]. cbn. now rewrite IH.
Qed.

Lemma fgets_extract_shorter (k : nat) (c : ascii) (rest : string) :
  String.length (snd (fgets_extract (S k) (String c rest)))
  < String.length (String c rest).
Proof.
  pose proof (fgets_extract_append (S k) (String c rest)) as H.
  apply (f_equal String.length) in H. rewrite append_length in H.
  cbn in *. destruct (Ascii.eqb c "010"); cbn in *; lia.
Qed.

Lemma free_of_append (ch : ascii) (a b : string) :
  free_of ch (a ++ b) <-> free_of ch a /\ free_of ch b.
Proof.
  assert (Hmap : forall x : option nat, option_map S x = None <-> x = None).
  { intros [x|]; cbn; split; congruence. }
  unfold free_of. induction a as [|c a IH]; cbn.
  - tauto.
  - destruct (Ascii.eqb c ch).
    + split; [discriminate | intros [H _]; discriminate].
    + now rewrite !Hmap, IH.
Qed.

Lemma c_str_free (s : string) : free_of Ascii.zero s -> c_str s = s.
Proof.
  unfold free_of. induction s as [|c s IH]; [reflexivity|]. cbn.
  destruct (Ascii.eqb c Ascii.zero); [discriminate|].
  destruct (utils.find_char s Ascii.zero); [discriminate|].
  intros _. now rewrite IH.
Qed.

Lemma read_pipe_free (k : nat) (stream result : string) :
  free_of Ascii.zero stream -> read_pipe k stream result = result ++ stream.
Proof.
  remember (String.length stream) as n eqn:Hn. revert stream result Hn.
  induction n as [n IH] using lt_wf_ind; intros stream result Hn Hfree.
  destruct stream as [|c rest]; simp read_pipe.
  - clear. induction result; cbn; congruence.
  - pose proof (fgets_extract_append (S k) (String c rest)) as Happ.
    pose proof (fgets_extract_shorter k c rest) as Hlt.
    destruct (fgets_extract (S k) (String c rest)) as [chunk unread].
    cbn [fst snd] in *.
    rewrite <- Happ in Hfree. apply free_of_append in Hfree.
    destruct Hfree as [Hchunk Hunread].
    rewrite (IH (String.length unread)); [|lia|reflexivity|exact Hunread].
    rewrite (c_str_free _ Hchunk), append_assoc. now rewrite Happ.
Qed.

Lemma execute_command_free (host : Host) (time : nat)
  (cmd stream : string) :
  sys_popen host time (c_str (cmd ++ " 2>&1")) = Some stream ->
  free_of Ascii.zero stream ->
  execute_command host time cmd = stream.
Proof.
  intros Hp Hfree. unfold execute_command. rewrite Hp.
  now rewrite read_pipe_free.
Qed.

End Pipe.

(* ===================================================================== *)
(** * The history file *)
(* ===================================================================== *)

Section History.

Import utils.

Lemma find_first_not_of_bound (s set : string) (st : nat) :
  find_first_not_of s set = Some st -> st < String.length s.
Proof.
  revert st. induction s as [|c s IH]; intros st; cbn; [discriminate|].
  destruct (char_in c set).
  - destruct (find_first_not_of s set) as [k|]; [|discriminate].
    intros [= <-]. specialize (IH k eq_refl). lia.
  - intros [= <-]. lia.
Qed.

Lemma free_of_substring (ch : ascii) (s : string) (pos n : nat) :
  free_of ch s -> free_of ch (String.substring pos n s).
Proof.
  unfold free_of. revert pos n.
  induction s as [|c s IH]; intros pos n; cbn.
  - now destruct pos, n.
  - destruct (Ascii.eqb c ch) eqn:Hc; [discriminate|].
    destruct (find_char s ch) eqn:Hs; [discriminate|]. intros _.
    destruct pos as [|pos].
    + destruct n as [|n]; [reflexivity|]. cbn. rewrite Hc.
      now rewrite (IH 0 n).
    + now apply IH.
Qed.

Lemma history_line_admissible (zsh : bool) (last_line : option string)
  (line : string) :
  (exists r, last_line = Some r /\ admissible zsh r) ->
  exists r, history_line zsh last_line line = Some r /\ admissible zsh r.
Proof.
  intros (last & -> & Hlast). unfold history_line.
  destruct (empty line); [now exists last|].
  assert (Hcmd : exists cmd,
            (if zsh then
               match rfind_char line ";" with
               | Some p => substr line (p + 1)
               | None => Some line
               end
             else Some line) = Some cmd /\
            (zsh = true -> free_of ";"%char cmd)).
  { destruct zsh; [|exists line; split; [reflexivity | discriminate]].
    pose proof (rfind_char_last line ";"%char) as Hl.
    destruct (rfind_char line ";") as [p|].
    - destruct Hl as (pre & post & -> & <- & Hfree).
      exists post. split; [|now intros _].
      change (String ";" post) with (";" ++ post).
      rewrite <- append_assoc.
      replace (String.length pre + 1) with (String.length (pre ++ ";"))
        by (rewrite append_length; reflexivity).
      apply substr_append.
    - exists line. split; [reflexivity | now intros _]. }
  destruct Hcmd as (cmd & -> & Hfree).
  cbv zeta.
  destruct (find_first_not_of cmd blanks) as [st|] eqn:Hst;
    [|now exists last].
  apply find_first_not_of_bound in Hst.
  unfold substr_n.
  destruct (Nat.leb_spec st (String.length cmd)); [|lia].
  set (cmd' := String.substring st _ cmd).
  destruct (empty cmd'); [now exists last|].
  destruct (contains cmd' "shit") eqn:Hshit; [now exists last|].
  destruct (contains cmd' "nano") eqn:Hnano; [now exists last|].
  exists cmd'. split; [reflexivity|]. right.
  split; [exact Hshit|]. split; [exact Hnano|].
  intros Hz. apply free_of_substring. now apply Hfree.
Qed.

Lemma get_last_command_admissible (host : Host) :
  exists r, get_last_command host = Some r /\ admissible (is_zsh host) r.
Proof.
  unfold get_last_command.
  destruct (getenv host "HOME") as [home|];
    [|exists ""; split; [reflexivity | now left]].
  destruct (sys_ifstream host _) as [contents|];
    [|exists ""; split; [reflexivity | now left]].
  apply (while_getline_invariant
           (fun acc => exists r, acc = Some r /\ admissible (is_zsh host) r)).
  - intros a part. apply history_line_admissible.
  - exists "". split; [reflexivity | now left].
Qed.

End History.

(* ===================================================================== *)
(** * The retry loop *)
(* ===================================================================== *)

Section Main.

Context {sort_impl : StdSort}.

Lemma get_corrected_commands_defined (w : World) (s o : string)
  (cache : State) :
  defined (get_corrected_commands (RuleManager_ctor w) (Command_ctor s o))
          cache.
Proof.
  set (cmd := Command_ctor s o). set (manager := RuleManager_ctor w).
  pose proof (registry_permutation w) as Hperm.
  assert (Htot : Forall (fun r => forall s0, defined (match_ r cmd) s0)
                        (rules manager)).
  { apply (Permutation_Forall Hperm).
    apply Forall_forall. intros r Hr c0.
    pose proof (predicates_total w s o c0) as Hall.
    rewrite Forall_forall in Hall. apply Hall. now right. }
  destruct (first_match_scan (rules manager) cmd cache 0 Htot)
    as (hit & cache' & calls & Hscan & Hd & _).
  unfold get_corrected_commands.
  destruct hit as [r|]; destruct Hd as [Hres _].
  - assert (Hin : In r (registered_rules w)).
    { apply (Permutation_in _ (Permutation_sym Hperm)).
      inversion Hscan as [pre post r' s1 s2 Heq _ _|]; subst.
      fold manager. rewrite Heq. apply in_elt. }
    assert (Hhit : exists c1, match_ r cmd c1 = Some (true, cache')).
    { inversion Hscan; subst; eauto. }
    destruct Hhit as [c1 Hhit].
    pose proof (correction_total w cmd) as Hcor.
    rewrite Forall_forall in Hcor.
    destruct (Hcor r Hin c1 cache' Hhit) as (l & c2 & Hl).
    exists l, c2. now rewrite Hres.
  - exists [], cache'. exact Hres.
Qed.

Lemma systems_app (a b : list event) :
  systems (a ++ b) = (systems a ++ systems b)%list.
Proof.
  induction a as [|e a IH]; [reflexivity|].
  destruct e; cbn; now rewrite IH.
Qed.

Lemma systems_announce (settings : Settings) (yes_mode : bool)
  (correction : string) :
  systems (announce settings yes_mode correction) = [].
Proof.
  unfold announce.
  destruct (negb yes_mode && require_confirmation settings); reflexivity.
Qed.

Lemma retry_loop_turn (host : Host) (settings : Settings)
  (yes_mode recursive : bool) (remaining attempts : nat) (cmd : Command)
  (cache : State) (time : nat) (trace : list event) :
  retry_loop host settings yes_mode recursive (S remaining) attempts cmd
    cache time trace
  = match get_corrected_commands (RuleManager_ctor (world_at host time))
            cmd cache with
    | None => None
    | Some ([], _) =>
        Some (if (attempts =? 0)%nat
              then (trace ++ [Stdout ("No shit to fix!" ++ newline)])%list
              else trace)
    | Some (correction :: _, cache') =>
        let trace1 :=
          (trace ++ announce settings yes_mode correction
                 ++ [System time (c_str correction)])%list in
        if (sys_system host time (c_str correction) =? 0)%Z
           || negb recursive
        then Some trace1
        else
          retry_loop host settings yes_mode recursive remaining
            (S attempts)
            (Command_ctor correction
               (execute_command host (S time) correction))
            cache' (S (S time))
            (trace1 ++ [Popen (S time)
                          (c_str (correction ++ " 2>&1")%string)])%list
    end.
Proof.
  cbn [retry_loop].
  destruct (get_corrected_commands _ cmd cache) as [[[|c l] cache']|];
    reflexivity.
Qed.

Lemma retry_loop_bounded (host : Host) (settings : Settings)
  (yes_mode recursive : bool) (remaining attempts : nat) (s o : string)
  (cache : State) (time : nat) (trace : list event) :
  exists trace',
    retry_loop host settings yes_mode recursive remaining attempts
      (Command_ctor s o) cache time trace = Some trace' /\
    List.length (systems trace')
    <= List.length (systems trace) + remaining /\
    (recursive = false ->
     List.length (systems trace') <= List.length (systems trace) + 1).
Proof.
  revert attempts s o cache time trace.
  induction remaining as [|remaining IH];
    intros attempts s o cache time trace.
  - exists trace. cbn. repeat split; lia.
  - rewrite retry_loop_turn.
    destruct (get_corrected_commands_defined (world_at host time) s o cache)
      as (corrections & cache' & ->).
    destruct corrections as [|correction rest]; cbv zeta.
    + eexists. split; [reflexivity|].
      destruct (attempts =? 0)%nat; rewrite ?systems_app, ?length_app; cbn;
        split; intros; lia.
    + destruct ((sys_system host time (c_str correction) =? 0)%Z
                || negb recursive) eqn:Hstop.
      * eexists. split; [reflexivity|].
        rewrite !systems_app, systems_announce. cbn.
        rewrite !length_app. cbn. split; intros; lia.
      * destruct (IH (S attempts) correction
                    (execute_command host (S time) correction) cache'
                    (S (S time))
                    ((trace ++ announce settings yes_mode correction
                        ++ [System time (c_str correction)])
                       ++ [Popen (S time)
                             (c_str (correction ++ " 2>&1")%string)])%list)
          as (trace' & Hr & Hle & _).
        exists trace'. split; [exact Hr|].
        rewrite !systems_app, systems_announce in Hle. cbn in Hle.
        rewrite !length_app in Hle. cbn in Hle.
        split; [lia|]. intros ->.
        rewrite orb_true_r in Hstop. discriminate.
Qed.

Lemma parse_args_recursive (args : list string) (yes_mode recursive : bool)
  (yes_mode' : bool) :
  parse_args args yes_mode recursive = Run yes_mode' true ->
  recursive = true \/ In "-r" args.
Proof.
  revert yes_mode recursive.
  induction args as [|arg args IH]; intros yes_mode recursive; cbn.
  - intros [= _ ->]. now left.
  - destruct (String.eqb arg "--yeah" || String.eqb arg "-y"
              || String.eqb arg "--hard").
    { intros H. destruct (IH _ _ H); tauto. }
    destruct (String.eqb_spec arg "-r") as [->|_]; [tauto|].
    destruct (String.eqb arg "--alias"); [discriminate|].
    destruct (String.eqb arg "--version"); [discriminate|].
    intros H. destruct (IH _ _ H); tauto.
Qed.

Lemma main_bounded_retries (host : Host) (argv : list string) :
  exists status trace,
    main host argv = Some (status, trace) /\
    (status = 0%Z \/ status = 1%Z) /\
    List.length (systems trace) <= 10 /\
    (~ In "-r" (tl argv) -> List.length (systems trace) <= 1).
Proof.
  unfold main.
  destruct (parse_args (tl argv) false false) as [yes_mode recursive|text]
    eqn:Hargs.
  2:{ exists 0%Z, [Stdout text]. cbn. repeat split; auto; lia. }
  destruct (get_last_command_admissible host) as (last_cmd & -> & _).
  destruct (utils.empty last_cmd).
  { exists 1%Z, []. cbn. repeat split; auto; lia. }
  destruct (retry_loop_bounded host (Settings_instance host) yes_mode
              recursive (max_attempts recursive) 0 last_cmd
              (execute_command host 0 last_cmd) fuzzy.fresh_cache 1
              [Popen 0 (c_str (last_cmd ++ " 2>&1"))])
    as (trace & -> & Hle & Hone).
  exists 0%Z, trace. split; [reflexivity|]. split; [now left|].
  cbn [systems List.length] in Hle, Hone. split.
  - destruct recursive; cbn in Hle; lia.
  - intros Hno. destruct recursive; [|cbn in Hle; lia].
    apply parse_args_recursive in Hargs.
    destruct Hargs as [Hf|Hin]; [discriminate | contradiction].
Qed.

Lemma announce_no_system (settings : Settings) (yes_mode : bool)
  (correction : string) (t : nat) (command : string) :
  ~ In (System t command) (announce settings yes_mode correction).
Proof.
  unfold announce.
  destruct (negb yes_mode && require_confirmation settings); cbn;
    intuition discriminate.
Qed.

Lemma retry_loop_stops (host : Host) (settings : Settings)
  (yes_mode recursive : bool) (remaining attempts : nat) (cmd : Command)
  (cache : State) (time : nat) (trace trace' : list event) :
  all_failed host trace ->
  retry_loop host settings yes_mode recursive remaining attempts cmd cache
    time trace = Some trace' ->
  forall pre t command post,
    trace' = (pre ++ System t command :: post)%list ->
    post <> [] ->
    sys_system host t command <> 0%Z.
Proof.
  revert attempts cmd cache time trace.
  induction remaining as [|remaining IH];
    intros attempts cmd cache time trace Hfailed.
  - cbn. intros [= <-] pre t command post -> _.
    apply Hfailed, in_elt.
  - rewrite retry_loop_turn.
    destruct (get_corrected_commands _ cmd cache)
      as [[corrections cache']|]; [|discriminate].
    destruct corrections as [|correction rest]; cbv zeta.
    + intros Hsome pre t command post Heq _. apply Hfailed.
      destruct (attempts =? 0)%nat; injection Hsome as <-.
      * assert (Hin : In (System t command)
                        (pre ++ System t command :: post))
          by apply in_elt.
        rewrite <- Heq in Hin.
        apply in_app_or in Hin. destruct Hin as [Hin|[Hin|[]]];
          [exact Hin | discriminate].
      * rewrite Heq. apply in_elt.
    + destruct ((sys_system host time (c_str correction) =? 0)%Z
                || negb recursive) eqn:Hstop.
      * intros Hsome pre t command post Heq Hpost. apply Hfailed.
        assert (Ht : trace'
                     = (trace ++ announce settings yes_mode correction
                              ++ [System time (c_str correction)])%list)
          by congruence.
        clear Hsome. rewrite Ht in Heq. clear Ht.
        destruct (exists_last Hpost) as (post' & last & ->).
        rewrite app_assoc in Heq.
        change (pre ++ System t command :: post' ++ [last])%list
          with (pre ++ (System t command :: post') ++ [last])%list in Heq.
        rewrite (app_assoc pre) in Heq.
        apply app_inj_tail in Heq. destruct Heq as [Heq _].
        assert (Hin : In (System t command)
                         (trace ++ announce settings yes_mode correction)).
        { rewrite Heq. apply in_elt. }
        apply in_app_or in Hin. destruct Hin as [Hin|Hin]; [exact Hin|].
        now apply announce_no_system in Hin.
      * apply IH. intros t command Hin.
        apply orb_false_iff in Hstop. destruct Hstop as [Hres _].
        apply Z.eqb_neq in Hres.
        apply in_app_or in Hin. destruct Hin as [Hin|[Hin|[]]];
          [|discriminate].
        apply in_app_or in Hin. destruct Hin as [Hin|Hin];
          [now apply Hfailed|].
        apply in_app_or in Hin. destruct Hin as [Hin|[Hin|[]]].
        -- now apply announce_no_system in Hin.
        -- now injection Hin as <- <-.
Qed.

Lemma main_stops_at_success (host : Host) (argv : list string)
  (status : Z) (trace pre post : list event) (t : nat) (command : string) :
  main host argv = Some (status, trace) ->
  trace = (pre ++ System t command :: post)%list ->
  post <> [] ->
  sys_system host t command <> 0%Z.
Proof.
  unfold main.
  destruct (parse_args (tl argv) false false) as [yes_mode recursive|text].
  2:{ intros [= _ <-] Heq _. destruct pre as [|e [|e' pre]]; discriminate. }
  destruct (get_last_command host) as [last_cmd|]; [|discriminate].
  destruct (utils.empty last_cmd).
  { intros [= _ <-] Heq _. destruct pre; discriminate. }
  destruct (retry_loop _ _ _ _ _ _ _ _ _ _) as [trace0|] eqn:Hloop;
    [|discriminate].
  intros [= _ <-]. revert pre t command post.
  apply (retry_loop_stops _ _ _ _ _ _ _ _ _ _ _ ) with (2 := Hloop).
  intros t command [Hin|[]]. discriminate.
Qed.

End Main.

(* ===================================================================== *)
(** * Corrections that settle *)
(* ===================================================================== *)

Section Settled.

Import utils.

Lemma contains_appended (s a sub b : string) :
  contains (s ++ a ++ sub ++ b) sub = true.
Proof.
  apply contains_iff. exists (s ++ a), b. now rewrite !append_assoc.
Qed.

Lemma ends_with_appended (s suffix : string) :
  ends_with (s ++ suffix) suffix = true.
Proof. apply ends_with_iff. now exists s. Qed.

Ltac own_candidate :=
  intros cmd c l c' fixed o c0 Hg Hin;
  cbn [get_new_command match_ RULE_CLASS] in *;
  unfold ret in Hg; injection Hg as <- _;
  destruct Hin as [<-|[]]; unfold ret; cbn [script Command_ctor].

Lemma rules_settle : Forall settles settled_rules.
Proof.
  unfold settled_rules. repeat apply Forall_cons; try apply Forall_nil.
  - unfold GitCommitAmendRule. own_candidate.
    unfold GitCommitAmendRule_match, ret. cbn [script Command_ctor].
    pose proof (contains_appended (script cmd) " " "--amend" "") as H.
    change (" " ++ "--amend" ++ "") with " --amend" in H.
    now rewrite H, andb_false_r.
  - unfold PythonExecuteRule. own_candidate.
    unfold PythonExecuteRule_match, ret. cbn [script Command_ctor].
    rewrite ends_with_appended. now rewrite andb_false_r.
  - unfold JavacRule. own_candidate.
    unfold JavacRule_match, ret. cbn [script Command_ctor].
    rewrite ends_with_appended. now rewrite andb_false_r.
  - unfold GoRunRule. own_candidate.
    unfold GoRunRule_match, ret. cbn [script Command_ctor].
    rewrite ends_with_appended. now rewrite andb_false_r.
  - unfold Cpp11Rule. own_candidate.
    unfold Cpp11Rule_match, ret. cbn [script Command_ctor].
    pose proof (contains_appended (script cmd) " " "-std=" "c++11") as H.
    change (" " ++ "-std=" ++ "c++11") with " -std=c++11" in H.
    now rewrite H, andb_false_r.
  - unfold LsAllRule. own_candidate. reflexivity.
  - unfold LsLahRule. own_candidate. reflexivity.
  - unfold CargoRule. own_candidate. reflexivity.
  - unfold CdParentRule. own_candidate. reflexivity.
Qed.

End Settled.

Section Java.

Import utils.

Lemma substring_length (n m : nat) (s : string) :
  n + m <= String.length s -> String.length (String.substring n m s) = m.
Proof.
  revert n m. induction s as [|c s IH]; intros n m; cbn.
  - intros H. assert (n = 0 /\ m = 0) as [-> ->] by lia. reflexivity.
  - intros H. destruct n as [|n].
    + destruct m as [|m]; [reflexivity|]. cbn. rewrite IH; lia.
    + apply IH. lia.
Qed.

Lemma JavaRule_last_five (cmd : Command) (c c' : State) :
  JavaRule_match cmd c = Some (true, c') ->
  exists kept dropped,
    script cmd = kept ++ dropped /\
    String.length dropped = 5 /\
    JavaRule_get_new_command cmd c' = Some ([kept], c') /\
    (ends_with (script cmd) ".java" = true -> dropped = ".java").
Proof.
  unfold JavaRule_match.
  destruct (starts_with (script cmd) "java ") eqn:Hs; [|discriminate].
  intros Hm.
  assert (Hc' : c' = c).
  { unfold bind, lift, ret in Hm.
    destruct (vector_back (script_parts cmd)); [|discriminate].
    now injection Hm as _ <-. }
  subst c'. clear Hm.
  apply starts_with_length in Hs. cbn [String.length] in Hs.
  set (n := String.length (script cmd) - 5).
  exists (String.substring 0 n (script cmd)),
         (String.substring n 5 (script cmd)).
  split; [|split; [|split]].
  - pose proof (substring_split n (script cmd)) as H.
    replace (String.length (script cmd) - n) with 5 in H by (unfold n; lia).
    symmetry. apply H. unfold n. lia.
  - apply substring_length. unfold n. lia.
  - unfold JavaRule_get_new_command, bind, lift, substr_n. cbv zeta.
    destruct (Nat.leb_spec 5 (String.length (script cmd))); [|lia].
    reflexivity.
  - unfold ends_with. intros H. apply andb_prop in H. destruct H as [_ H].
    apply String.eqb_eq in H. exact H.
Qed.

End Java.

(* ===================================================================== *)
(** * The trimming of the history lines *)
(* ===================================================================== *)

Section Trim.

Import utils.

Variable set : string.

Lemma find_first_not_of_split (s : string) (st : nat) :
  find_first_not_of s set = Some st ->
  exists pre c rest,
    s = pre ++ String c rest /\ String.length pre = st /\
    char_in c set = false.
Proof.
  revert st. induction s as [|c s IH]; intros st; cbn; [discriminate|].
  destruct (char_in c set) eqn:Hc.
  - destruct (find_first_not_of s set) as [k|]; [|discriminate].
    intros [= <-]. destruct (IH k eq_refl) as (pre & c' & rest & -> & <- & H).
    now exists (String c pre), c', rest.
  - intros [= <-]. now exists "", c, s.
Qed.

Lemma find_last_not_of_head (c : ascii) (rest : string) :
  char_in c set = false ->
  exists k, find_last_not_of (String c rest) set = Some k /\
            k <= String.length rest.
Proof.
  intros Hc. cbn. rewrite Hc.
  assert (Hb : forall s k, find_last_not_of s set = Some k ->
                           k < String.length s).
  { induction s as [|d s IH]; intros k; cbn; [discriminate|].
    destruct (find_last_not_of s set) as [j|].
    - intros [= <-]. specialize (IH j eq_refl). lia.
    - destruct (char_in d set); [discriminate|]. intros [= <-]. lia. }
  destruct (find_last_not_of rest set) as [j|] eqn:Hj.
  - exists (S j). split; [reflexivity|]. apply Hb in Hj. lia.
  - exists 0. split; [reflexivity | lia].
Qed.

Lemma find_last_not_of_append (pre body : string) (k : nat) :
  find_last_not_of body set = Some k ->
  find_last_not_of (pre ++ body) set = Some (String.length pre + k).
Proof.
  intros H. induction pre as [|c pre IH]; [exact H|].
  cbn. now rewrite IH.
Qed.

Lemma find_last_not_of_cut (s : string) (k : nat) :
  find_last_not_of s set = Some k ->
  find_last_not_of (String.substring 0 (S k) s) set = Some k /\
  String.length (String.substring 0 (S k) s) = S k.
Proof.
  revert k. induction s as [|c s IH]; intros k; cbn; [discriminate|].
  destruct (find_last_not_of s set) as [j|] eqn:Hj.
  - intros [= <-]. destruct (IH j eq_refl) as [Hl Hlen].
    cbn in Hl, Hlen. rewrite Hl, Hlen. split; reflexivity.
  - destruct (char_in c set) eqn:Hc; [discriminate|]. intros [= <-].
    assert (H0 : String.substring 0 0 s = "") by now destruct s.
    rewrite H0. cbn. split; reflexivity.
Qed.

Lemma substring_skip (pre body : string) (m : nat) :
  String.substring (String.length pre) m (pre ++ body)
  = String.substring 0 m body.
Proof. induction pre as [|c pre IH]; [reflexivity | exact IH]. Qed.

(** The trimming of [get_last_command]: from the first to the last
    character that is not in the set. *)
Lemma trim_between (cmd : string) (st : nat) :
  fits_size_t (String.length cmd) ->
  find_first_not_of cmd set = Some st ->
  exists r,
    substr_n cmd st
      (Z.to_nat ((size_t_of (find_last_not_of cmd set) - Z.of_nat st + 1)
                 mod 2 ^ 64))
    = Some r /\
    find_first_not_of r set = Some 0 /\
    find_last_not_of r set = Some (String.length r - 1).
Proof.
  intros Hfit Hst.
  destruct (find_first_not_of_split _ _ Hst) as (pre & c & rest & -> & <- & Hc).
  destruct (find_last_not_of_head c rest Hc) as (k & Hk & Hle).
  rewrite (find_last_not_of_append pre _ _ Hk).
  unfold fits_size_t in Hfit. rewrite append_length in Hfit.
  cbn [String.length] in Hfit. cbn [size_t_of].
  replace ((Z.of_nat (String.length pre + k) - Z.of_nat (String.length pre)
            + 1) mod 2 ^ 64)%Z with (Z.of_nat (S k)).
  2:{ rewrite Z.mod_small; lia. }
  rewrite Nat2Z.id. unfold substr_n. rewrite append_length.
  destruct (Nat.leb_spec (String.length pre)
              (String.length pre + String.length (String c rest))); [|lia].
  rewrite substring_skip.
  exists (String.substring 0 (S k) (String c rest)). split; [reflexivity|].
  destruct (find_last_not_of_cut _ _ Hk) as [Hl Hlen].
  split.
  - cbn. now rewrite Hc.
  - rewrite Hl, Hlen. f_equal. lia.
Qed.

End Trim.

Section HistoryLines.

Lemma getline_extract_lengths (s : string) (d : ascii) :
  String.length (fst (utils.getline_extract s d))
  + String.length (snd (utils.getline_extract s d)) <= String.length s.
Proof.
  induction s as [|c s IH]; cbn; [lia|].
  destruct (Ascii.eqb c d); cbn; lia.
Qed.

Lemma getline_parts_cons (c : ascii) (rest : string) (d : ascii) :
  getline_parts (String c rest) d
  = fst (utils.getline_extract (String c rest) d)
    :: getline_parts (snd (utils.getline_extract (String c rest) d)) d.
Proof.
  unfold getline_parts.
  rewrite (while_getline_unfold _ (String c rest)).
  cbn [utils.getline].
  destruct (utils.getline_extract (String c rest) d) as [part rest'].
  cbn [fst snd]. now rewrite while_getline_snoc.
Qed.

Lemma getline_parts_lengths (s : string) (d : ascii) :
  Forall (fun part => String.length part <= String.length s)
         (getline_parts s d).
Proof.
  remember (String.length s) as n eqn:Hn. revert s Hn.
  induction n as [n IH] using lt_wf_ind; intros s Hn.
  destruct s as [|c rest].
  - unfold getline_parts. rewrite while_getline_unfold. constructor.
  - rewrite getline_parts_cons.
    pose proof (getline_extract_lengths (String c rest) d) as Hl.
    pose proof (getline_extract_shorter c rest d) as Hlt.
    constructor; [lia|].
    eapply Forall_impl;
      [|apply (IH _ ltac:(subst n; exact Hlt) _ eq_refl)].
    cbn beta. intros part Hp. lia.
Qed.

End HistoryLines.

Section TrimmedHistory.

Import utils.

Lemma history_line_trimmed (zsh : bool) (last_line : option string)
  (line : string) :
  fits_size_t (String.length line) ->
  (exists r, last_line = Some r /\ trimmed r) ->
  exists r, history_line zsh last_line line = Some r /\ trimmed r.
Proof.
  intros Hfit (last & -> & Hlast). unfold history_line.
  destruct (empty line); [now exists last|].
  assert (Hcmd : exists cmd,
            (if zsh then
               match rfind_char line ";" with
               | Some p => substr line (p + 1)
               | None => Some line
               end
             else Some line) = Some cmd /\
            String.length cmd <= String.length line).
  { destruct zsh; [|exists line; split; [reflexivity | lia]].
    pose proof (rfind_char_last line ";"%char) as Hl.
    destruct (rfind_char line ";") as [p|].
    - destruct Hl as (pre & post & -> & <- & _).
      exists post. split.
      + change (String ";" post) with (";" ++ post).
        rewrite <- append_assoc.
        replace (String.length pre + 1) with (String.length (pre ++ ";"))
          by (rewrite append_length; reflexivity).
        apply substr_append.
      + rewrite append_length. cbn. lia.
    - exists line. split; [reflexivity | lia]. }
  destruct Hcmd as (cmd & -> & Hlen).
  cbv zeta.
  destruct (find_first_not_of cmd blanks) as [st|] eqn:Hst;
    [|now exists last].
  assert (Hfit' : fits_size_t (String.length cmd))
    by (unfold fits_size_t in *; lia).
  destruct (trim_between blanks cmd st Hfit' Hst) as (r & -> & Hf & Hl).
  destruct (negb (empty r) && negb (contains r "shit")
            && negb (contains r "nano")); [|now exists last].
  exists r. split; [reflexivity|]. right. now split.
Qed.

Lemma get_last_command_is_trimmed (host : Host) (r : string) :
  files_fit host ->
  get_last_command host = Some r ->
  trimmed r.
Proof.
  intros Hfit. unfold get_last_command.
  destruct (getenv host "HOME") as [home|];
    [|intros [= <-]; now left].
  destruct (sys_ifstream host _) as [contents|] eqn:Hfile;
    [|intros [= <-]; now left].
  apply Hfit in Hfile.
  rewrite while_getline_fold.
  pose proof (getline_parts_lengths contents "010"%char) as Hparts.
  assert (Hinv : forall parts acc,
            Forall (fun part => String.length part
                                <= String.length contents) parts ->
            (exists r0, acc = Some r0 /\ trimmed r0) ->
            exists r0,
              fold_left (history_line (is_zsh host)) parts acc = Some r0 /\
              trimmed r0).
  { induction parts as [|part parts IH]; intros acc Hall Hacc; [exact Hacc|].
    inversion Hall; subst. cbn [fold_left]. apply IH; [assumption|].
    apply history_line_trimmed; [|exact Hacc].
    unfold fits_size_t in *. lia. }
  destruct (Hinv _ (Some "") Hparts) as (r0 & Hr0 & Ht).
  { exists "". split; [reflexivity | now left]. }
  rewrite Hr0. now intros [= <-].
Qed.

End TrimmedHistory.

(* ===================================================================== *)
(** * Further properties of the program *)
(* ===================================================================== *)

(* --------------------------------------------------------------------- *)
(** ** The string utilities *)
(* --------------------------------------------------------------------- *)

(** X1: [utils::starts_with(str, prefix)] holds exactly when [str] is
    [prefix] followed by some rest. *)
Theorem starts_with_is_prefix (str p : string) :
  utils.starts_with str p = true <-> exists rest, str = p ++ rest.
Proof. apply starts_with_iff. Qed.

(** X2: [utils::contains(str, substr)] holds exactly when [substr] occurs
    in [str]; the position [std::string::find] gives is that of the
    leftmost occurrence. *)
Theorem contains_is_occurrence (str sub : string) :
  (utils.contains str sub = true <->
   exists pre post, str = pre ++ sub ++ post) /\
  (forall pos,
     utils.find str sub = Some pos ->
     (exists pre post,
        str = pre ++ sub ++ post /\ String.length pre = pos) /\
     (forall pre post,
        str = pre ++ sub ++ post -> pos <= String.length pre)).
Proof.
  split; [apply contains_iff|].
  intros pos Hpos. pose proof (find_least_occurrence str sub) as H.
  now rewrite Hpos in H.
Qed.

(** X3: [utils::ends_with(str, suffix)] holds exactly when [str] is some
    text followed by [suffix]. *)
Theorem ends_with_is_suffix (str suffix : string) :
  utils.ends_with str suffix = true <-> exists pre, str = pre ++ suffix.
Proof. apply ends_with_iff. Qed.

(** X4: every token that [utils::split(str, delim)] returns is non-empty
    and holds no delimiter. *)
Theorem split_tokens (str : string) (delim : ascii) :
  Forall (fun t => t <> "" /\ free_of delim t) (utils.split str delim).
Proof. apply split_tokens_wellformed. Qed.

(** X5: [utils::split] undoes a join: tokens that are non-empty and hold
    no delimiter, joined by single delimiters, are split into the same
    tokens. *)
Theorem split_inverts_join (delim : ascii) (toks : list string) :
  Forall (fun t => t <> "" /\ free_of delim t) toks ->
  utils.split (String.concat (String delim "") toks) delim = toks.
Proof. apply split_of_joined. Qed.

Lemma split_inverts_join_witness :
  utils.split (String.concat " " ["git"; "commit"; "-m"]) " "
  = ["git"; "commit"; "-m"].
Proof.
  apply (split_inverts_join " " ["git"; "commit"; "-m"]).
  repeat constructor; discriminate.
Defined.

(** X6: [utils::to_lower] keeps the length, changes nothing in a string
    it has produced, and keeps occurrences: where [sub] occurs in [s], the
    lower-cased [sub] occurs in the lower-cased [s]. *)
Theorem to_lower_folds (s sub : string) :
  String.length (utils.to_lower s) = String.length s /\
  utils.to_lower (utils.to_lower s) = utils.to_lower s /\
  (utils.contains s sub = true ->
   utils.contains (utils.to_lower s) (utils.to_lower sub) = true).
Proof.
  split; [apply to_lower_length|].
  split; [apply to_lower_idempotent | apply contains_to_lower].
Qed.

(* --------------------------------------------------------------------- *)
(** ** The edit distance *)
(* --------------------------------------------------------------------- *)

(** X7: for strings whose lengths an [int] holds,
    [fuzzy::levenshtein_distance] is at least the difference of the two
    lengths and at most the greater of them. *)
Theorem levenshtein_distance_within_bounds (a b : string) :
  fits_int (String.length a) -> fits_int (String.length b) ->
  (Z.abs (Z.of_nat (String.length a) - Z.of_nat (String.length b))
   <= fuzzy.levenshtein_distance a b
   <= Z.max (Z.of_nat (String.length a)) (Z.of_nat (String.length b)))%Z.
Proof. apply levenshtein_distance_bounds. Qed.

Lemma levenshtein_distance_within_bounds_witness :
  (Z.abs (Z.of_nat (String.length "kitten")
          - Z.of_nat (String.length "sitting"))
   <= fuzzy.levenshtein_distance "kitten" "sitting"
   <= Z.max (Z.of_nat (String.length "kitten"))
            (Z.of_nat (String.length "sitting")))%Z.
Proof.
  apply (levenshtein_distance_within_bounds "kitten" "sitting");
    vm_compute; reflexivity.
Defined.

(** X8: for strings whose lengths an [int] holds,
    [fuzzy::levenshtein_distance] is 0 for equal strings only. *)
Theorem levenshtein_distance_zero_iff_equal (a b : string) :
  fits_int (String.length a) -> fits_int (String.length b) ->
  (fuzzy.levenshtein_distance a b = 0%Z <-> a = b).
Proof. apply levenshtein_distance_zero. Qed.

Lemma levenshtein_distance_zero_iff_equal_witness :
  fuzzy.levenshtein_distance "git" "gti" = 0%Z <-> "git" = "gti".
Proof.
  apply (levenshtein_distance_zero_iff_equal "git" "gti");
    vm_compute; reflexivity.
Defined.

(* --------------------------------------------------------------------- *)
(** ** The index of executable names and its cache *)
(* --------------------------------------------------------------------- *)

(** X9: [fuzzy::get_system_commands] returns each name once, and the names
    it returns are exactly those of the entries that pass its tests (no
    leading dot; a regular file, a link or an unknown type; [stat]
    succeeds with the owner-execute bit) in a directory of [PATH] that
    [is_directory] accepts and [opendir] opens. Without [PATH] there is
    no name. *)
Theorem index_holds_listed_names (w : World) :
  NoDup (fuzzy.get_system_commands w) /\
  forall name,
    In name (fuzzy.get_system_commands w) <->
    exists path_str,
      getenv_PATH w = Some path_str /\ on_search_path w path_str name.
Proof.
  split; [apply get_system_commands_NoDup | apply get_system_commands_exact].
Qed.

(** X10: the index is built by the first lookup of the process and kept:
    after [find_similar_commands] has run once, the cache is initialized,
    and a later call, whatever the search path and the file system have
    become, ranks the names of the index of the first call and leaves the
    cache as it is. *)
Theorem index_built_once {sort_impl : StdSort} (w w' : World)
  (input input' : string) (d d' : Z) (cache : State) :
  exists ranked cache1 ranked',
    fuzzy.find_similar_commands w input d cache = Some (ranked, cache1) /\
    fuzzy.initialized cache1 = true /\
    fuzzy.find_similar_commands w' input' d' cache1 = Some (ranked', cache1) /\
    Permutation (within d' input' (index_of w cache)) ranked'.
Proof. apply index_kept. Qed.

(* --------------------------------------------------------------------- *)
(** ** Rules that match together *)
(* --------------------------------------------------------------------- *)

(** X11: some predicates cannot hold alone. Whenever [ChmodXRule] or
    [PythonCommandRule] matches, [SudoRule] matches too; whenever
    [FuzzyCommandRule], [HasExistsScriptRule],
    [WrongHyphenBeforeSubcommandRule] or
    [MissingSpaceBeforeSubcommandRule] matches, [NoCommandRule] matches
    too. *)
Theorem predicates_overlap {sort_impl : StdSort} (w : World) (cmd : Command)
  (c c' c0 : State) :
  (ChmodXRule_match cmd c = Some (true, c') ->
   SudoRule_match cmd c0 = Some (true, c0)) /\
  (PythonCommandRule_match cmd c = Some (true, c') ->
   SudoRule_match cmd c0 = Some (true, c0)) /\
  (FuzzyCommandRule_match w cmd c = Some (true, c') ->
   NoCommandRule_match cmd c0 = Some (true, c0)) /\
  (HasExistsScriptRule_match w cmd c = Some (true, c') ->
   NoCommandRule_match cmd c0 = Some (true, c0)) /\
  (WrongHyphenBeforeSubcommandRule_match cmd c = Some (true, c') ->
   NoCommandRule_match cmd c0 = Some (true, c0)) /\
  (MissingSpaceBeforeSubcommandRule_match cmd c = Some (true, c') ->
   NoCommandRule_match cmd c0 = Some (true, c0)).
Proof.
  repeat split.
  - apply ChmodXRule_overlap.
  - apply PythonCommandRule_overlap.
  - apply FuzzyCommandRule_overlap.
  - apply HasExistsScriptRule_overlap.
  - apply WrongHyphenBeforeSubcommandRule_overlap.
  - apply MissingSpaceBeforeSubcommandRule_overlap.
Qed.

(** The refused script [./run.sh]: [ChmodXRule] matches, and so does
    [SudoRule]. *)
Lemma predicates_overlap_witness :
  SudoRule_match
    (Command_ctor "./run.sh" "bash: ./run.sh: Permission denied")
    fuzzy.fresh_cache
  = Some (true, fuzzy.fresh_cache).
Proof.
  apply (proj1 (predicates_overlap (sort_impl := stable_std_sort)
                  (bin_world [])
                  (Command_ctor "./run.sh"
                     "bash: ./run.sh: Permission denied")
                  fuzzy.fresh_cache fuzzy.fresh_cache fuzzy.fresh_cache)).
  vm_compute. reflexivity.
Defined.

(** X12: [RuleManager::get_corrected_commands] returns the empty list
    exactly when every rule of the registry has answered [false]: a rule
    that matches always gives at least one candidate. *)
Theorem no_candidates_iff_no_match {sort_impl : StdSort} (w : World)
  (cmd : Command) (cache cache' : State) :
  get_corrected_commands (RuleManager_ctor w) cmd cache = Some ([], cache')
  <-> all_miss cmd (rules (RuleManager_ctor w)) cache cache'.
Proof.
  unfold get_corrected_commands. split.
  - apply first_match_empty.
    apply (Permutation_Forall (registry_permutation w)).
    apply corrections_nonempty.
  - apply all_miss_first_match.
Qed.



(* --------------------------------------------------------------------- *)
(** ** What the corrections keep of the script *)
(* --------------------------------------------------------------------- *)

(** X14: the rules that rewrite the beginning of the script ([CdCsRule],
    [CatDirRule], [CpOmittingDirectoryRule], [GrepRecursiveRule],
    [MkdirPRule], [RmDirRule], [SlLsRule], [GitCloneGitCloneRule],
    [RemoveShellPromptLiteralRule], [UnsudoRule]): whenever one of them
    matches, the script is the prefix of its entry followed by some rest,
    and the rule returns one candidate, the replacement of its entry
    followed by the same rest. *)
Theorem prefix_rules_keep_the_rest : Forall rewrites_prefix prefix_rules.
Proof. apply prefix_rules_rewrite. Qed.

(** X15: when [DryRule] matches a constructed [Command], the first two
    tokens are equal and the [Command] constructed from the one candidate
    has the same tokens with one of the two dropped. *)
Theorem DryRule_drops_one_token (s o o' : string) (c c' : State) :
  DryRule_match (Command_ctor s o) c = Some (true, c') ->
  exists t rest fixed,
    script_parts (Command_ctor s o) = t :: t :: rest /\
    DryRule_get_new_command (Command_ctor s o) c' = Some ([fixed], c') /\
    script_parts (Command_ctor fixed o') = t :: rest.
Proof. apply DryRule_retokenized. Qed.

Lemma DryRule_drops_one_token_witness :
  exists t rest fixed,
    script_parts (Command_ctor "git  git status" "") = t :: t :: rest /\
    DryRule_get_new_command (Command_ctor "git  git status" "")
      fuzzy.fresh_cache = Some ([fixed], fuzzy.fresh_cache) /\
    script_parts (Command_ctor fixed "") = t :: rest.
Proof.
  apply (DryRule_drops_one_token "git  git status" "" ""
           fuzzy.fresh_cache fuzzy.fresh_cache).
  vm_compute. reflexivity.
Defined.

(** X16: [NoCommandRule] returns one candidate, and the [Command]
    constructed from it has the tokens of the original one, except that a
    first token found in the table of slips is replaced by the tokens of
    its correction. *)
Theorem NoCommandRule_keeps_arguments (s o o' : string) (c : State) :
  exists fixed,
    NoCommandRule_get_new_command (Command_ctor s o) c = Some ([fixed], c) /\
    script_parts (Command_ctor fixed o')
    = match script_parts (Command_ctor s o) with
      | [] => []
      | first :: rest =>
          match map_find NoCommandRule_typos first with
          | Some word => (utils.split word " " ++ rest)%list
          | None => first :: rest
          end
      end.
Proof. apply NoCommandRule_retokenized. Qed.

(** X17: when [TouchRule] matches, the script is [touch ] followed by a
    path; if the path holds a slash, the candidate creates the directory
    that is the path up to its last slash and then repeats the [touch];
    if it holds none, the candidate is the script itself. *)
Theorem TouchRule_makes_the_directory (cmd : Command) (c c' : State) :
  TouchRule_match cmd c = Some (true, c') ->
  exists path,
    script cmd = "touch " ++ path /\
    ((exists dir base,
        path = dir ++ "/" ++ base /\ free_of "/"%char base /\
        TouchRule_get_new_command cmd c'
        = Some (["mkdir -p " ++ dir ++ " && touch " ++ path], c'))
     \/ (free_of "/"%char path /\
         TouchRule_get_new_command cmd c' = Some ([script cmd], c'))).
Proof. apply TouchRule_path. Qed.

Lemma TouchRule_makes_the_directory_witness :
  exists path,
    script (Command_ctor "touch a/b/c.txt"
              "touch: cannot touch 'a/b/c.txt': No such file or directory")
    = "touch " ++ path /\
    ((exists dir base,
        path = dir ++ "/" ++ base /\ free_of "/"%char base /\
        TouchRule_get_new_command
          (Command_ctor "touch a/b/c.txt"
             "touch: cannot touch 'a/b/c.txt': No such file or directory")
          fuzzy.fresh_cache
        = Some (["mkdir -p " ++ dir ++ " && touch " ++ path],
                fuzzy.fresh_cache))
     \/ (free_of "/"%char path /\
         TouchRule_get_new_command
           (Command_ctor "touch a/b/c.txt"
              "touch: cannot touch 'a/b/c.txt': No such file or directory")
           fuzzy.fresh_cache
         = Some ([script
                    (Command_ctor "touch a/b/c.txt"
                       "touch: cannot touch 'a/b/c.txt': No such file or directory")],
                 fuzzy.fresh_cache))).
Proof.
  apply (TouchRule_makes_the_directory
           (Command_ctor "touch a/b/c.txt"
              "touch: cannot touch 'a/b/c.txt': No such file or directory")
           fuzzy.fresh_cache fuzzy.fresh_cache).
  vm_compute. reflexivity.
Defined.

(** X18: the rules that rewrite inside the script change its leftmost
    occurrence of the text they look for and nothing else.
    [GitTwoDashesRule] doubles the dash of the first [ -amend] (or, in its
    absence, of the first [ -continue], else of the first [ -abort]);
    [GitBranchDeleteRule] turns the first [-d] of the script into [-D];
    [GitMainMasterRule] replaces the first [master] by [main], or, when
    the script holds no [master], the first [main] by [master]. *)
Theorem first_occurrence_rewritten (cmd : Command) (c c' : State) :
  (GitTwoDashesRule_match cmd c = Some (true, c') ->
   exists flag pre post,
     In flag ["amend"; "continue"; "abort"] /\
     first_occurrence (" -" ++ flag) (script cmd) pre post /\
     GitTwoDashesRule_get_new_command cmd c'
     = Some ([pre ++ " --" ++ flag ++ post], c')) /\
  (GitBranchDeleteRule_match cmd c = Some (true, c') ->
   exists pre post,
     first_occurrence "-d" (script cmd) pre post /\
     GitBranchDeleteRule_get_new_command cmd c'
     = Some ([pre ++ "-D" ++ post], c')) /\
  (GitMainMasterRule_match cmd c = Some (true, c') ->
   exists old new pre post,
     ((old = "master" /\ new = "main") \/
      (old = "main" /\ new = "master" /\
       utils.contains (script cmd) "master" = false)) /\
     first_occurrence old (script cmd) pre post /\
     GitMainMasterRule_get_new_command cmd c'
     = Some ([pre ++ new ++ post], c')).
Proof.
  split; [apply GitTwoDashesRule_first_flag|].
  split; [apply GitBranchDeleteRule_first_flag|].
  apply GitMainMasterRule_first_name.
Qed.

Lemma first_occurrence_rewritten_witness :
  exists flag pre post,
    In flag ["amend"; "continue"; "abort"] /\
    first_occurrence (" -" ++ flag)
      (script (Command_ctor "git rebase -continue" "")) pre post /\
    GitTwoDashesRule_get_new_command
      (Command_ctor "git rebase -continue" "") fuzzy.fresh_cache
    = Some ([pre ++ " --" ++ flag ++ post], fuzzy.fresh_cache).
Proof.
  apply (proj1 (first_occurrence_rewritten
                  (Command_ctor "git rebase -continue" "")
                  fuzzy.fresh_cache fuzzy.fresh_cache)).
  vm_compute. reflexivity.
Defined.

(** X25: a rule that adds what its own predicate looks for does not match
    its own candidate: [GitCommitAmendRule], [PythonExecuteRule],
    [JavacRule], [GoRunRule], [Cpp11Rule], [LsAllRule], [LsLahRule],
    [CargoRule] and [CdParentRule] answer [false] on a [Command]
    constructed from a candidate they have returned, whatever its
    output. *)
Theorem corrections_settle : Forall settles settled_rules.
Proof. apply rules_settle. Qed.

(** X26: when [JavaRule] matches, its one candidate is the script without
    its last five characters, whatever they are; they are the extension
    [.java] when the script ends with it. *)
Theorem JavaRule_drops_last_five (cmd : Command) (c c' : State) :
  JavaRule_match cmd c = Some (true, c') ->
  exists kept dropped,
    script cmd = kept ++ dropped /\
    String.length dropped = 5 /\
    JavaRule_get_new_command cmd c' = Some ([kept], c') /\
    (utils.ends_with (script cmd) ".java" = true -> dropped = ".java").
Proof. apply JavaRule_last_five. Qed.

Lemma JavaRule_drops_last_five_witness :
  exists kept dropped,
    script (Command_ctor "java Main.java" "") = kept ++ dropped /\
    String.length dropped = 5 /\
    JavaRule_get_new_command (Command_ctor "java Main.java" "")
      fuzzy.fresh_cache = Some ([kept], fuzzy.fresh_cache) /\
    (utils.ends_with (script (Command_ctor "java Main.java" "")) ".java"
     = true -> dropped = ".java").
Proof.
  apply (JavaRule_drops_last_five (Command_ctor "java Main.java" "")
           fuzzy.fresh_cache fuzzy.fresh_cache).
  vm_compute. reflexivity.
Defined.

(* --------------------------------------------------------------------- *)
(** ** What the captures take from the output *)
(* --------------------------------------------------------------------- *)

(** X19: [GitPushRule] always returns one candidate,
    [git push --set-upstream origin ] followed by a branch name; the name
    is [master], or a non-empty run of letters, digits, underscores and
    dashes that follows [git push --set-upstream origin ] in the
    output. *)
Theorem GitPushRule_branch (cmd : Command) (c : State) :
  exists branch,
    GitPushRule_get_new_command cmd c
    = Some (["git push --set-upstream origin " ++ branch], c) /\
    (branch = "master" \/
     (branch <> "" /\ all_chars regex.branch_class branch = true /\
      utils.contains (output cmd)
        ("git push --set-upstream origin " ++ branch) = true)).
Proof. apply GitPushRule_captured_branch. Qed.

(** X20: [GitNotCommandRule] always returns one candidate; it is the
    script itself, or [git ] followed by a non-empty word of lower-case
    letters that follows [The most similar command is] and white space in
    the output, and by the tokens of the script from the third on. *)
Theorem GitNotCommandRule_suggestion (cmd : Command) (c : State) :
  exists fixed,
    GitNotCommandRule_get_new_command cmd c = Some ([fixed], c) /\
    (fixed = script cmd \/
     exists blank word,
       blank <> "" /\ all_chars regex.space_class blank = true /\
       word <> "" /\ all_chars regex.lower_class word = true /\
       utils.contains (output cmd)
         ("The most similar command is" ++ blank ++ word) = true /\
       fixed = append_parts ("git " ++ word) (script_parts cmd) 2).
Proof. apply GitNotCommandRule_captured_word. Qed.

(* --------------------------------------------------------------------- *)
(** ** The history reader, the subprocess runner and the retry loop *)
(* --------------------------------------------------------------------- *)

(** X21: [execute_command] returns what the child process wrote to the
    pipe, whatever the places at which the reads of at most 255 bytes cut
    it, provided that the output holds no null character. *)
Theorem execute_command_output (host : Host) (time : nat)
  (cmd stream : string) :
  sys_popen host time (c_str (cmd ++ " 2>&1")) = Some stream ->
  free_of Ascii.zero stream ->
  execute_command host time cmd = stream.
Proof. apply execute_command_free. Qed.

Lemma execute_command_output_witness :
  execute_command example_host 0 "gti status"
  = "gti: command not found" ++ newline.
Proof.
  apply (execute_command_output example_host 0 "gti status");
    vm_compute; reflexivity.
Defined.

(** X22: [get_last_command] throws no exception, and the command it
    returns is empty or holds neither [shit] nor [nano]; when the history
    is read as that of zsh, it holds no semicolon either. Without [HOME],
    or with a history file that cannot be opened, it is empty. *)
Theorem get_last_command_filtered (host : Host) :
  (exists r,
     get_last_command host = Some r /\ admissible (is_zsh host) r) /\
  (getenv host "HOME" = None -> get_last_command host = Some "") /\
  (forall home,
     getenv host "HOME" = Some home ->
     sys_ifstream host
       (home ++ (if is_zsh host then "/.zsh_history" else "/.bash_history"))
     = None ->
     get_last_command host = Some "").
Proof.
  split; [apply get_last_command_admissible|]. split.
  - intros H. unfold get_last_command. now rewrite H.
  - intros home Hhome Hfile. unfold get_last_command. rewrite Hhome.
    destruct (is_zsh host); now rewrite Hfile.
Qed.

(** X27: where the history file has a size that a [size_t] holds, the
    command [get_last_command] returns is empty, or begins and ends with
    a character that is none of the space, the tab, the newline and the
    carriage return. *)
Theorem get_last_command_trimmed (host : Host) (r : string) :
  files_fit host ->
  get_last_command host = Some r ->
  trimmed r.
Proof. apply get_last_command_is_trimmed. Qed.

Lemma get_last_command_trimmed_witness : trimmed "gti status".
Proof.
  apply (get_last_command_trimmed example_host "gti status").
  - intros path contents H. cbn in H.
    destruct (String.eqb path "/home/user/.bash_history");
      [|discriminate].
    injection H as <-. vm_compute. reflexivity.
  - vm_compute. reflexivity.
Defined.

(** X23: [main] ends without an uncaught exception, with the exit status
    0 or 1, after at most 10 calls of [system]; without the argument [-r]
    it calls [system] at most once. *)
Theorem main_bounded {sort_impl : StdSort} (host : Host)
  (argv : list string) :
  exists status trace,
    main host argv = Some (status, trace) /\
    (status = 0%Z \/ status = 1%Z) /\
    List.length (systems trace) <= 10 /\
    (~ In "-r" (tl argv) -> List.length (systems trace) <= 1).
Proof. apply main_bounded_retries. Qed.

(** X24: the retry loop of [main] stops at the first success: a call of
    [system] that is followed by anything else returned a status other
    than 0. *)
Theorem main_stops_at_first_success {sort_impl : StdSort} (host : Host)
  (argv : list string) (status : Z) (trace pre post : list event) (t : nat)
  (command : string) :
  main host argv = Some (status, trace) ->
  trace = (pre ++ System t command :: post)%list ->
  post <> [] ->
  sys_system host t command <> 0%Z.
Proof. apply main_stops_at_success. Qed.

Lemma main_stops_at_first_success_witness :
  sys_system example_host 1 "git status" <> 0%Z.
Proof.
  apply (main_stops_at_first_success (sort_impl := stable_std_sort)
           example_host ["theshit"; "-r"] 0%Z
           (example_trace_before
              ++ System 1 "git status" :: example_trace_after)%list
           example_trace_before example_trace_after 1 "git status").
  - vm_compute. reflexivity.
  - reflexivity.
  - discriminate.
Defined.
